(** * A shallow embedding of ART's Checker (tools/checker.py)

    Checker matches "check lines" written as comments of a test file
    against the grouped textual output of the Optimizing compiler.  This
    file embeds the matching engine of [checker.py] - check elements, check
    lines, check groups, the check file and group lookup - and proves
    properties of it.

    Conventions.

    - A Python [str] is a [list ascii]; a character stands for a code point
      below 256.  String literals are written [txt "..."].
    - Python's [dict] from names to captured strings is a
      [gmap (list ascii) (list ascii)].
    - Python's [re] module is not part of the program.  It is an interface
      ([ReModule]) the embedding is parameterised by; [PyRe] is an
      executable instance for a fragment of the pattern syntax and is used
      to run the embedding on concrete inputs.
    - A computation returns a [result]: a value, a raised exception, or
      [Timeout] when the fuel given to a [while True] loop is used up. *)

From Stdlib Require Import List Ascii String ZArith Lia Bool.
From stdpp Require Import base option list gmap strings.
Import ListNotations.

Local Open Scope nat_scope.

Abbreviation str := (list ascii).
Abbreviation table := (gmap (list ascii) (list ascii)).

Definition txt (s : string) : str := list_ascii_of_string s.

(** ** Exceptions and results *)

Inductive exn :=
| EmptyCheckLine            (* "Empty check line" *)
| NotDefinesVariable (lineNo : Z)
                            (* "CHECK-NOT check lines cannot define ..." *)
| UndefinedVariable (name : str) (lineNo : Z)
                            (* "Use of undefined variable ..." *)
| Redefinition (name : str) (lineNo : Z)
                            (* "Redefinition of variable ..." *)
| CouldNotMatch (content : str)
                            (* "Could not match line ..." *)
| NotLineMatches (content : str)
                            (* "CHECK-NOT line ... matches output" *)
| GroupNotFound (name : str)
                            (* "Group ... not found in the output" *)
| NoGroupName               (* "Check group does not have a name" *)
| NoGroupBody (name : str)  (* "Check group ... does not have a body" *)
| NoneNotSubscriptable      (* TypeError: None[...] *)
| NoneNotIterable           (* TypeError: dict(None) *)
| IndexError                (* list index out of range *)
| ValueError                (* min() or max() of an empty list *)
| AssertionError
| ReError.                  (* re.error: the pattern does not compile *)

Inductive result (A : Type) :=
| Ok (a : A)
| Raise (e : exn)
| Timeout.
Arguments Ok {A} a.
Arguments Raise {A} e.
Arguments Timeout {A}.

Definition bind {A B} (m : result A) (k : A -> result B) : result B :=
  match m with
  | Ok a => k a
  | Raise e => Raise e
  | Timeout => Timeout
  end.

Notation "x <- m ;; k" := (bind m (fun x => k))
  (at level 100, m at next level, right associativity).
Notation "m ;;; k" := (bind m (fun _ => k))
  (at level 100, right associativity).

Fixpoint mapM {A B} (f : A -> result B) (l : list A) : result (list B) :=
  match l with
  | [] => Ok []
  | a :: l' => b <- f a ;; bs <- mapM f l' ;; Ok (b :: bs)
  end.

(** ** Python string primitives *)

(** [str.isspace] on one character, for code points below 256. *)
Definition isspace (c : ascii) : bool :=
  let n := nat_of_ascii c in
  ((9 <=? n) && (n <=? 13)) || ((28 <=? n) && (n <=? 32))
  || (n =? 133) || (n =? 160).

Fixpoint lstrip (s : str) : str :=
  match s with
  | c :: s' => if isspace c then lstrip s' else s
  | [] => []
  end.

Definition rstrip (s : str) : str := rev (lstrip (rev s)).

(** [s.strip()] *)
Definition strip (s : str) : str := rstrip (lstrip s).

(** [s[a:b]] for arbitrary integers [a], [b] (negative ones count from the
    end, everything is clamped to the length). *)
Definition slice_index {A} (s : list A) (i : Z) : nat :=
  let len := Z.of_nat (length s) in
  Z.to_nat (if (i <? 0)%Z then Z.max (i + len) 0 else Z.min i len).

Definition pyslice {A} (a b : Z) (s : list A) : list A :=
  take (slice_index s b - slice_index s a) (drop (slice_index s a) s).

(** [s[a:b]] for indices known to be natural numbers. *)
Definition slice {A} (a b : nat) (s : list A) : list A :=
  take (b - a) (drop a s).

(** [s.find(c)]: [None] stands for -1. *)
Fixpoint find_char (c : ascii) (s : str) : option nat :=
  match s with
  | [] => None
  | d :: s' => if Ascii.eqb d c then Some 0 else S <$> find_char c s'
  end.

(** [min(l)] and [max(l)] *)
Definition pymin (l : list nat) : result nat :=
  match l with
  | [] => Raise ValueError
  | x :: l' => Ok (foldl Nat.min x l')
  end.

Definition pymax (l : list nat) : result nat :=
  match l with
  | [] => Raise ValueError
  | x :: l' => Ok (foldl Nat.max x l')
  end.

(** ** The [re] module as an interface

    [re_search p s] is [re.search(p, s)]: [None], or the [start()] and
    [end()] of the match object.  [re_match p s] is [re.match(p, s)]: the
    match is anchored at 0 and only its [end()] is used.  Both may raise
    (a pattern that does not compile). *)

Class ReModule := {
  re_search : str -> str -> result (option (nat * nat));
  re_match : str -> str -> result (option nat);
  re_escape : str -> str
}.

(** ** Check elements *)

Module CheckElement.

(** [CheckElement(variant, name, pattern)]: [Text] and [Pattern] have no
    name, [VarRef] has no pattern. *)
Inductive t :=
| Text (pattern : str)
| Pattern (pattern : str)
| VarRef (name : str)
| VarDef (name : str) (pattern : str).

Definition is_VarDef (e : t) : bool :=
  match e with VarDef _ _ => true | _ => false end.

Section WithRe.
Context {re : ReModule}.

Definition parseText (text : str) : t := Text (re_escape text).

Definition parsePattern (patternElem : str) : t :=
  Pattern (pyslice 2 (Z.of_nat (length patternElem) - 2) patternElem).

Definition parseVariable (varElem : str) : t :=
  match find_char ":" varElem with
  | None =>
      VarRef (pyslice 2 (Z.of_nat (length varElem) - 2) varElem)
  | Some colonPos =>
      VarDef (pyslice 2 (Z.of_nat colonPos) varElem)
             (pyslice (Z.of_nat colonPos + 1)
                      (Z.of_nat (length varElem) - 2) varElem)
  end.
End WithRe.

End CheckElement.

(** ** Check lines *)

Module CheckLine.

Inductive Variant := InOrder | DAG | Not.

#[global] Instance Variant_eq_dec : EqDecision Variant.
Proof. solve_decision. Defined.

Record t := mk {
  content : str;
  variant : Variant;
  lineNo : Z;
  lineParts : list CheckElement.t
}.

Definition isMatchAtStart (m : option (nat * nat)) : bool :=
  match m with
  | Some (0, _) => true
  | _ => false
  end.

Definition firstMatch (matches : list (option (nat * nat))) (string : str)
  : result nat :=
  pymin (map (fun m => match m with
                       | None => length string
                       | Some (start, _) => start
                       end) matches).

Definition getPatternRegex : str := txt "\{\{.+?\}\}".

Definition getVariableRegex : str :=
  txt "\[\[[a-zA-Z][a-zA-Z0-9]*(:.+?)?\]\]".

Definition match_end (m : option (nat * nat)) : nat :=
  match m with Some (_, e) => e | None => 0 end.

Section WithRe.
Context {re : ReModule}.

(** The [while line:] loop of [__parse].  [n] bounds the number of
    iterations; [parse] starts it at the length of the line, which is
    enough whenever every iteration consumes a character, and an
    iteration that consumes none repeats itself for ever. *)
Fixpoint parse_loop (n : nat) (variant : Variant) (lineNo : Z)
    (line : str) (lineParts : list CheckElement.t)
  : result (list CheckElement.t) :=
  match line with
  | [] => Ok lineParts
  | _ :: _ =>
    match n with
    | 0 => Timeout
    | S n' =>
      matchWhitespace <- re_search (txt "\s+") line ;;
      matchPattern <- re_search getPatternRegex line ;;
      matchVariable <- re_search getVariableRegex line ;;
      if isMatchAtStart matchWhitespace then
        parse_loop n' variant lineNo
          (drop (match_end matchWhitespace) line)
          (lineParts ++ [CheckElement.parsePattern (txt "{{\s+}}")])
      else if isMatchAtStart matchPattern then
        let pattern := take (match_end matchPattern) line in
        parse_loop n' variant lineNo
          (drop (match_end matchPattern) line)
          (lineParts ++ [CheckElement.parsePattern pattern])
      else if isMatchAtStart matchVariable then
        let var := take (match_end matchVariable) line in
        let elem := CheckElement.parseVariable var in
        if bool_decide (variant = Not) && CheckElement.is_VarDef elem then
          Raise (NotDefinesVariable lineNo)
        else
          parse_loop n' variant lineNo
            (drop (match_end matchVariable) line) (lineParts ++ [elem])
      else
        firstMatch <- firstMatch
          [matchWhitespace; matchPattern; matchVariable] line ;;
        let text := take firstMatch line in
        parse_loop n' variant lineNo (drop firstMatch line)
          (lineParts ++ [CheckElement.parseText text])
    end
  end.

Definition parse (variant : Variant) (lineNo : Z) (line : str)
  : result (list CheckElement.t) :=
  parse_loop (length line) variant lineNo line [].

(** [CheckLine(content, variant, lineNo)] *)
Definition init (content : str) (variant : Variant) (lineNo : Z)
  : result t :=
  let content := strip content in
  lineParts <- parse variant lineNo content ;;
  match lineParts with
  | [] => Raise EmptyCheckLine
  | _ :: _ => Ok (mk content variant lineNo lineParts)
  end.

Definition generatePattern (lineNo : Z) (linePart : CheckElement.t)
    (varState : table) : result str :=
  match linePart with
  | CheckElement.VarRef name =>
      match varState !! name with
      | Some v => Ok (re_escape v)
      | None => Raise (UndefinedVariable name lineNo)
      end
  | CheckElement.Text pattern
  | CheckElement.Pattern pattern
  | CheckElement.VarDef _ pattern => Ok pattern
  end.

(** The [for part in self.lineParts] loop of [match], run on the shadow
    copy [varState].  [Ok None] is [fullyMatched = False]. *)
Fixpoint match_parts (lineNo : Z) (parts : list CheckElement.t)
    (outputLine : str) (matchStart : nat) (varState : table)
  : result (option table) :=
  match parts with
  | [] => Ok (Some varState)
  | part :: parts' =>
    pattern <- generatePattern lineNo part varState ;;
    m <- re_match pattern (drop matchStart outputLine) ;;
    match m with
    | None => Ok None
    | Some e =>
      let matchEnd := matchStart + e in
      match part with
      | CheckElement.VarDef name _ =>
        if decide (is_Some (varState !! name)) then
          Raise (Redefinition name lineNo)
        else
          match_parts lineNo parts' outputLine matchEnd
            (<[name := slice matchStart matchEnd outputLine]> varState)
      | _ => match_parts lineNo parts' outputLine matchEnd varState
      end
    end
  end.

(** The [while True] loop of [match]; [fuel] bounds its iterations. *)
Fixpoint match_loop (fuel : nat) (self : t) (initialPattern : str)
    (outputLine : str) (initialVarState : table)
    (initialSearchFrom : nat) : result (option table) :=
  match fuel with
  | 0 => Timeout
  | S fuel' =>
    firstMatch <-
      re_search initialPattern (drop initialSearchFrom outputLine) ;;
    match firstMatch with
    | None => Ok None
    | Some (start, _) =>
      let matchStart := initialSearchFrom + start in
      let initialSearchFrom := initialSearchFrom + start + 1 in
      r <- match_parts (lineNo self) (lineParts self) outputLine
             matchStart initialVarState ;;
      match r with
      | Some varState => Ok (Some varState)
      | None =>
          match_loop fuel' self initialPattern outputLine
            initialVarState initialSearchFrom
      end
    end
  end.

(** [self.match(outputLine, initialVarState)] for a dict. *)
Definition match_ (fuel : nat) (self : t) (outputLine : str)
    (initialVarState : table) : result (option table) :=
  match lineParts self with
  | [] => Raise IndexError
  | part0 :: _ =>
    initialPattern <-
      generatePattern (lineNo self) part0 initialVarState ;;
    match_loop fuel self initialPattern outputLine initialVarState 0
  end.

(** [self.match(outputLine, None)]: subscripting [None] for a leading
    variable reference and [dict(None)] after the first successful
    search are type errors. *)
Definition match_None (self : t) (outputLine : str)
  : result (option table) :=
  match lineParts self with
  | [] => Raise IndexError
  | CheckElement.VarRef _ :: _ => Raise NoneNotSubscriptable
  | CheckElement.Text pattern :: _
  | CheckElement.Pattern pattern :: _
  | CheckElement.VarDef _ pattern :: _ =>
    firstMatch <- re_search pattern (drop 0 outputLine) ;;
    match firstMatch with
    | None => Ok None
    | Some _ => Raise NoneNotIterable
    end
  end.

(** [self.match(outputLine, varState)] where [varState] is a dict or
    [None]. *)
Definition match_py (fuel : nat) (self : t) (outputLine : str)
    (varState : option table) : result (option table) :=
  match varState with
  | Some vs => match_ fuel self outputLine vs
  | None => match_None self outputLine
  end.
End WithRe.

End CheckLine.

(** ** An executable instance of the [re] interface

    [PyRe] implements [re.search], [re.match] and [re.escape] for a
    fragment of Python's pattern syntax: literal characters, [.], the
    escapes [\s], [\d], [\w] and backslash followed by a character that is
    not alphanumeric, bracketed classes with ranges and negation, groups,
    alternation, and the quantifiers [*], [+], [?] with their lazy forms.
    Any other pattern is rejected with [ReError].  Matching is by
    backtracking: [ends r s] lists the end offsets of the matches of [r] at
    the start of [s] in the order a backtracking matcher tries them, and
    the first one is the match. *)

Module PyRe.

Inductive regex :=
| REps
| RSet (f : ascii -> bool)
| RSeq (a b : regex)
| RAlt (a b : regex)
| RStar (greedy : bool) (a : regex).

Definition RPlus (greedy : bool) (a : regex) : regex :=
  RSeq a (RStar greedy a).

Definition ROpt (greedy : bool) (a : regex) : regex :=
  if greedy then RAlt a REps else RAlt REps a.

Definition in_range (lo hi c : ascii) : bool :=
  (nat_of_ascii lo <=? nat_of_ascii c)
  && (nat_of_ascii c <=? nat_of_ascii hi).

Definition is_alnum (c : ascii) : bool :=
  in_range "a" "z" c || in_range "A" "Z" c || in_range "0" "9" c.

Definition is_word (c : ascii) : bool := is_alnum c || Ascii.eqb c "_".

(** The characters [re.escape] puts a backslash before. *)
Definition special_chars : str := txt "()[]{}?*+-|^$\.&~# "
  ++ [ascii_of_nat 9; ascii_of_nat 10; ascii_of_nat 13;
      ascii_of_nat 11; ascii_of_nat 12].

Definition is_special (c : ascii) : bool :=
  existsb (Ascii.eqb c) special_chars.

(** The characters with a meaning of their own in a pattern. *)
Definition is_meta (c : ascii) : bool :=
  existsb (Ascii.eqb c) (txt "()[]{}?*+|^$\.").

Definition escape (pattern : str) : str :=
  flat_map (fun c => if is_special c then ["\"%char; c] else [c]) pattern.

(** *** Compiling a pattern *)

(** The items of a bracketed class, up to the closing bracket. *)
Fixpoint p_class (s : str) (acc : ascii -> bool)
  : option ((ascii -> bool) * str) :=
  match s with
  | [] => None
  | a :: s1 =>
    if Ascii.eqb a "]" then Some (acc, s1)
    else if Ascii.eqb a "\" then None
    else
      match s1 with
      | b :: c :: s2 =>
        if Ascii.eqb b "-" && negb (Ascii.eqb c "]") then
          if Ascii.eqb c "\" then None
          else p_class s2 (fun x => acc x || in_range a c x)
        else p_class s1 (fun x => acc x || Ascii.eqb x a)
      | _ => p_class s1 (fun x => acc x || Ascii.eqb x a)
      end
  end.

Definition p_quant (a : regex) (s : str) : regex * str :=
  match s with
  | q :: s1 =>
    let lazy := match s1 with l :: _ => Ascii.eqb l "?" | [] => false end in
    let rest := if lazy then drop 1 s1 else s1 in
    if Ascii.eqb q "*" then (RStar (negb lazy) a, rest)
    else if Ascii.eqb q "+" then (RPlus (negb lazy) a, rest)
    else if Ascii.eqb q "?" then (ROpt (negb lazy) a, rest)
    else (a, s)
  | [] => (a, s)
  end.

Definition p_escape (c : ascii) : option regex :=
  if Ascii.eqb c "s" then Some (RSet isspace)
  else if Ascii.eqb c "d" then Some (RSet (in_range "0" "9"))
  else if Ascii.eqb c "w" then Some (RSet is_word)
  else if is_alnum c then None
  else Some (RSet (Ascii.eqb c)).

Fixpoint p_alt (n : nat) (s : str) : option (regex * str) :=
  match n with
  | 0 => None
  | S n' =>
    match p_seq n' s with
    | Some (a, c :: s1) =>
      if Ascii.eqb c "|" then
        match p_alt n' s1 with
        | Some (b, s2) => Some (RAlt a b, s2)
        | None => None
        end
      else Some (a, c :: s1)
    | r => r
    end
  end
with p_seq (n : nat) (s : str) : option (regex * str) :=
  match n with
  | 0 => None
  | S n' =>
    match s with
    | [] => Some (REps, [])
    | c :: _ =>
      if Ascii.eqb c "|" || Ascii.eqb c ")" then Some (REps, s)
      else
        match p_atom n' s with
        | Some (a, s1) =>
          let (a', s2) := p_quant a s1 in
          match p_seq n' s2 with
          | Some (b, s3) => Some (RSeq a' b, s3)
          | None => None
          end
        | None => None
        end
    end
  end
with p_atom (n : nat) (s : str) : option (regex * str) :=
  match n with
  | 0 => None
  | S n' =>
    match s with
    | [] => None
    | c :: s1 =>
      if Ascii.eqb c "(" then
        match s1 with
        | q :: _ =>
          if Ascii.eqb q "?" then None
          else
            match p_alt n' s1 with
            | Some (a, d :: s2) =>
              if Ascii.eqb d ")" then Some (a, s2) else None
            | _ => None
            end
        | [] => None
        end
      else if Ascii.eqb c "[" then
        match s1 with
        | d :: s2 =>
          if Ascii.eqb d "^" then
            match p_class s2 (fun _ => false) with
            | Some (f, s3) => Some (RSet (fun x => negb (f x)), s3)
            | None => None
            end
          else if Ascii.eqb d "]" then None
          else
            match p_class s1 (fun _ => false) with
            | Some (f, s3) => Some (RSet f, s3)
            | None => None
            end
        | [] => None
        end
      else if Ascii.eqb c "\" then
        match s1 with
        | d :: s2 =>
          match p_escape d with
          | Some a => Some (a, s2)
          | None => None
          end
        | [] => None
        end
      else if Ascii.eqb c "." then
        Some (RSet (fun x => negb (Ascii.eqb x (ascii_of_nat 10))), s1)
      else if is_meta c then None
      else Some (RSet (Ascii.eqb c), s1)
    end
  end.

Definition compile (pattern : str) : option regex :=
  match p_alt (3 * length pattern + 3) pattern with
  | Some (r, []) => Some r
  | _ => None
  end.

(** *** Matching *)

(** One more round of a starred expression: [step] lists the ends of one
    iteration, an iteration that consumes nothing is not repeated, and
    [k] bounds the number of rounds. *)
Fixpoint star_ends (step : str -> list nat) (greedy : bool) (k : nat)
    (s : str) : list nat :=
  match k with
  | 0 => [0]
  | S k' =>
    let more :=
      flat_map (fun n =>
        if n =? 0 then []
        else map (Nat.add n) (star_ends step greedy k' (drop n s)))
        (step s) in
    if greedy then more ++ [0] else 0 :: more
  end.

Fixpoint ends (r : regex) (s : str) : list nat :=
  match r with
  | REps => [0]
  | RSet f =>
    match s with
    | c :: _ => if f c then [1] else []
    | [] => []
    end
  | RSeq a b =>
    flat_map (fun n => map (Nat.add n) (ends b (drop n s))) (ends a s)
  | RAlt a b => ends a s ++ ends b s
  | RStar greedy a => star_ends (ends a) greedy (length s) s
  end.

Definition match_at (r : regex) (s : str) : option nat := head (ends r s).

(** The leftmost position of [s], counted from [i], where [r] matches. *)
Fixpoint search_from (r : regex) (s : str) (i : nat) : option (nat * nat) :=
  match match_at r s with
  | Some e => Some (i, i + e)
  | None =>
    match s with
    | [] => None
    | _ :: s' => search_from r s' (S i)
    end
  end.

Definition search (pattern string : str) : result (option (nat * nat)) :=
  match compile pattern with
  | None => Raise ReError
  | Some r => Ok (search_from r string 0)
  end.

Definition match_ (pattern string : str) : result (option nat) :=
  match compile pattern with
  | None => Raise ReError
  | Some r => Ok (match_at r string)
  end.

#[global] Instance re : ReModule :=
  {| re_search := search; re_match := match_; re_escape := escape |}.

End PyRe.

(** ** Errors and results of the output file and of the commands

    The exceptions of [OutputFile._processLine] and [DumpGroup], beside
    those of [exn]. *)

Inductive output_exn :=
| ExpectedGroupName (lineNo : nat)
                            (* "Expected group name in output file ..." *)
| PassWithoutMethod (lineNo : nat)
                            (* "Output contains a pass without a method
                               header ..." *)
| OutputLineOutsideGroup (lineNo : nat)
                            (* "Output line lies outside a group ..." *)
| MissingGroup (name : str) (* "Check group ... not found in the output" *)
| NoneNotConcatenable       (* TypeError: None + " " *)
| Other (e : exn).

Inductive oresult (A : Type) :=
| OOk (a : A)
| ORaise (e : output_exn)
| OTimeout.
Arguments OOk {A} a.
Arguments ORaise {A} e.
Arguments OTimeout {A}.

Definition obind {A B} (m : oresult A) (k : A -> oresult B) : oresult B :=
  match m with
  | OOk a => k a
  | ORaise e => ORaise e
  | OTimeout => OTimeout
  end.

Notation "x <~ m ;; k" := (obind m (fun x => k))
  (at level 100, m at next level, right associativity).

Definition lift {A} (m : result A) : oresult A :=
  match m with
  | Ok a => OOk a
  | Raise e => ORaise (Other e)
  | Timeout => OTimeout
  end.

(** The double quote character. *)
Definition quote : ascii := ascii_of_nat 34.

(** [s.split(sep)] for a separator of one character. *)
Fixpoint split_on (sep : ascii) (s : str) : list str :=
  match s with
  | [] => [[]]
  | c :: s' =>
    if Ascii.eqb c sep then [] :: split_on sep s'
    else
      match split_on sep s' with
      | piece :: pieces => (c :: piece) :: pieces
      | [] => [[c]]
      end
  end.

(** [sep.join(l)] *)
Fixpoint join (sep : str) (l : list str) : str :=
  match l with
  | [] => []
  | [s] => s
  | s :: l' => s ++ sep ++ join sep l'
  end.

(** ** Output groups and the output file *)

Module OutputGroup.
Record t := mk { name : str; body : list str }.

(** [OutputGroup(name, body)] *)
Definition init (name : str) (body : list str) : result t :=
  match name with
  | [] => Raise NoGroupName
  | _ :: _ =>
    match body with
    | [] => Raise (NoGroupBody name)
    | _ :: _ => Ok (mk name body)
    end
  end.
End OutputGroup.

Module OutputFile.
Record t := mk { groups : list OutputGroup.t }.

(** The [for group in self.groups] loop of [findGroup]. *)
Fixpoint findGroup_in (groups : list OutputGroup.t) (name : str)
  : option OutputGroup.t :=
  match groups with
  | [] => None
  | group :: groups' =>
    if decide (OutputGroup.name group = name) then Some group
    else findGroup_in groups' name
  end.

Definition findGroup (self : t) (name : str) : option OutputGroup.t :=
  findGroup_in (groups self) name.

(** *** Parsing the output

    [self.state] and [self.lastMethodName] are the fields
    [OutputFile.__init__] initialises and [_processLine] updates. *)

Inductive ParsingState :=
| OutsideBlock
| InsideCompilationBlock
| StartingCfgBlock
| InsideCfgBlock.

#[global] Instance ParsingState_eq_dec : EqDecision ParsingState.
Proof. solve_decision. Defined.

Record parser := mkParser {
  lastMethodName : option str;
  state : ParsingState
}.

(** The pattern for [name], whitespace and a text between double quotes
    that is not empty and has no double quote. *)
Definition namePattern : str :=
  txt "name\s+" ++ [quote] ++ txt "[^" ++ [quote] ++ txt "]+" ++ [quote].

(** The same for [method]. *)
Definition methodPattern : str :=
  txt "method\s+" ++ [quote] ++ txt "[^" ++ [quote] ++ txt "]+" ++ [quote].

(** The second piece of [line.split] at the double quote: what stands
    between the first two double quotes. *)
Definition quoted (line : str) : oresult str :=
  match split_on quote line !! 1 with
  | Some name => OOk name
  | None => ORaise (Other IndexError)
  end.

Section WithRe.
Context {re : ReModule}.

(** [_processLine]: the parser after the line, the processed line and
    the name of a new group. *)
Definition processLine (self : parser) (line : str) (lineNo : nat)
  : oresult (parser * (option str * option str)) :=
  match state self with
  | StartingCfgBlock =>
    m <~ lift (re_match namePattern line) ;;
    match m with
    | Some _ =>
      match lastMethodName self with
      | None => ORaise NoneNotConcatenable
      | Some method =>
        pass <~ quoted line ;;
        OOk (mkParser (lastMethodName self) InsideCfgBlock,
             (None, Some (method ++ txt " " ++ pass)))
      end
    | None => ORaise (ExpectedGroupName lineNo)
    end
  | InsideCfgBlock =>
    if decide (line = txt "end_cfg") then
      OOk (mkParser (lastMethodName self) OutsideBlock, (None, None))
    else OOk (self, (Some line, None))
  | InsideCompilationBlock =>
    m <~ lift (re_match methodPattern line) ;;
    match m with
    | Some _ =>
      name <~ quoted line ;;
      OOk (mkParser (Some name) InsideCompilationBlock, (None, None))
    | None =>
      if decide (line = txt "end_compilation") then
        OOk (mkParser (lastMethodName self) OutsideBlock, (None, None))
      else OOk (self, (None, None))
    end
  | OutsideBlock =>
    if decide (line = txt "begin_cfg") then
      match lastMethodName self with
      | None => ORaise (PassWithoutMethod lineNo)
      | Some _ =>
        OOk (mkParser (lastMethodName self) StartingCfgBlock, (None, None))
      end
    else if decide (line = txt "begin_compilation") then
      OOk (mkParser (lastMethodName self) InsideCompilationBlock,
           (None, None))
    else ORaise (OutputLineOutsideGroup lineNo)
  end.

(** The [for line in stream] loop of [_parseStream], as [OutputFile]
    inherits it: the parser and the groups when the stream is used up.
    As in [CheckFile.parseStream_loop], [currentGroup] is the group
    appended last to [allGroups]. *)
Fixpoint parseStream_loop (self : parser) (stream : list str)
    (lineNo : nat) (allGroups : list (str * list str))
  : oresult (parser * list (str * list str)) :=
  match stream with
  | [] => OOk (self, allGroups)
  | line :: stream' =>
    let lineNo := S lineNo in
    let line := strip line in
    match line with
    | [] => parseStream_loop self stream' lineNo allGroups
    | _ :: _ =>
      r <~ processLine self line lineNo ;;
      let '(self, (processedLine, newGroupName)) := r in
      let allGroups :=
        match newGroupName with
        | Some newGroupName => allGroups ++ [(newGroupName, [])]
        | None => allGroups
        end in
      match processedLine with
      | None => parseStream_loop self stream' lineNo allGroups
      | Some processedLine =>
        match last allGroups with
        | None => ORaise (Other NoneNotSubscriptable)
        | Some (currentName, currentLines) =>
          parseStream_loop self stream' lineNo
            (removelast allGroups
             ++ [(currentName, currentLines ++ [processedLine])])
        end
      end
    end
  end.

(** [_processGroup] *)
Definition processGroup (name : str) (lines : list str)
  : result OutputGroup.t :=
  OutputGroup.init name lines.

(** [OutputFile(outputStream)] *)
Definition init (outputStream : list str) : oresult t :=
  r <~ parseStream_loop (mkParser None OutsideBlock) outputStream 0 [] ;;
  groups <~ lift (mapM (fun group => processGroup (fst group) (snd group))
                       (snd r)) ;;
  OOk (mk groups).
End WithRe.
End OutputFile.

(** ** Check groups *)

Module CheckGroup.

Record t := mk { name : str; lines : list CheckLine.t }.

(** [CheckGroup(name, lines)] *)
Definition init (name : str) (lines : list CheckLine.t) : result t :=
  match name with
  | [] => Raise NoGroupName
  | _ :: _ =>
    match lines with
    | [] => Raise (NoGroupBody name)
    | _ :: _ => Ok (mk name lines)
    end
  end.

Definition headAndTail {A} (l : list A) : result (A * list A) :=
  match l with
  | [] => Raise IndexError
  | x :: l => Ok (x, l)
  end.

(** Splits [lines] at the first line whose variant is not [variant]. *)
Fixpoint splitByVariant (lines : list CheckLine.t)
    (variant : CheckLine.Variant) : list CheckLine.t * list CheckLine.t :=
  match lines with
  | line :: lines' =>
    if decide (CheckLine.variant line = variant) then
      let (l, r) := splitByVariant lines' variant in (line :: l, r)
    else ([], lines)
  | [] => ([], [])
  end.

Definition nextIndependentChecks (checkLines : list CheckLine.t)
  : result (list CheckLine.t * list CheckLine.t * list CheckLine.t) :=
  let (notChecks, checkLines) := splitByVariant checkLines CheckLine.Not in
  match checkLines with
  | [] => Ok (notChecks, [], [])
  | _ :: _ =>
    ht <- headAndTail checkLines ;;
    let (head, tail) := ht : CheckLine.t * list CheckLine.t in
    if decide (CheckLine.variant head = CheckLine.InOrder) then
      Ok (notChecks, [head], tail)
    else if decide (CheckLine.variant head = CheckLine.DAG) then
      let (independentChecks, checkLines) :=
        splitByVariant checkLines CheckLine.DAG in
      Ok (notChecks, independentChecks, checkLines)
    else Raise AssertionError
  end.

(** What [__matchIndependentChecks] returns.  With no check lines it
    returns [outputLines, varState, []]; otherwise
    [preceedingLines, remainingLines, varState].  The caller unpacks
    either triple as [notOutput, outputLines, newVarState]. *)
Inductive independent_result :=
| Skipped (outputLines : list str) (varState : table)
| Matched (preceedingLines remainingLines : list str) (varState : table).

Section WithRe.
Context {re : ReModule}.

(** The [for outputLine in outputLines] loop of [__findFirstMatch];
    [matchLineNo] is the number of lines already passed.  [None] stands
    for the pair [-1, None]. *)
Fixpoint findFirstMatch_from (fuel : nat) (matchLineNo : nat)
    (checkLine : CheckLine.t) (outputLines : list str)
    (lineFilter : list nat) (varState : option table)
  : result (option (nat * table)) :=
  match outputLines with
  | [] => Ok None
  | outputLine :: outputLines' =>
    let matchLineNo := S matchLineNo in
    if decide (matchLineNo ∈ lineFilter) then
      findFirstMatch_from fuel matchLineNo checkLine outputLines'
        lineFilter varState
    else
      newVarState <- CheckLine.match_py fuel checkLine outputLine varState ;;
      match newVarState with
      | Some vs => Ok (Some (matchLineNo, vs))
      | None =>
        findFirstMatch_from fuel matchLineNo checkLine outputLines'
          lineFilter varState
      end
  end.

Definition findFirstMatch (fuel : nat) (checkLine : CheckLine.t)
    (outputLines : list str) (lineFilter : list nat)
    (varState : option table) : result (option (nat * table)) :=
  findFirstMatch_from fuel 0 checkLine outputLines lineFilter varState.

(** The [for checkLine in checkLines] loop of
    [__matchIndependentChecks]. *)
Fixpoint matchEach (fuel : nat) (checkLines : list CheckLine.t)
    (outputLines : list str) (matchedLines : list nat)
    (varState : table) : result (list nat * table) :=
  match checkLines with
  | [] => Ok (matchedLines, varState)
  | checkLine :: checkLines' =>
    r <- findFirstMatch fuel checkLine outputLines matchedLines
           (Some varState) ;;
    match r with
    | None => Raise (CouldNotMatch (CheckLine.content checkLine))
    | Some (matchLineNo, varState) =>
      matchEach fuel checkLines' outputLines
        (matchedLines ++ [matchLineNo]) varState
    end
  end.

Definition matchIndependentChecks (fuel : nat)
    (checkLines : list CheckLine.t) (outputLines : list str)
    (varState : table) : result independent_result :=
  match checkLines with
  | [] => Ok (Skipped outputLines varState)
  | _ :: _ =>
    r <- matchEach fuel checkLines outputLines [] varState ;;
    let (matchedLines, varState) := r : list nat * table in
    lo <- pymin matchedLines ;;
    hi <- pymax matchedLines ;;
    let preceedingLines := take (lo - 1) outputLines in
    let remainingLines := drop hi outputLines in
    Ok (Matched preceedingLines remainingLines varState)
  end.

(** [__matchNotLines].  The assignment
    [matchLineNo, varState = self.__findFirstMatch(...)] overwrites the
    local [varState] with [None] whenever the line has no match, so
    every check line after the first is matched with [None]. *)
Fixpoint matchNotLines (fuel : nat) (checkLines : list CheckLine.t)
    (outputLines : list str) (varState : option table) : result unit :=
  match checkLines with
  | [] => Ok tt
  | checkLine :: checkLines' =>
    if decide (CheckLine.variant checkLine = CheckLine.Not) then
      r <- findFirstMatch fuel checkLine outputLines [] varState ;;
      match r with
      | Some _ => Raise (NotLineMatches (CheckLine.content checkLine))
      | None => matchNotLines fuel checkLines' outputLines None
      end
    else Raise AssertionError
  end.

(** The [while checkLines] loop of [match].  [n] bounds its iterations
    ([match_] starts it at the number of lines; every iteration
    removes at least one).  After [Skipped] the loop variables
    [outputLines] and [varState] hold a dict and a list, but then
    [checkLines] is empty ([nextIndependentChecks] returned
    [notChecks, [], []]) and the loop is over; the branch for a
    non-empty [checkLines] is never taken. *)
Fixpoint match_loop (n : nat) (fuel : nat) (checkLines : list CheckLine.t)
    (outputLines : list str) (varState : table) : result unit :=
  match checkLines with
  | [] => Ok tt
  | _ :: _ =>
    match n with
    | 0 => Timeout
    | S n' =>
      next <- nextIndependentChecks checkLines ;;
      let '(notChecks, independentChecks, checkLines) := next in
      r <- matchIndependentChecks fuel independentChecks outputLines
             varState ;;
      match r with
      | Skipped notOutput _ =>
        matchNotLines fuel notChecks notOutput (Some varState) ;;;
        match checkLines with
        | [] => Ok tt
        | _ :: _ => Raise NoneNotIterable
        end
      | Matched notOutput outputLines newVarState =>
        matchNotLines fuel notChecks notOutput (Some varState) ;;;
        match_loop n' fuel checkLines outputLines newVarState
      end
    end
  end.

(** [self.match(outputGroup)] *)
Definition match_ (fuel : nat) (self : t) (outputGroup : OutputGroup.t)
  : result unit :=
  match_loop (length (lines self)) fuel (lines self)
    (OutputGroup.body outputGroup) ∅.
End WithRe.

End CheckGroup.

(** ** The check file *)

Module CheckFile.

Record t := mk { prefix : str; groups : list CheckGroup.t }.

Section WithRe.
Context {re : ReModule}.

Definition extractLine (prefix : str) (line : str)
  : result (option str) :=
  let ignoreWhitespace := txt "\s*" in
  let prefixRegex :=
    ignoreWhitespace ++ txt "(//|#)" ++ ignoreWhitespace
    ++ prefix ++ txt ":" in
  m <- re_match prefixRegex line ;;
  match m with
  | Some e => Ok (Some (strip (drop e line)))
  | None => Ok None
  end.

(** [_processLine]: the processed line and the name of a new group. *)
Definition processLine (prefix : str) (line : str) (lineNo : nat)
  : result (option (str * CheckLine.Variant) * option str) :=
  startLine <- extractLine (prefix ++ txt "-START") line ;;
  match startLine with
  | Some startLine => Ok (None, Some startLine)
  | None =>
    plainLine <- extractLine prefix line ;;
    match plainLine with
    | Some plainLine => Ok (Some (plainLine, CheckLine.InOrder), None)
    | None =>
      dagLine <- extractLine (prefix ++ txt "-DAG") line ;;
      match dagLine with
      | Some dagLine => Ok (Some (dagLine, CheckLine.DAG), None)
      | None =>
        notLine <- extractLine (prefix ++ txt "-NOT") line ;;
        match notLine with
        | Some notLine => Ok (Some (notLine, CheckLine.Not), None)
        | None => Ok (None, None)
        end
      end
    end
  end.

(** [_processGroup]: [CheckLine(line[0], line[1])] leaves [lineNo] at
    its default, -1. *)
Definition processGroup (name : str)
    (lines : list (str * CheckLine.Variant)) : result CheckGroup.t :=
  checkLines <-
    mapM (fun line => CheckLine.init (fst line) (snd line) (-1)) lines ;;
  CheckGroup.init name checkLines.

(** The [for line in stream] loop of [_parseStream].  [currentGroup] is
    [None] or the tuple appended last to [allGroups]; the tuple's list
    is shared, so appending to it is appending to the last group of
    [allGroups].  [allGroups = []] stands for [currentGroup is None]. *)
Fixpoint parseStream_loop (prefix : str) (stream : list str)
    (lineNo : nat)
    (allGroups : list (str * list (str * CheckLine.Variant)))
  : result (list (str * list (str * CheckLine.Variant))) :=
  match stream with
  | [] => Ok allGroups
  | line :: stream' =>
    let lineNo := S lineNo in
    let line := strip line in
    match line with
    | [] => parseStream_loop prefix stream' lineNo allGroups
    | _ :: _ =>
      r <- processLine prefix line lineNo ;;
      let (processedLine, newGroupName) :=
        r : option (str * CheckLine.Variant) * option str in
      let allGroups :=
        match newGroupName with
        | Some newGroupName => allGroups ++ [(newGroupName, [])]
        | None => allGroups
        end in
      match processedLine with
      | None => parseStream_loop prefix stream' lineNo allGroups
      | Some processedLine =>
        match last allGroups with
        | None => Raise NoneNotSubscriptable
        | Some (currentName, currentLines) =>
          parseStream_loop prefix stream' lineNo
            (removelast allGroups
             ++ [(currentName, currentLines ++ [processedLine])])
        end
      end
    end
  end.

Definition parseStream (prefix : str) (stream : list str)
  : result (list CheckGroup.t) :=
  allGroups <- parseStream_loop prefix stream 0 [] ;;
  mapM (fun group => processGroup (fst group) (snd group)) allGroups.

(** [CheckFile(prefix, checkStream)] *)
Definition init (prefix : str) (checkStream : list str) : result t :=
  groups <- parseStream prefix checkStream ;;
  Ok (mk prefix groups).

(** The [for checkGroup in self.groups] loop of [match]. *)
Fixpoint match_groups (fuel : nat) (groups : list CheckGroup.t)
    (outputFile : OutputFile.t) : result unit :=
  match groups with
  | [] => Ok tt
  | checkGroup :: groups' =>
    match OutputFile.findGroup outputFile (CheckGroup.name checkGroup) with
    | None => Raise (GroupNotFound (CheckGroup.name checkGroup))
    | Some outputGroup =>
      CheckGroup.match_ fuel checkGroup outputGroup ;;;
      match_groups fuel groups' outputFile
    end
  end.

Definition match_ (fuel : nat) (self : t) (outputFile : OutputFile.t)
  : result unit :=
  match_groups fuel (groups self) outputFile.
End WithRe.

End CheckFile.

(** ** [CheckLine.match] on a store of dict objects

    The same function with the dicts as objects of a store: a dict value
    is a position of the store, [dict(d)] adds a copy at the end of the
    store, and [varState[name] = v] updates the object in place. *)

Module Store.
Abbreviation store := (list (gmap (list ascii) (list ascii))).

Definition deref (h : store) (d : nat) : table := default ∅ (h !! d).

(** [dict(d)] *)
Definition copy (h : store) (d : nat) : nat * store :=
  (length h, h ++ [deref h d]).

(** [d[name] = v] *)
Definition setitem (h : store) (d : nat) (name v : str) : store :=
  <[d := <[name := v]> (deref h d)]> h.

Section WithRe.
Context {re : ReModule}.

(** The [for part in self.lineParts] loop: the final store and
    [fullyMatched]. *)
Fixpoint match_parts (lineNo : Z) (parts : list CheckElement.t)
    (outputLine : str) (matchStart : nat) (varState : nat) (h : store)
  : store * result bool :=
  match parts with
  | [] => (h, Ok true)
  | part :: parts' =>
    match
      (pattern <-
         CheckLine.generatePattern lineNo part (deref h varState) ;;
       re_match pattern (drop matchStart outputLine))
    with
    | Ok None => (h, Ok false)
    | Ok (Some e) =>
      let matchEnd := matchStart + e in
      match part with
      | CheckElement.VarDef name _ =>
        if decide (is_Some (deref h varState !! name)) then
          (h, Raise (Redefinition name lineNo))
        else
          match_parts lineNo parts' outputLine matchEnd varState
            (setitem h varState name
               (slice matchStart matchEnd outputLine))
      | _ => match_parts lineNo parts' outputLine matchEnd varState h
      end
    | Raise e => (h, Raise e)
    | Timeout => (h, Timeout)
    end
  end.

Fixpoint match_loop (fuel : nat) (self : CheckLine.t)
    (initialPattern : str) (outputLine : str) (initialVarState : nat)
    (initialSearchFrom : nat) (h : store)
  : store * result (option nat) :=
  match fuel with
  | 0 => (h, Timeout)
  | S fuel' =>
    match
      re_search initialPattern (drop initialSearchFrom outputLine)
    with
    | Ok None => (h, Ok None)
    | Ok (Some (start, _)) =>
      let matchStart := initialSearchFrom + start in
      let initialSearchFrom := initialSearchFrom + start + 1 in
      let (varState, h) := copy h initialVarState in
      match
        match_parts (CheckLine.lineNo self) (CheckLine.lineParts self)
          outputLine matchStart varState h
      with
      | (h, Ok true) => (h, Ok (Some varState))
      | (h, Ok false) =>
        match_loop fuel' self initialPattern outputLine initialVarState
          initialSearchFrom h
      | (h, Raise e) => (h, Raise e)
      | (h, Timeout) => (h, Timeout)
      end
    | Raise e => (h, Raise e)
    | Timeout => (h, Timeout)
    end
  end.

(** [self.match(outputLine, initialVarState)]: the final store and
    the returned dict object, if any. *)
Definition match_ (fuel : nat) (self : CheckLine.t) (outputLine : str)
    (initialVarState : nat) (h : store) : store * result (option nat) :=
  match CheckLine.lineParts self with
  | [] => (h, Raise IndexError)
  | part0 :: _ =>
    match
      CheckLine.generatePattern (CheckLine.lineNo self) part0
        (deref h initialVarState)
    with
    | Ok initialPattern =>
      match_loop fuel self initialPattern outputLine initialVarState 0 h
    | Raise e => (h, Raise e)
    | Timeout => (h, Timeout)
    end
  end.
End WithRe.
End Store.

(** ** The commands

    [ListGroups], [DumpGroup] and [RunChecks] on the lines of the files
    they open; what [ListGroups] and [DumpGroup] print is what they
    return here. *)

Module Commands.
Section WithRe.
Context {re : ReModule}.

(** [ListGroups]: one printed line for each group. *)
Definition ListGroups (outputStream : list str) : oresult (list str) :=
  outputFile <~ OutputFile.init outputStream ;;
  OOk (map OutputGroup.name (OutputFile.groups outputFile)).

(** [DumpGroup]: the printed text. *)
Definition DumpGroup (outputStream : list str) (groupName : str)
  : oresult str :=
  outputFile <~ OutputFile.init outputStream ;;
  match OutputFile.findGroup outputFile groupName with
  | Some group => OOk (join [ascii_of_nat 10] (OutputGroup.body group))
  | None => ORaise (MissingGroup groupName)
  end.

(** [RunChecks] *)
Definition RunChecks (fuel : nat) (checkPrefix : str)
    (checkStream outputStream : list str) : oresult unit :=
  checkFile <~ lift (CheckFile.init checkPrefix checkStream) ;;
  outputFile <~ OutputFile.init outputStream ;;
  lift (CheckFile.match_ fuel checkFile outputFile).
End WithRe.
End Commands.

(** * Vocabulary of the properties *)

(** ** Spans *)

Definition all_variant (v : CheckLine.Variant) (ls : list CheckLine.t)
  : Prop :=
  Forall (fun l => CheckLine.variant l = v) ls.

(** [rest] does not begin with a line of variant [v]. *)
Definition stops_at (v : CheckLine.Variant) (rest : list CheckLine.t)
  : Prop :=
  match rest with
  | [] => True
  | l :: _ => CheckLine.variant l <> v
  end.

(** An independent span followed by [rest]: one in-order line, or a
    maximal run of DAG lines. *)
Definition independent_span (span rest : list CheckLine.t) : Prop :=
  (exists l, span = [l] /\ CheckLine.variant l = CheckLine.InOrder)
  \/ (all_variant CheckLine.DAG span /\ span <> []
      /\ stops_at CheckLine.DAG rest).

Section Assignment.
Context {re : ReModule}.

(** [k] is the first line of [out], numbered from [base + 1], that is
    not in [filter] and that [l] matches, giving [vs']. *)
Definition first_unconsumed (fuel : nat) (l : CheckLine.t)
    (out : list str) (base : nat) (filter : list nat)
    (vs : option table) (k : nat) (vs' : table) : Prop :=
  base < k /\ (k ∉ filter) /\
  (exists line, out !! (k - base - 1) = Some line /\
                CheckLine.match_py fuel l line vs = Ok (Some vs')) /\
  (forall j line, j < k - base - 1 -> out !! j = Some line ->
                  (base + j + 1) ∉ filter ->
                  CheckLine.match_py fuel l line vs = Ok None).

(** The lines a span is matched to: [matched] lists, in the order of the
    check lines, the number each one is matched to, every one being the
    first line not consumed before that its check line matches. *)
Fixpoint span_assignment (fuel : nat) (lines : list CheckLine.t)
    (out : list str) (consumed : list nat) (vs : table)
    (matched : list nat) (vs' : table) : Prop :=
  match lines, matched with
  | [], [] => vs' = vs
  | l :: lines', k :: matched' =>
    exists vs1,
      first_unconsumed fuel l out 0 consumed (Some vs) k vs1
      /\ span_assignment fuel lines' out (consumed ++ [k]) vs1 matched' vs'
  | _, _ => False
  end.

(** A line of the check file that [_parseStream] passes over: it is
    blank, or [_processLine] returns [None, None] for it. *)
Definition passed_over (prefix : str) (line : str) : Prop :=
  strip line = []
  \/ forall n, CheckFile.processLine prefix (strip line) n = Ok (None, None).
End Assignment.

(** ** Variables and the store *)

(** [name] is defined by an element of [parts]. *)
Definition defines (parts : list CheckElement.t) (name : str) : Prop :=
  exists pattern, CheckElement.VarDef name pattern ∈ parts.

(** What the run on the store returns, against what the run on values
    returns: the same outcome, and on success a dict object that did not
    exist in [h0] and holds the returned table. *)
Definition refines (h0 h' : Store.store) (pure : result (option table))
    (r : result (option nat)) : Prop :=
  match pure with
  | Ok (Some vs') =>
      exists d, r = Ok (Some d) /\ length h0 <= d /\ Store.deref h' d = vs'
  | Ok None => r = Ok None
  | Raise e => r = Raise e
  | Timeout => r = Timeout
  end.

Definition flag (pure : result (option table)) : result bool :=
  match pure with
  | Ok (Some _) => Ok true
  | Ok None => Ok false
  | Raise e => Raise e
  | Timeout => Timeout
  end.

(** ** Text and the laws of [re] *)

(** The length of the longest prefix of [s] whose characters satisfy [f]. *)
Fixpoint span_len (f : ascii -> bool) (s : str) : nat :=
  match s with
  | c :: s' => if f c then S (span_len f s') else 0
  | [] => 0
  end.

Definition nonspace (c : ascii) : bool := negb (isspace c).

(** [m] occurs in [s]. *)
Definition occurs_in (m s : str) : Prop :=
  exists i, m `prefix_of` drop i s.

(** [t] contains none of the markers. *)
Definition no_markers (t : str) : Prop :=
  forall m, m ∈ [txt "{{"; txt "}}"; txt "[["; txt "]]"] -> ~ occurs_in m t.

(** What the embedding uses of [re]: [re.escape(t)] is a pattern for the
    text [t] itself, [\s+] matches a longest run of whitespace, and the
    patterns of [{{...}}] and [[[...]]] are found only where the opening
    brackets are. *)
Class ReLaws (re : ReModule) : Prop := {
  escape_match t s :
    re_match (re_escape t) s
    = Ok (if decide (t `prefix_of` s) then Some (length t) else None);
  escape_search t s i :
    t `prefix_of` drop i s ->
    (forall j, j < i -> ~ t `prefix_of` drop j s) ->
    re_search (re_escape t) s = Ok (Some (i, i + length t));
  space_match s :
    re_match (txt "\s+") s
    = Ok (if span_len isspace s =? 0 then None
          else Some (span_len isspace s));
  space_search s :
    re_search (txt "\s+") s
    = Ok (let i := span_len nonspace s in
          if i <? length s
          then Some (i, i + span_len isspace (drop i s))
          else None);
  pattern_search s :
    ~ occurs_in (txt "{{") s ->
    re_search CheckLine.getPatternRegex s = Ok None;
  variable_search s :
    ~ occurs_in (txt "[[") s ->
    re_search CheckLine.getVariableRegex s = Ok None
}.

(** A line that is empty or ends with a character that is not
    whitespace. *)
Definition ends_in_text (line : str) : Prop :=
  line = [] \/ exists s c, line = s ++ [c] /\ isspace c = false.

(** A test for [occurs_in]. *)
Definition occursb (m s : str) : bool :=
  existsb (fun i => bool_decide (m `prefix_of` drop i s))
          (seq 0 (S (length s))).

Module PyReSpec.
Import PyRe.

(** The expression [re.escape(t)] compiles to. *)
Fixpoint lits (t : str) : regex :=
  match t with
  | [] => REps
  | c :: t' => RSeq (RSet (Ascii.eqb c)) (lits t')
  end.

Fixpoint countdown (n : nat) : list nat :=
  n :: match n with 0 => [] | S m => countdown m end.

Definition space_re : regex := RSeq (RPlus true (RSet isspace)) REps.
End PyReSpec.

(** ** The failures of a group run *)

(** The exceptions [CheckGroup.match] lets out when [re] raises nothing
    but its own error. *)
Definition match_failure (e : exn) : Prop :=
  match e with
  | CouldNotMatch _ | NotLineMatches _
  | UndefinedVariable _ _ | Redefinition _ _
  | NoneNotSubscriptable | NoneNotIterable | ReError => True
  | _ => False
  end.

(** [re] raises nothing but [re.error]. *)
Definition raises_only_ReError (re : ReModule) : Prop :=
  (forall p s e, re_search p s = Raise e -> e = ReError)
  /\ (forall p s e, re_match p s = Raise e -> e = ReError).

(** No call of [re] runs for ever. *)
Definition re_terminates (re : ReModule) : Prop :=
  (forall p s, re_search p s <> Timeout)
  /\ (forall p s, re_match p s <> Timeout).

(** ** A run over all the groups *)

Section RunVocabulary.
Context {re : ReModule}.

(** [checkGroup] has an output group of its name and matches the first
    one. *)
Definition group_passes (fuel : nat) (outputFile : OutputFile.t)
    (checkGroup : CheckGroup.t) : Prop :=
  exists outputGroup,
    OutputFile.findGroup outputFile (CheckGroup.name checkGroup)
      = Some outputGroup
    /\ CheckGroup.match_ fuel checkGroup outputGroup = Ok tt.
End RunVocabulary.

(** ** The lines of a check file *)

Section CheckFileVocabulary.
Context {re : ReModule}.

(** A line of a check file with what [_processLine] makes of it: a check
    line, or nothing for a line that is passed over. *)
Definition line_classified (prefix : str)
    (line : str * option (str * CheckLine.Variant)) : Prop :=
  match snd line with
  | Some processed =>
    strip (fst line) <> []
    /\ forall n, CheckFile.processLine prefix (strip (fst line)) n
                 = Ok (Some processed, None)
  | None => passed_over prefix (fst line)
  end.

(** A header line, the group name [_processLine] reads in it, and the
    lines up to the next header. *)
Definition section_classified (prefix : str)
    (s : str * str * list (str * option (str * CheckLine.Variant))) : Prop :=
  let '(header, name, body) := s in
  strip header <> []
  /\ (forall n, CheckFile.processLine prefix (strip header) n
                = Ok (None, Some name))
  /\ Forall (line_classified prefix) body.
End CheckFileVocabulary.

Definition section_lines
    (s : str * str * list (str * option (str * CheckLine.Variant)))
  : list str :=
  let '(header, _, body) := s in header :: map fst body.

Definition section_group
    (s : str * str * list (str * option (str * CheckLine.Variant)))
  : str * list (str * CheckLine.Variant) :=
  let '(_, name, body) := s in (name, omap snd body).

(** ** The lines of a C1visualizer dump *)

(** [keyword "name"] *)
Definition header_line (keyword name : str) : str :=
  keyword ++ txt " " ++ [quote] ++ name ++ [quote].

(** A name that can stand between double quotes. *)
Definition quotable (name : str) : Prop := name <> [] /\ quote ∉ name.

(** What [_parseStream] keeps of the lines of a [cfg] block. *)
Definition stored (body : list str) : list str :=
  filter (fun line => line <> []) (map strip body).

(** A pass, with its name and the lines of its block. *)
Definition render_pass (pass : str * list str) : list str :=
  [txt "begin_cfg"; header_line (txt "name") (fst pass)]
  ++ snd pass ++ [txt "end_cfg"].

Definition pass_well_formed (pass : str * list str) : Prop :=
  quotable (fst pass)
  /\ Forall (fun line => strip line <> txt "end_cfg") (snd pass).

(** A method: the compilation block, with the lines before and after the
    [method] line, and the passes that follow it. *)
Record method_dump := mkMethod {
  method_name : str;
  lines_before : list str;
  lines_after : list str;
  passes : list (str * list str)
}.

Definition render_compilation (m : method_dump) : list str :=
  [txt "begin_compilation"] ++ lines_before m
  ++ [header_line (txt "method") (method_name m)]
  ++ lines_after m ++ [txt "end_compilation"].

(** A compilation block of the given lines. *)
Definition compilation_block (lines : list str) : list str :=
  [txt "begin_compilation"] ++ lines ++ [txt "end_compilation"].

Definition render_method (m : method_dump) : list str :=
  render_compilation m ++ concat (map render_pass (passes m)).

Definition render_dump (methods : list method_dump) : list str :=
  concat (map render_method methods).

(** The name and the lines of the group of a pass. *)
Definition pass_group (m : method_dump) (pass : str * list str)
  : str * list str :=
  (method_name m ++ txt " " ++ fst pass, stored (snd pass)).

Definition method_groups (m : method_dump) : list (str * list str) :=
  map (pass_group m) (passes m).

Definition dump_groups (methods : list method_dump)
  : list (str * list str) :=
  concat (map method_groups methods).

Definition output_group (group : str * list str) : OutputGroup.t :=
  OutputGroup.mk (fst group) (snd group).

(** Every block of the method has a line that is not blank. *)
Definition passes_have_lines (m : method_dump) : Prop :=
  Forall (fun pass => stored (snd pass) <> []) (passes m).

Section DumpVocabulary.
Context {re : ReModule}.

(** A line of a compilation block that is neither the [method] line nor
    the end of the block. *)
Definition ignored_in_compilation (line : str) : Prop :=
  strip line = []
  \/ (re_match OutputFile.methodPattern (strip line) = Ok None
      /\ strip line <> txt "end_compilation").

Definition method_well_formed (m : method_dump) : Prop :=
  quotable (method_name m)
  /\ Forall ignored_in_compilation (lines_before m)
  /\ Forall ignored_in_compilation (lines_after m)
  /\ Forall pass_well_formed (passes m).

(** What [_processLine] needs of [re.match]: the two patterns match the
    header lines, and [end_compilation] is no [method] line. *)
Definition reads_headers : Prop :=
  (forall name, quotable name ->
     exists m, re_match OutputFile.namePattern
                 (header_line (txt "name") name) = Ok (Some m))
  /\ (forall name, quotable name ->
        exists m, re_match OutputFile.methodPattern
                    (header_line (txt "method") name) = Ok (Some m))
  /\ re_match OutputFile.methodPattern (txt "end_compilation") = Ok None.
End DumpVocabulary.

Module PyReHeaderSpec.
Import PyRe.

(** The characters of [t], then [r]. *)
Fixpoint lits_then (t : str) (r : regex) : regex :=
  match t with
  | [] => r
  | c :: t' => RSeq (RSet (Ascii.eqb c)) (lits_then t' r)
  end.

(** The expression the pattern of a header line compiles to. *)
Definition header_re (keyword : str) : regex :=
  lits_then keyword
    (RSeq (RPlus true (RSet isspace))
       (RSeq (RSet (Ascii.eqb quote))
          (RSeq (RPlus true
                   (RSet (fun x => negb (false || Ascii.eqb x quote))))
             (RSeq (RSet (Ascii.eqb quote)) REps)))).
End PyReHeaderSpec.

(** A dump of one method with two passes. *)
Definition sample_dump : list method_dump :=
  [mkMethod (txt "int Main.f(int)")
     [txt "  name " ++ [quote] ++ txt "Main.f" ++ [quote]]
     [txt "  date 1"]
     [(txt "builder", [txt "  B0"; txt ""; txt "  B1 "]);
      (txt "inliner (after)", [txt "begin_cfg"])]].

(** ** Sample data

    Check lines, groups and output used to run the embedding with
    [PyRe]. *)

Module Sample.
(** The check line [CheckLine(s, v)] for a word [s] without markers,
    spaces or characters that [re.escape] changes. *)
Definition word_line (v : CheckLine.Variant) (s : string) : CheckLine.t :=
  CheckLine.mk (txt s) v (-1) [CheckElement.Text (txt s)].

Definition group_G (lines : list CheckLine.t) : CheckGroup.t :=
  CheckGroup.mk (txt "G") lines.

Definition output_G (body : list string) : OutputGroup.t :=
  OutputGroup.mk (txt "G") (map txt body).

(** [CHECK: [[X:[0-9]+]]] and [CHECK: v[[X]]] *)
Definition def_line : CheckLine.t :=
  CheckLine.mk (txt "[[X:[0-9]+]]") CheckLine.InOrder (-1)
    [CheckElement.VarDef (txt "X") (txt "[0-9]+")].

Definition ref_line : CheckLine.t :=
  CheckLine.mk (txt "v[[X]]") CheckLine.InOrder (-1)
    [CheckElement.Text (txt "v"); CheckElement.VarRef (txt "X")].

(** [CHECK: v{{[0-9]+}}] *)
Definition regex_line : CheckLine.t :=
  CheckLine.mk (txt "v{{[0-9]+}}") CheckLine.InOrder (-1)
    [CheckElement.Text (txt "v"); CheckElement.Pattern (txt "[0-9]+")].

(** [CHECK: {{a*}}b] *)
Definition star_line : CheckLine.t :=
  CheckLine.mk (txt "{{a*}}b") CheckLine.InOrder (-1)
    [CheckElement.Pattern (txt "a*"); CheckElement.Text (txt "b")].

(** [CHECK-NOT: B C] *)
Definition not_B_C : CheckLine.t :=
  CheckLine.mk (txt "B C") CheckLine.Not (-1)
    [CheckElement.Text (txt "B"); CheckElement.Pattern (txt "\s+");
     CheckElement.Text (txt "C")].

(** [CHECK: A], [CHECK-NOT: X], [CHECK-NOT: B C], [CHECK: D] *)
Definition between : CheckGroup.t :=
  group_G [word_line CheckLine.InOrder "A";
           word_line CheckLine.Not "X";
           not_B_C;
           word_line CheckLine.InOrder "D"].

(** The same group without [CHECK-NOT: X]. *)
Definition between_one : CheckGroup.t :=
  group_G [word_line CheckLine.InOrder "A";
           not_B_C;
           word_line CheckLine.InOrder "D"].

(** [CHECK: A], [CHECK-NOT: X], [CHECK-NOT: B C] *)
Definition trailing : CheckGroup.t :=
  group_G [word_line CheckLine.InOrder "A";
           word_line CheckLine.Not "X";
           not_B_C].

(** [CHECK-NOT: v[[X]]] *)
Definition not_ref_line : CheckLine.t :=
  CheckLine.mk (txt "v[[X]]") CheckLine.Not (-1)
    [CheckElement.Text (txt "v"); CheckElement.VarRef (txt "X")].

(** [CHECK: [[X:[0-9]+]]], [CHECK-NOT: Z], [CHECK-NOT: v[[X]]],
    [CHECK: end] *)
Definition scoped : CheckGroup.t :=
  group_G [def_line;
           word_line CheckLine.Not "Z";
           not_ref_line;
           word_line CheckLine.InOrder "end"].

(** The same group without [CHECK-NOT: Z]. *)
Definition scoped_one : CheckGroup.t :=
  group_G [def_line;
           not_ref_line;
           word_line CheckLine.InOrder "end"].
End Sample.

(** * Properties *)

(** ** Spans of a check group *)

Section Spans.
Import CheckGroup.

Lemma splitByVariant_app v ls rest :
  all_variant v ls -> stops_at v rest ->
  splitByVariant (ls ++ rest) v = (ls, rest).
Proof.
  intros Hall Hstop. induction Hall as [|l ls Hl _ IH]; simpl.
  - destruct rest as [|r rest]; [reflexivity|].
    simpl in *. case_decide; [contradiction|reflexivity].
  - rewrite IH. case_decide; [reflexivity|contradiction].
Qed.

Lemma nextIndependentChecks_InOrder nots l tl :
  all_variant CheckLine.Not nots ->
  CheckLine.variant l = CheckLine.InOrder ->
  nextIndependentChecks (nots ++ l :: tl) = Ok (nots, [l], tl).
Proof.
  intros Hn Hl. unfold nextIndependentChecks.
  rewrite (splitByVariant_app CheckLine.Not nots (l :: tl) Hn)
    by (simpl; congruence).
  simpl. case_decide; [reflexivity|contradiction].
Qed.

Lemma nextIndependentChecks_DAG nots dags rest :
  all_variant CheckLine.Not nots ->
  all_variant CheckLine.DAG dags -> dags <> [] ->
  stops_at CheckLine.DAG rest ->
  nextIndependentChecks (nots ++ dags ++ rest) = Ok (nots, dags, rest).
Proof.
  intros Hn Hd Hne Hr. unfold nextIndependentChecks.
  destruct dags as [|d dags]; [congruence|].
  pose proof (Forall_inv Hd) as Hd1.
  rewrite (splitByVariant_app CheckLine.Not nots ((d :: dags) ++ rest) Hn)
    by (simpl; congruence).
  cbn [app headAndTail bind].
  destruct (decide (CheckLine.variant d = CheckLine.InOrder));
    [congruence|].
  destruct (decide (CheckLine.variant d = CheckLine.DAG)); [|contradiction].
  change (d :: dags ++ rest) with ((d :: dags) ++ rest).
  rewrite (splitByVariant_app CheckLine.DAG (d :: dags) rest Hd Hr).
  reflexivity.
Qed.

Lemma nextIndependentChecks_trailing nots :
  all_variant CheckLine.Not nots ->
  nextIndependentChecks nots = Ok (nots, [], []).
Proof.
  intros Hn. unfold nextIndependentChecks.
  rewrite <- (app_nil_r nots) at 1.
  rewrite (splitByVariant_app CheckLine.Not nots [] Hn) by exact I.
  reflexivity.
Qed.

Lemma foldl_min_le x l : foldl Nat.min x l <= x.
Proof. revert x. induction l as [|y l IH]; simpl; intros x; [lia|].
  specialize (IH (Nat.min x y)). lia. Qed.

End Spans.

(** ** Finding the first matching output line *)

Section FirstMatch.
Context {re : ReModule}.
Import CheckGroup.

Lemma findFirstMatch_from_None fuel base l out filter vs :
  Forall (fun line => CheckLine.match_py fuel l line vs = Ok None) out ->
  findFirstMatch_from fuel base l out filter vs = Ok None.
Proof.
  intros H. revert base. induction H as [|line out Hl _ IH]; intros base.
  - reflexivity.
  - simpl. case_decide; [apply IH|]. rewrite Hl. simpl. apply IH.
Qed.

Lemma findFirstMatch_from_Some fuel base l out filter vs k vs' :
  findFirstMatch_from fuel base l out filter vs = Ok (Some (k, vs')) ->
  first_unconsumed fuel l out base filter vs k vs'.
Proof.
  revert base. induction out as [|line out IH]; intros base; simpl.
  - discriminate.
  - assert (Hrec : first_unconsumed fuel l out (S base) filter vs k vs' ->
      (S base ∈ filter \/ CheckLine.match_py fuel l line vs = Ok None) ->
      first_unconsumed fuel l (line :: out) base filter vs k vs').
    { intros (Hlt & Hnf & (ln & Hln & Hm) & Hbefore) Hhere.
      split; [lia|]. split; [exact Hnf|]. split.
      - exists ln. split; [|exact Hm].
        replace (k - base - 1) with (S (k - S base - 1)) by lia. exact Hln.
      - intros j line' Hj Hlook Hf. destruct j as [|j].
        + simpl in Hlook. injection Hlook as <-.
          destruct Hhere as [Hin|Hnone]; [|exact Hnone].
          exfalso. apply Hf. replace (base + 0 + 1) with (S base) by lia.
          exact Hin.
        + simpl in Hlook. apply (Hbefore j); [lia|exact Hlook|].
          replace (S base + j + 1) with (base + S j + 1) by lia. exact Hf. }
    destruct (decide (S base ∈ filter)) as [Hin|Hnin].
    + intros H. apply Hrec; [apply IH; exact H|left; exact Hin].
    + destruct (CheckLine.match_py fuel l line vs) as [[t|]|e|] eqn:Hm;
        simpl; try discriminate.
      * intros [= <- <-]. split; [lia|]. split; [exact Hnin|]. split.
        -- exists line. replace (S base - base - 1) with 0 by lia.
           split; [reflexivity|exact Hm].
        -- intros j line' Hj. lia.
      * intros H. apply Hrec; [apply IH; exact H|right; reflexivity].
Qed.

Lemma first_unconsumed_bound fuel l out base filter vs k vs' :
  first_unconsumed fuel l out base filter vs k vs' ->
  base < k <= base + length out.
Proof.
  intros (Hlt & _ & (ln & Hln & _) & _).
  apply lookup_lt_Some in Hln. lia.
Qed.
End FirstMatch.

(** ** The loop over the spans of a group *)

Section GroupLoop.
Context {re : ReModule}.
Import CheckGroup.

Lemma nextIndependentChecks_span nots span rest :
  all_variant CheckLine.Not nots -> independent_span span rest ->
  nextIndependentChecks (nots ++ span ++ rest) = Ok (nots, span, rest).
Proof.
  intros Hn [(l & -> & Hl)|(Hd & Hne & Hr)].
  - apply nextIndependentChecks_InOrder; assumption.
  - apply nextIndependentChecks_DAG; assumption.
Qed.

Lemma independent_span_nonempty span rest :
  independent_span span rest -> span <> [].
Proof. intros [(l & -> & _)|(_ & Hne & _)]; [discriminate|exact Hne]. Qed.

(** One iteration of the loop of [CheckGroup.match]: the span is matched
    in the current window [out], the negative lines before it are run
    on the lines of [out] before the lowest matched line, and the loop
    goes on with the lines of [out] after the highest matched line. *)
Lemma match_loop_span n fuel nots span rest out vs :
  all_variant CheckLine.Not nots -> independent_span span rest ->
  match_loop (S n) fuel (nots ++ span ++ rest) out vs =
    (r <- matchEach fuel span out [] vs ;;
     lo <- pymin (fst r) ;;
     hi <- pymax (fst r) ;;
     matchNotLines fuel nots (take (lo - 1) out) (Some vs) ;;;
     match_loop n fuel rest (drop hi out) (snd r)).
Proof.
  intros Hn Hs. pose proof (independent_span_nonempty _ _ Hs) as Hne.
  assert (Hcons : exists x xs, nots ++ span ++ rest = x :: xs).
  { destruct nots; simpl; [|eauto]. destruct span; [congruence|].
    simpl; eauto. }
  destruct Hcons as (x & xs & Hcons).
  rewrite Hcons. cbn [match_loop]. rewrite <- Hcons.
  rewrite (nextIndependentChecks_span nots span rest Hn Hs).
  cbn [bind]. unfold matchIndependentChecks.
  destruct span as [|s0 span]; [congruence|].
  destruct (matchEach fuel (s0 :: span) out [] vs) as [[m t]|e|];
    cbn [bind fst snd]; try reflexivity.
  destruct (pymin m); cbn [bind]; try reflexivity.
  destruct (pymax m); cbn [bind]; reflexivity.
Qed.

(** The last iteration, when only negative lines are left. *)
Lemma match_loop_trailing n fuel nots out vs :
  all_variant CheckLine.Not nots -> nots <> [] ->
  match_loop (S n) fuel nots out vs =
    matchNotLines fuel nots out (Some vs).
Proof.
  intros Hn Hne. destruct nots as [|x xs] eqn:E; [congruence|].
  cbn [match_loop]. rewrite <- E in *.
  rewrite (nextIndependentChecks_trailing nots Hn).
  cbn [bind matchIndependentChecks].
  destruct (matchNotLines fuel nots out (Some vs)) as [[]|e|];
    reflexivity.
Qed.

Lemma matchEach_single fuel l out vs :
  matchEach fuel [l] out [] vs =
    (r <- findFirstMatch fuel l out [] (Some vs) ;;
     match r with
     | None => Raise (CouldNotMatch (CheckLine.content l))
     | Some (k, vs') => Ok ([k], vs')
     end).
Proof.
  cbn [matchEach].
  destruct (findFirstMatch fuel l out [] (Some vs)) as [[[k t]|]|e|];
    reflexivity.
Qed.

(** The iteration for an in-order line. *)
Lemma match_loop_InOrder n fuel nots l tl out vs :
  all_variant CheckLine.Not nots ->
  CheckLine.variant l = CheckLine.InOrder ->
  match_loop (S n) fuel (nots ++ l :: tl) out vs =
    (r <- findFirstMatch fuel l out [] (Some vs) ;;
     match r with
     | None => Raise (CouldNotMatch (CheckLine.content l))
     | Some (k, vs') =>
       matchNotLines fuel nots (take (k - 1) out) (Some vs) ;;;
       match_loop n fuel tl (drop k out) vs'
     end).
Proof.
  intros Hn Hl.
  change (nots ++ l :: tl) with (nots ++ [l] ++ tl).
  rewrite match_loop_span by (try assumption; left; eauto).
  rewrite matchEach_single.
  destruct (findFirstMatch fuel l out [] (Some vs)) as [[[k t]|]|e|];
    reflexivity.
Qed.

Lemma matchEach_assignment fuel lines out consumed vs m vs' :
  matchEach fuel lines out consumed vs = Ok (m, vs') ->
  exists matched, m = consumed ++ matched
    /\ span_assignment fuel lines out consumed vs matched vs'.
Proof.
  revert consumed vs. induction lines as [|l lines IH]; intros consumed vs.
  - simpl. intros [= <- <-]. exists []. rewrite app_nil_r. done.
  - cbn [matchEach].
    destruct (findFirstMatch fuel l out consumed (Some vs))
      as [[[k t]|]|e|] eqn:Hf; cbn [bind]; try discriminate.
    intros H. apply IH in H as (matched & -> & Hs).
    exists (k :: matched). split; [by rewrite <- app_assoc|].
    exists t. split; [|exact Hs].
    apply findFirstMatch_from_Some. exact Hf.
Qed.

Lemma span_assignment_facts fuel lines out consumed vs matched vs' :
  span_assignment fuel lines out consumed vs matched vs' ->
  NoDup consumed ->
  NoDup (consumed ++ matched)
  /\ length matched = length lines
  /\ Forall (fun k => 1 <= k <= length out) matched.
Proof.
  revert consumed vs matched.
  induction lines as [|l lines IH]; intros consumed vs [|k matched]; simpl;
    try contradiction.
  - intros _ Hnd. rewrite app_nil_r. done.
  - intros (vs1 & Hfirst & Hrest) Hnd.
    destruct (first_unconsumed_bound _ _ _ _ _ _ _ _ Hfirst) as [? ?].
    destruct Hfirst as (_ & Hnotin & _).
    apply IH in Hrest as (Hnd' & Hlen & Hall).
    + rewrite <- app_assoc in Hnd'. simpl in Hnd'.
      split; [exact Hnd'|]. split; [lia|].
      constructor; [lia|exact Hall].
    + apply NoDup_app. split; [exact Hnd|]. split.
      * intros x Hx Hx'. apply list_elem_of_singleton in Hx'. subst x.
        contradiction.
      * apply NoDup_singleton.
Qed.
(** The iteration for a span that has one negative line before it: the
    negative line is looked for in the lines of [out] before the lowest
    matched line, under the table the span started from. *)
Lemma match_loop_one_negative n fuel N span rest out vs :
  CheckLine.variant N = CheckLine.Not -> independent_span span rest ->
  match_loop (S n) fuel ([N] ++ span ++ rest) out vs =
    (r <- matchEach fuel span out [] vs ;;
     lo <- pymin (fst r) ;;
     hi <- pymax (fst r) ;;
     f <- findFirstMatch fuel N (take (lo - 1) out) [] (Some vs) ;;
     match f with
     | Some _ => Raise (NotLineMatches (CheckLine.content N))
     | None => match_loop n fuel rest (drop hi out) (snd r)
     end).
Proof.
  intros HN Hs. rewrite match_loop_span by (try assumption; by constructor).
  destruct (matchEach fuel span out [] vs) as [[m t]|e|];
    cbn [bind fst snd]; try reflexivity.
  destruct (pymin m) as [lo|e|]; cbn [bind]; try reflexivity.
  destruct (pymax m) as [hi|e|]; cbn [bind]; try reflexivity.
  cbn [matchNotLines]. rewrite decide_True by exact HN.
  destruct (findFirstMatch fuel N (take (lo - 1) out) [] (Some vs))
    as [[?|]|?|]; reflexivity.
Qed.

Lemma splitByVariant_app_eq lines v a b :
  splitByVariant lines v = (a, b) -> lines = a ++ b.
Proof.
  revert a b. induction lines as [|l lines IH]; intros a b; simpl.
  - by intros [= <- <-].
  - case_decide.
    + destruct (splitByVariant lines v) as [a' b'].
      intros [= <- <-]. simpl. f_equal. by apply IH.
    + by intros [= <- <-].
Qed.

Lemma nextIndependentChecks_shape lines nots span rest :
  nextIndependentChecks lines = Ok (nots, span, rest) ->
  lines = nots ++ span ++ rest /\ (span = [] -> rest = []).
Proof.
  unfold nextIndependentChecks.
  destruct (splitByVariant lines CheckLine.Not) as [a b] eqn:Ea.
  apply splitByVariant_app_eq in Ea.
  destruct b as [|h t].
  - intros [= <- <- <-]. split; [exact Ea|done].
  - cbn [headAndTail bind]. case_decide.
    + intros [= <- <- <-]. split; [done|discriminate].
    + case_decide as Hd; [|discriminate].
      destruct (splitByVariant (h :: t) CheckLine.DAG) as [c d] eqn:Ec.
      intros [= <- <- <-].
      pose proof (splitByVariant_app_eq _ _ _ _ Ec) as Hcd.
      split; [by rewrite <- Hcd|].
      intros ->. simpl in Ec. rewrite decide_True in Ec by exact Hd.
      destruct (splitByVariant t CheckLine.DAG). discriminate.
Qed.

(** The bound on the iterations of the loop of [CheckGroup.match] is never
    reached: any bound from the number of lines on gives the same run. *)
Lemma match_loop_counter n m fuel lines out vs :
  length lines <= n -> length lines <= m ->
  match_loop n fuel lines out vs = match_loop m fuel lines out vs.
Proof.
  revert m lines out vs.
  induction n as [|n IH]; intros m lines out vs Hn Hm.
  - destruct lines; [|simpl in Hn; lia]. by destruct m.
  - destruct lines as [|x xs]; [by destruct m|].
    destruct m as [|m]; [simpl in Hm; lia|].
    cbn [match_loop].
    destruct (nextIndependentChecks (x :: xs)) as [[[nots span] rest]|e|]
      eqn:E; cbn [bind]; try reflexivity.
    apply nextIndependentChecks_shape in E as [Heq Hnil].
    destruct (matchIndependentChecks fuel span out vs)
      as [[o t|pre rem t]|e|]; cbn [bind]; try reflexivity.
    destruct (matchNotLines fuel nots pre (Some vs)) as [[]|e|];
      cbn [bind]; try reflexivity.
    assert (length rest < length (x :: xs)).
    { destruct span as [|s0 span].
      - rewrite (Hnil eq_refl). simpl. lia.
      - rewrite Heq, !length_app. simpl. lia. }
    simpl in *. apply IH; lia.
Qed.
End GroupLoop.

(** ** The sample lines are what [CheckLine] builds *)

Example word_line_init :
  CheckLine.init (txt "A") CheckLine.InOrder (-1)
  = Ok (Sample.word_line CheckLine.InOrder "A").
Proof. reflexivity. Qed.

(** ** In-order lines *)

Section InOrder.
Context {re : ReModule}.
Import CheckGroup.

(** C3.  An in-order line is a span of its own: [nextIndependentChecks]
    returns it alone after the negative lines before it; the loop of
    [CheckGroup.match] matches it to the first line [k] of the current
    window that it matches and goes on with the lines after [k] only, so
    every later span is matched strictly after it; and a group of two
    in-order lines [L1], [L2] fails with "Could not match line" when no
    output line after the first line matching [L1] matches [L2] (or
    when nothing matches [L1]). *)
Theorem C3_inorder_strict (fuel : nat) :
  (forall nots l tl,
      all_variant CheckLine.Not nots ->
      CheckLine.variant l = CheckLine.InOrder ->
      nextIndependentChecks (nots ++ l :: tl) = Ok (nots, [l], tl))
  /\ (forall n nots l tl out vs,
      all_variant CheckLine.Not nots ->
      CheckLine.variant l = CheckLine.InOrder ->
      match_loop (S n) fuel (nots ++ l :: tl) out vs =
        (r <- findFirstMatch fuel l out [] (Some vs) ;;
         match r with
         | None => Raise (CouldNotMatch (CheckLine.content l))
         | Some (k, vs') =>
           matchNotLines fuel nots (take (k - 1) out) (Some vs) ;;;
           match_loop n fuel tl (drop k out) vs'
         end))
  /\ (forall name L1 L2 outputGroup r1,
      CheckLine.variant L1 = CheckLine.InOrder ->
      CheckLine.variant L2 = CheckLine.InOrder ->
      findFirstMatch fuel L1 (OutputGroup.body outputGroup) [] (Some ∅)
        = Ok r1 ->
      (forall k vs1, r1 = Some (k, vs1) ->
         Forall (fun line => CheckLine.match_ fuel L2 line vs1 = Ok None)
                (drop k (OutputGroup.body outputGroup))) ->
      match_ fuel (mk name [L1; L2]) outputGroup
        = Raise (CouldNotMatch
                   (CheckLine.content
                      (match r1 with None => L1 | Some _ => L2 end)))).
Proof.
  split; [|split].
  - intros. by apply nextIndependentChecks_InOrder.
  - intros. by apply match_loop_InOrder.
  - intros name L1 L2 og r1 H1 H2 Hfirst Hnone.
    unfold match_. cbn [lines length].
    rewrite (match_loop_InOrder 1 fuel [] L1 [L2])
      by (try assumption; constructor).
    rewrite Hfirst. cbn [bind].
    destruct r1 as [[k vs1]|]; [|reflexivity].
    cbn [matchNotLines bind].
    rewrite (match_loop_InOrder 0 fuel [] L2 [])
      by (try assumption; constructor).
    unfold findFirstMatch.
    rewrite findFirstMatch_from_None; [reflexivity|].
    apply (Hnone k vs1 eq_refl).
Qed.
End InOrder.

(** The group [CHECK: A], [CHECK: B] against the output [B], [A], [C]: the
    only line matching [B] comes before the line matching [A], and the
    group fails. *)
Lemma C3_inorder_strict_witness :
  CheckGroup.match_ 5
    (Sample.group_G [Sample.word_line CheckLine.InOrder "A";
                     Sample.word_line CheckLine.InOrder "B"])
    (Sample.output_G ["B"; "A"; "C"])
  = Raise (CouldNotMatch (txt "B")).
Proof.
  apply (proj2 (proj2 (C3_inorder_strict (re := PyRe.re) 5))
           (txt "G") (Sample.word_line CheckLine.InOrder "A")
           (Sample.word_line CheckLine.InOrder "B")
           (Sample.output_G ["B"; "A"; "C"]) (Some (2, ∅))).
  - reflexivity.
  - reflexivity.
  - vm_compute. reflexivity.
  - intros k vs1 [= <- <-]. vm_compute. repeat constructor.
Defined.

(** ** Spans of DAG lines *)

Section DAG.
Context {re : ReModule}.
Import CheckGroup.

End DAG.


(** ** Looking up output groups *)

Section Lookup.
Context {re : ReModule}.

Lemma findGroup_in_Some groups name g :
  OutputFile.findGroup_in groups name = Some g <->
  exists before after,
    groups = before ++ g :: after
    /\ OutputGroup.name g = name
    /\ Forall (fun x => OutputGroup.name x <> name) before.
Proof.
  induction groups as [|x groups IH]; simpl.
  - split; [discriminate|]. intros ([|? ?] & ? & ? & _); discriminate.
  - case_decide as Hx.
    + split.
      * intros [= <-]. exists [], groups. done.
      * intros ([|y before] & after & Heq & Hn & Hall).
        -- simpl in Heq. congruence.
        -- simpl in Heq. injection Heq as <- _.
           apply Forall_inv in Hall. contradiction.
    + rewrite IH. split.
      * intros (before & after & -> & Hn & Hall).
        exists (x :: before), after. split; [reflexivity|].
        split; [exact Hn|]. constructor; assumption.
      * intros ([|y before] & after & Heq & Hn & Hall).
        -- simpl in Heq. injection Heq as -> _. contradiction.
        -- simpl in Heq. injection Heq as <- ->.
           exists before, after. split; [reflexivity|].
           split; [exact Hn|]. by apply Forall_inv_tail in Hall.
Qed.

Lemma findGroup_in_None groups name :
  OutputFile.findGroup_in groups name = None <->
  Forall (fun x => OutputGroup.name x <> name) groups.
Proof.
  induction groups as [|x groups IH]; simpl.
  - split; [constructor|reflexivity].
  - case_decide as Hx.
    + split; [discriminate|]. intros H. apply Forall_inv in H.
      contradiction.
    + rewrite IH. split.
      * intros H. constructor; assumption.
      * intros H. by apply Forall_inv_tail in H.
Qed.

(** C8.  [findGroup] returns the first group, in the order of the
    output file, whose name is equal to the name asked for, and [None]
    exactly when no group has that name; and [CheckFile.match], on
    reaching a check group whose name no output group bears (the check
    groups before it having matched), raises "Group ... not found in the
    output" with that name. *)
Theorem C8_group_lookup :
  (forall outputFile name g,
      OutputFile.findGroup outputFile name = Some g <->
      exists before after,
        OutputFile.groups outputFile = before ++ g :: after
        /\ OutputGroup.name g = name
        /\ Forall (fun x => OutputGroup.name x <> name) before)
  /\ (forall outputFile name,
      OutputFile.findGroup outputFile name = None <->
      Forall (fun x => OutputGroup.name x <> name)
             (OutputFile.groups outputFile))
  /\ (forall fuel prefix before checkGroup after outputFile,
      Forall (fun cg => exists og,
                OutputFile.findGroup outputFile (CheckGroup.name cg)
                  = Some og
                /\ CheckGroup.match_ fuel cg og = Ok tt) before ->
      Forall (fun x => OutputGroup.name x <> CheckGroup.name checkGroup)
             (OutputFile.groups outputFile) ->
      CheckFile.match_ fuel
        (CheckFile.mk prefix (before ++ checkGroup :: after)) outputFile
        = Raise (GroupNotFound (CheckGroup.name checkGroup))).
Proof.
  split; [|split].
  - intros. apply findGroup_in_Some.
  - intros. apply findGroup_in_None.
  - intros fuel prefix before cg after outputFile Hbefore Hnone.
    unfold CheckFile.match_. cbn [CheckFile.groups].
    induction Hbefore as [|b before (og & Hog & Hm) _ IH];
      cbn [app CheckFile.match_groups].
    + apply findGroup_in_None in Hnone. unfold OutputFile.findGroup.
      by rewrite Hnone.
    + rewrite Hog, Hm. exact IH.
Qed.
End Lookup.

(** The output has groups named "foo (after)" and "fo"; the check group
    "foo" is not matched against either of them. *)
Lemma C8_group_lookup_witness :
  CheckFile.match_ 5
    (CheckFile.mk (txt "CHECK")
       [CheckGroup.mk (txt "fo") [Sample.word_line CheckLine.InOrder "A"];
        CheckGroup.mk (txt "foo") [Sample.word_line CheckLine.InOrder "A"]])
    (OutputFile.mk [OutputGroup.mk (txt "foo (after)") [txt "A"];
                    OutputGroup.mk (txt "fo") [txt "A"]])
  = Raise (GroupNotFound (txt "foo")).
Proof.
  apply (proj2 (proj2 (C8_group_lookup (re := PyRe.re))) 5 (txt "CHECK")
           [CheckGroup.mk (txt "fo") [Sample.word_line CheckLine.InOrder "A"]]
           (CheckGroup.mk (txt "foo")
              [Sample.word_line CheckLine.InOrder "A"]) []).
  - constructor; [|constructor].
    exists (OutputGroup.mk (txt "fo") [txt "A"]).
    split; vm_compute; reflexivity.
  - repeat constructor; vm_compute; discriminate.
Defined.

(** ** Check lines outside a group *)

Section OutsideGroup.
Context {re : ReModule}.

Lemma parseStream_loop_passed_over prefix before stream n :
  Forall (passed_over prefix) before ->
  CheckFile.parseStream_loop prefix (before ++ stream) n []
  = CheckFile.parseStream_loop prefix stream (length before + n) [].
Proof.
  intros H. revert n. induction H as [|l before Hl _ IH]; intros n.
  - reflexivity.
  - cbn [app CheckFile.parseStream_loop length].
    replace (S (length before) + n) with (length before + S n) by lia.
    destruct Hl as [Hl|Hl].
    + rewrite Hl. apply IH.
    + destruct (strip l); [apply IH|]. rewrite Hl. cbn [bind]. apply IH.
Qed.

(** C9.  When the first line of the check file that is neither blank
    nor ignored is a check line ([_processLine] returns it with no new
    group name), no group has been opened: [currentGroup] is [None],
    the append to [currentGroup[1]] raises the type error of
    subscripting [None], and the parse is aborted with it. *)
Theorem C9_line_outside_group prefix before line rest processedLine :
  Forall (passed_over prefix) before ->
  strip line <> [] ->
  (forall n, CheckFile.processLine prefix (strip line) n
             = Ok (Some processedLine, None)) ->
  CheckFile.init prefix (before ++ line :: rest)
  = Raise NoneNotSubscriptable.
Proof.
  intros Hbefore Hne Hline.
  unfold CheckFile.init, CheckFile.parseStream.
  rewrite parseStream_loop_passed_over by exact Hbefore.
  cbn [CheckFile.parseStream_loop].
  destruct (strip line) as [|c s] eqn:E; [congruence|].
  rewrite Hline. reflexivity.
Qed.
End OutsideGroup.

(** A file with a blank line, a line of code, and then [// CHECK: foo]
    before any [CHECK-START]. *)
Lemma C9_line_outside_group_witness :
  CheckFile.init (txt "CHECK")
    ([txt "  "; txt "int x;"] ++ txt "  // CHECK: foo"
       :: [txt "// CHECK-START: G"])
  = Raise NoneNotSubscriptable.
Proof.
  apply (C9_line_outside_group (re := PyRe.re) (txt "CHECK")
           [txt "  "; txt "int x;"] (txt "  // CHECK: foo")
           [txt "// CHECK-START: G"] (txt "foo", CheckLine.InOrder)).
  - constructor; [left; reflexivity|].
    constructor; [right; intros n; reflexivity|constructor].
  - vm_compute. discriminate.
  - intros n. reflexivity.
Defined.

(** ** Variables in [CheckLine.match] *)

Section Variables.
Context {re : ReModule}.

Lemma match_parts_extends lineNo parts out start vs vs' :
  CheckLine.match_parts lineNo parts out start vs = Ok (Some vs') ->
  vs ⊆ vs'
  /\ (forall name, is_Some (vs' !! name) ->
                   is_Some (vs !! name) \/ defines parts name).
Proof.
  revert start vs. induction parts as [|part parts IH]; intros start vs.
  - simpl. intros [= <-]. split; [done|]. intros name H. by left.
  - cbn [CheckLine.match_parts].
    destruct (CheckLine.generatePattern lineNo part vs) as [p|e|];
      cbn [bind]; try discriminate.
    destruct (re_match p (drop start out)) as [[e|]|e|];
      cbn [bind]; try discriminate.
    assert (Hother :
      CheckLine.match_parts lineNo parts out (start + e) vs
        = Ok (Some vs') ->
      vs ⊆ vs' /\ (forall name, is_Some (vs' !! name) ->
         is_Some (vs !! name) \/ defines (part :: parts) name)).
    { intros H. apply IH in H as [Hsub Hdef]. split; [exact Hsub|].
      intros name Hn. destruct (Hdef name Hn) as [?|(q & Hq)];
        [by left|right]. exists q. by right. }
    destruct part as [q|q|x|x q]; try exact Hother.
    case_decide as Hbound; [discriminate|].
    intros H. apply IH in H as [Hsub Hdef].
    apply eq_None_not_Some in Hbound. split.
    + etransitivity; [|exact Hsub]. by apply insert_subseteq.
    + intros name Hn. destruct (Hdef name Hn) as [Hin|(q' & Hq)].
      * destruct (decide (name = x)) as [->|Hne].
        -- right. exists q. by left.
        -- left. by rewrite lookup_insert_ne in Hin.
      * right. exists q'. by right.
Qed.

(** A successful [match] returns what the loop over the parts returns for
    some start position. *)
Lemma match_loop_Some fuel self p out vs from vs' :
  CheckLine.match_loop fuel self p out vs from = Ok (Some vs') ->
  exists start,
    CheckLine.match_parts (CheckLine.lineNo self)
      (CheckLine.lineParts self) out start vs = Ok (Some vs').
Proof.
  revert from. induction fuel as [|fuel IH]; intros from; [discriminate|].
  cbn [CheckLine.match_loop].
  destruct (re_search p (drop from out)) as [[[s e]|]|e|];
    cbn [bind]; try discriminate.
  destruct (CheckLine.match_parts _ _ out (from + s) vs) as [[t|]|e'|]
    eqn:Hp; cbn [bind]; try discriminate.
  - intros [= <-]. eauto.
  - apply IH.
Qed.

Lemma match_extends fuel self out vs vs' :
  CheckLine.match_ fuel self out vs = Ok (Some vs') ->
  vs ⊆ vs'
  /\ (forall name, is_Some (vs' !! name) ->
        is_Some (vs !! name) \/ defines (CheckLine.lineParts self) name).
Proof.
  unfold CheckLine.match_.
  destruct (CheckLine.lineParts self) as [|p0 ps] eqn:E; [discriminate|].
  destruct (CheckLine.generatePattern _ p0 vs) as [p|e|];
    cbn [bind]; try discriminate.
  intros H. apply match_loop_Some in H as (start & H).
  rewrite E in H. by apply match_parts_extends in H.
Qed.

Lemma match_parts_redefinition lineNo name pattern parts out start vs e :
  is_Some (vs !! name) ->
  re_match pattern (drop start out) = Ok (Some e) ->
  CheckLine.match_parts lineNo (CheckElement.VarDef name pattern :: parts)
    out start vs = Raise (Redefinition name lineNo).
Proof.
  intros Hb Hm. cbn [CheckLine.match_parts CheckLine.generatePattern bind].
  rewrite Hm. cbn [bind]. by rewrite decide_True.
Qed.
End Variables.

Section StoreRefinement.
Context {re : ReModule}.
Import Store.

Lemma deref_insert (h : store) d v :
  d < length h -> deref (<[d := v]> h) d = v.
Proof. intros H. unfold deref. by rewrite list_lookup_insert_eq. Qed.

Lemma store_match_parts lineNo parts out start d h :
  d < length h ->
  exists v,
    match_parts lineNo parts out start d h
    = (<[d := v]> h,
       flag (CheckLine.match_parts lineNo parts out start (deref h d)))
    /\ (forall vs', CheckLine.match_parts lineNo parts out start
                      (deref h d) = Ok (Some vs') -> v = vs').
Proof.
  revert start h. induction parts as [|part parts IH]; intros start h Hd.
  - exists (deref h d). cbn [match_parts CheckLine.match_parts flag]. split.
    + f_equal. symmetry. apply list_insert_id. unfold deref.
      destruct (lookup_lt_is_Some_2 h d Hd) as [x Hx]. by rewrite Hx.
    + by intros vs' [= <-].
  - cbn [match_parts CheckLine.match_parts].
    assert (Hid : <[d := deref h d]> h = h).
    { apply list_insert_id. unfold deref.
      destruct (lookup_lt_is_Some_2 h d Hd) as [x Hx]. by rewrite Hx. }
    destruct (CheckLine.generatePattern lineNo part (deref h d))
      as [p|e|]; cbn [bind flag];
      [|exists (deref h d); rewrite Hid; split; [done|discriminate]..].
    destruct (re_match p (drop start out)) as [[e|]|e|]; cbn [bind flag];
      [|exists (deref h d); rewrite Hid; split; [done|discriminate]..].
    destruct part as [q|q|x|x q]; try (apply IH; exact Hd).
    case_decide as Hb.
    + exists (deref h d). rewrite Hid. split; [done|discriminate].
    + unfold setitem.
      destruct (IH (start + e)
                  (<[d := <[x := slice start (start + e) out]> (deref h d)]> h))
        as (v & Hv & Hret); [by rewrite length_insert|].
      rewrite deref_insert in Hv, Hret by exact Hd.
      exists v. rewrite Hv. rewrite list_insert_insert_eq. done.
Qed.

Local Ltac stops_with h :=
  eexists h, _; split; [reflexivity|split; [done|reflexivity]].

Lemma store_match_loop fuel self p out d from h0 h :
  d < length h0 -> h0 `prefix_of` h ->
  exists h' r,
    match_loop fuel self p out d from h = (h', r)
    /\ h0 `prefix_of` h'
    /\ refines h0 h'
         (CheckLine.match_loop fuel self p out (deref h0 d) from) r.
Proof.
  intros Hd. revert from h.
  induction fuel as [|fuel IH]; intros from h Hpre.
  - stops_with h.
  - cbn [match_loop CheckLine.match_loop].
    destruct (re_search p (drop from out)) as [[[s e]|]|e|];
      cbn [bind refines]; [|stops_with h..].
    unfold copy.
    assert (Hsame : deref h d = deref h0 d).
    { unfold deref. destruct (lookup_lt_is_Some_2 h0 d Hd) as [x Hx].
      by rewrite (prefix_lookup_Some _ _ _ _ Hx Hpre), Hx. }
    destruct (store_match_parts (CheckLine.lineNo self)
                (CheckLine.lineParts self) out (from + s) (length h)
                (h ++ [deref h d])) as (v & Hv & Hret).
    { rewrite length_app. simpl. lia. }
    rewrite Hv.
    assert (Hins : <[length h := v]> (h ++ [deref h d]) = h ++ [v]).
    { rewrite insert_app_r_alt by lia.
      by replace (length h - length h) with 0 by lia. }
    rewrite Hins in *.
    assert (Hderef : deref ((h ++ [deref h d])) (length h) = deref h0 d).
    { unfold deref at 1. rewrite lookup_app_r by lia.
      replace (length h - length h) with 0 by lia. simpl. exact Hsame. }
    rewrite Hderef in Hret. rewrite Hderef.
    destruct (CheckLine.match_parts _ _ out (from + s) (deref h0 d))
      as [[t|]|e'|]; cbn [flag bind refines].
    + exists (h ++ [v]), (Ok (Some (length h))). split; [done|].
      split; [by apply prefix_app_r|].
      exists (length h). split; [done|]. split.
      * by apply prefix_length.
      * unfold deref. rewrite lookup_app_r by lia.
        replace (length h - length h) with 0 by lia. simpl.
        by apply Hret.
    + apply IH. by apply prefix_app_r.
    + exists (h ++ [v]), (Raise e'). split; [done|].
      split; [by apply prefix_app_r|done].
    + exists (h ++ [v]), Timeout. split; [done|].
      split; [by apply prefix_app_r|done].
Qed.

Lemma store_match fuel self out d h :
  d < length h ->
  exists h' r,
    match_ fuel self out d h = (h', r)
    /\ h `prefix_of` h'
    /\ refines h h' (CheckLine.match_ fuel self out (deref h d)) r.
Proof.
  intros Hd. unfold match_, CheckLine.match_.
  destruct (CheckLine.lineParts self) as [|p0 ps]; [stops_with h|].
  destruct (CheckLine.generatePattern _ p0 (deref h d)) as [p|e|];
    cbn [bind]; [|stops_with h..].
  by apply store_match_loop.
Qed.
End StoreRefinement.

Example def_line_init :
  CheckLine.init (txt "[[X:[0-9]+]]") CheckLine.InOrder (-1)
  = Ok Sample.def_line.
Proof. reflexivity. Qed.

Example ref_line_init :
  CheckLine.init (txt "v[[X]]") CheckLine.InOrder (-1) = Ok Sample.ref_line.
Proof. reflexivity. Qed.

Example regex_line_init :
  CheckLine.init (txt "v{{[0-9]+}}") CheckLine.InOrder (-1)
  = Ok Sample.regex_line.
Proof. reflexivity. Qed.

(** After [X] is bound to "12", the reference does not match "v13",
    which the defining pattern would match, and matches "v12". *)
Example reference_is_verbatim :
  CheckGroup.match_ 5 (Sample.group_G [Sample.def_line; Sample.ref_line])
    (Sample.output_G ["12"; "v13"])
  = Raise (CouldNotMatch (txt "v[[X]]"))
  /\ CheckGroup.match_ 5 (Sample.group_G [Sample.def_line; Sample.regex_line])
       (Sample.output_G ["12"; "v13"])
     = Ok tt
  /\ CheckGroup.match_ 5 (Sample.group_G [Sample.def_line; Sample.ref_line])
       (Sample.output_G ["12"; "v13"; "v12"])
     = Ok tt.
Proof. repeat split; vm_compute; reflexivity. Qed.

(** A variable defined in one group is undefined in the next one. *)
Example variable_scope_is_the_group :
  CheckFile.match_ 5
    (CheckFile.mk (txt "CHECK")
       [CheckGroup.mk (txt "G") [Sample.def_line];
        CheckGroup.mk (txt "H") [Sample.ref_line]])
    (OutputFile.mk [OutputGroup.mk (txt "G") [txt "12"];
                    OutputGroup.mk (txt "H") [txt "v12"]])
  = Raise (UndefinedVariable (txt "X") (-1)).
Proof. vm_compute. reflexivity. Qed.

Section VariableClaims.
Context {re : ReModule}.

(** C10.  A successful [CheckLine.match] returns a table that contains
    the input table - every name bound before is bound to the same
    value after - and whose other names are defined by elements of the
    line; a definition of a name that is already bound raises
    "Redefinition of variable" once its pattern has matched; and on a
    store of dict objects the call leaves every object that existed,
    the input table among them, as it was, the returned table being a
    new object. *)
Theorem C10_match_only_adds (fuel : nat) :
  (forall self out vs vs',
      CheckLine.match_ fuel self out vs = Ok (Some vs') ->
      vs ⊆ vs'
      /\ (forall name value, vs !! name = Some value ->
                             vs' !! name = Some value)
      /\ (forall name, is_Some (vs' !! name) ->
            is_Some (vs !! name)
            \/ defines (CheckLine.lineParts self) name))
  /\ (forall lineNo name pattern parts out start (vs : table) e,
      is_Some (vs !! name) ->
      re_match pattern (drop start out) = Ok (Some e) ->
      CheckLine.match_parts lineNo
        (CheckElement.VarDef name pattern :: parts) out start vs
      = Raise (Redefinition name lineNo))
  /\ (forall self out d (h : Store.store),
      d < length h ->
      exists h' r,
        Store.match_ fuel self out d h = (h', r)
        /\ h `prefix_of` h'
        /\ Store.deref h' d = Store.deref h d
        /\ refines h h'
             (CheckLine.match_ fuel self out (Store.deref h d)) r).
Proof.
  split; [|split].
  - intros self out vs vs' H. apply match_extends in H as [Hsub Hdef].
    split; [exact Hsub|]. split; [|exact Hdef].
    intros name value Hn. by eapply lookup_weaken.
  - intros. by eapply match_parts_redefinition.
  - intros self out d h Hd.
    destruct (store_match fuel self out d h Hd) as (h' & r & Hr & Hp & Href).
    exists h', r. split; [exact Hr|]. split; [exact Hp|].
    split; [|exact Href]. unfold Store.deref.
    destruct (lookup_lt_is_Some_2 h d Hd) as [x Hx].
    by rewrite (prefix_lookup_Some _ _ _ _ Hx Hp), Hx.
Qed.
End VariableClaims.

Example not_ref_line_init :
  CheckLine.init (txt "v[[X]]") CheckLine.Not (-1)
  = Ok Sample.not_ref_line.
Proof. reflexivity. Qed.

(** C4 (failing input).  [CHECK: [[X:[0-9]+]]], [CHECK-NOT: Z],
    [CHECK-NOT: v[[X]]], [CHECK: end] against the output [12], [v13],
    [end].  The first line binds [X] to "12" and [end] matches the third
    output line, so the window of the negative lines is the one line
    [v13].  With [X] bound to "12" neither negative line matches it: the
    reference stands for the text "12", not for what its defining
    pattern matches, and so the group should succeed.  It fails: after
    [Z] found no match the variable state handed to [v[[X]]] is [None],
    not the table that binds [X]; the text [v] is found in [v13] and
    copying the state raises a type error.  Without [CHECK-NOT: Z] the
    table reaches the negative line: the group succeeds on this output,
    and fails as it should when the second output line is [v12]. *)
Theorem C4_variable_binding_failing_input :
  CheckLine.match_ 5 Sample.def_line (txt "12") ∅
    = Ok (Some {[txt "X" := txt "12"]})
  /\ CheckLine.match_ 5 (Sample.word_line CheckLine.Not "Z") (txt "v13")
       {[txt "X" := txt "12"]}
     = Ok None
  /\ CheckLine.match_ 5 Sample.not_ref_line (txt "v13")
       {[txt "X" := txt "12"]}
     = Ok None
  /\ CheckLine.match_ 5 (Sample.word_line CheckLine.InOrder "end")
       (txt "end") {[txt "X" := txt "12"]}
     = Ok (Some {[txt "X" := txt "12"]})
  /\ CheckGroup.match_ 5 Sample.scoped (Sample.output_G ["12"; "v13"; "end"])
     = Raise NoneNotIterable
  /\ CheckGroup.match_ 5 Sample.scoped_one
       (Sample.output_G ["12"; "v13"; "end"])
     = Ok tt
  /\ CheckGroup.match_ 5 Sample.scoped_one
       (Sample.output_G ["12"; "v12"; "end"])
     = Raise (NotLineMatches (txt "v[[X]]")).
Proof. repeat split; vm_compute; reflexivity. Qed.

(** The store holds one table binding [Y]; matching [[[X:[0-9]+]]]
    against "12" leaves it alone and returns a second object. *)
Lemma C10_match_only_adds_witness :
  exists h' r,
    Store.match_ 5 Sample.def_line (txt "12") 0 [{[txt "Y" := txt "7"]}]
      = (h', r)
    /\ [{[txt "Y" := txt "7"]}] `prefix_of` h'
    /\ Store.deref h' 0 = Store.deref [{[txt "Y" := txt "7"]}] 0
    /\ refines [{[txt "Y" := txt "7"]}] h'
         (CheckLine.match_ 5 Sample.def_line (txt "12")
            (Store.deref [{[txt "Y" := txt "7"]}] 0)) r.
Proof.
  apply (proj2 (proj2 (C10_match_only_adds (re := PyRe.re) 5))).
  simpl. lia.
Defined.

(** ** Plain text *)

Section Strings.
Lemma span_len_le f s : span_len f s <= length s.
Proof. induction s as [|c s IH]; simpl; [lia|]. destruct (f c); lia. Qed.

Lemma span_len_app f s r :
  span_len f s < length s -> span_len f (s ++ r) = span_len f s.
Proof.
  induction s as [|c s IH]; simpl; [lia|].
  destruct (f c); [|reflexivity]. intros H. f_equal. apply IH. lia.
Qed.

Lemma span_len_snoc f s c :
  f c = false -> span_len f (s ++ [c]) < length (s ++ [c]).
Proof.
  intros Hc. induction s as [|d s IH]; simpl.
  - rewrite Hc. lia.
  - destruct (f d); lia.
Qed.

Lemma span_len_all f s : Forall (fun c => f c = true) s ->
  span_len f s = length s.
Proof. induction 1 as [|c s Hc _ IH]; simpl; [done|]. by rewrite Hc, IH. Qed.

Lemma span_len_all_app f a s :
  Forall (fun c => f c = true) a ->
  span_len f (a ++ s) = length a + span_len f s.
Proof. induction 1 as [|c a Hc _ IH]; simpl; [done|]. by rewrite Hc, IH. Qed.

Lemma occurs_in_drop m s k : occurs_in m (drop k s) -> occurs_in m s.
Proof. intros [i Hi]. exists (k + i). by rewrite <- drop_drop. Qed.

Lemma occurs_in_app m a s b : occurs_in m s -> occurs_in m (a ++ s ++ b).
Proof.
  intros [i Hi]. exists (length a + i).
  rewrite <- drop_drop, drop_app_length.
  destruct (decide (i <= length s)).
  - rewrite drop_app_le by lia. by apply prefix_app_r.
  - rewrite drop_ge in Hi by lia. apply prefix_nil_inv in Hi as ->.
    apply prefix_nil.
Qed.

Lemma lstrip_spec s :
  exists a, s = a ++ lstrip s
    /\ Forall (fun c => isspace c = true) a
    /\ span_len isspace (lstrip s) = 0.
Proof.
  induction s as [|c s (a & Hs & Ha & Hn)]; simpl.
  - by exists [].
  - destruct (isspace c) eqn:Hc.
    + exists (c :: a). split; [simpl; congruence|]. split; [|exact Hn].
      by constructor.
    + exists []. split; [done|]. split; [constructor|].
      simpl. by rewrite Hc.
Qed.

(** [s.strip()] is [s] without a run of whitespace on either side; it
    is empty or begins and ends with a character that is not
    whitespace. *)
Lemma strip_spec s :
  exists a b, s = a ++ strip s ++ b
    /\ Forall (fun c => isspace c = true) a
    /\ Forall (fun c => isspace c = true) b
    /\ span_len isspace (strip s) = 0
    /\ (strip s = []
        \/ exists s' c, strip s = s' ++ [c] /\ isspace c = false).
Proof.
  destruct (lstrip_spec s) as (a & Hs & Ha & Hn).
  destruct (lstrip_spec (rev (lstrip s))) as (b & Hr & Hb & Hl).
  exists a, (rev b). unfold strip, rstrip.
  assert (Hu : lstrip s = rev (lstrip (rev (lstrip s))) ++ rev b).
  { rewrite <- rev_app_distr, <- Hr. by rewrite rev_involutive. }
  split; [by rewrite <- Hu|]. split; [exact Ha|].
  split; [by apply Forall_rev|]. split.
  - destruct (rev (lstrip (rev (lstrip s)))) as [|c u] eqn:E; [done|].
    rewrite Hu in Hn. simpl in *. by destruct (isspace c).
  - destruct (lstrip (rev (lstrip s))) as [|c u]; [by left|right].
    simpl in *. exists (rev u), c. split; [done|].
    by destruct (isspace c).
Qed.
End Strings.

Section PlainText.
Context {re : ReModule} {laws : ReLaws re}.

Lemma parsePattern_space :
  CheckElement.parsePattern (txt "{{\s+}}") = CheckElement.Pattern (txt "\s+").
Proof. reflexivity. Qed.

Lemma ends_in_text_drop line k :
  ends_in_text line -> k <= length line -> ends_in_text (drop k line).
Proof.
  intros [->|(s & c & -> & Hc)] Hk; [left; apply drop_nil|].
  rewrite length_app in Hk. simpl in Hk.
  destruct (decide (k <= length s)).
  - right. exists (drop k s), c. by rewrite drop_app_le.
  - left. apply drop_ge. rewrite length_app. simpl. lia.
Qed.

Lemma ends_in_text_span line :
  ends_in_text line -> line <> [] ->
  span_len isspace line < length line.
Proof.
  intros [->|(s & c & -> & Hc)] Hne; [done|]. by apply span_len_snoc.
Qed.

(** Parsing text without [{{] and [[[], and matching what was parsed
    where that text stands in an output line. *)
Lemma parse_match_plain n variant lineNo line acc :
  length line <= n ->
  ~ occurs_in (txt "{{") line -> ~ occurs_in (txt "[[") line ->
  ends_in_text line ->
  exists parts,
    CheckLine.parse_loop n variant lineNo line acc = Ok (acc ++ parts)
    /\ (line <> [] -> parts <> [])
    /\ (forall lineNo' out start (vs : table) rest,
          drop start out = line ++ rest ->
          CheckLine.match_parts lineNo' parts out start vs = Ok (Some vs))
    /\ (span_len isspace line = 0 -> line <> [] ->
        exists parts',
          parts = CheckElement.Text
                    (re_escape (take (span_len nonspace line) line))
                  :: parts'
          /\ 0 < span_len nonspace line).
Proof.
  revert line acc. induction n as [|n IH]; intros line acc Hlen Hp Hv Hend.
  { destruct line; [|simpl in Hlen; lia]. exists []. rewrite app_nil_r.
    repeat split; done. }
  destruct line as [|c l].
  { exists []. rewrite app_nil_r. repeat split; done. }
  set (line := c :: l) in *.
  assert (Hstep : forall k part,
    0 < k -> k <= length line ->
    CheckLine.parse_loop (S n) variant lineNo line acc
      = CheckLine.parse_loop n variant lineNo (drop k line) (acc ++ [part]) ->
    (forall lineNo' out start (vs : table) rest parts',
        drop start out = line ++ rest ->
        CheckLine.match_parts lineNo' (part :: parts') out start vs
        = CheckLine.match_parts lineNo' parts' out (start + k) vs) ->
    exists parts,
      CheckLine.parse_loop (S n) variant lineNo line acc = Ok (acc ++ parts)
      /\ (line <> [] -> parts <> [])
      /\ (forall lineNo' out start (vs : table) rest,
            drop start out = line ++ rest ->
            CheckLine.match_parts lineNo' parts out start vs
            = Ok (Some vs))
      /\ exists parts', parts = part :: parts').
  { intros k part Hk Hkl Hparse Hmatch.
    destruct (IH (drop k line) (acc ++ [part])) as (parts & Hps & _ & Hm & _).
    - rewrite length_drop. subst line. simpl in *. lia.
    - intros H. apply Hp. by apply occurs_in_drop in H.
    - intros H. apply Hv. by apply occurs_in_drop in H.
    - by apply ends_in_text_drop.
    - exists (part :: parts). rewrite Hparse, Hps, <- app_assoc.
      split; [done|]. split; [done|]. split; [|by eexists].
      intros lineNo' out start vs rest Hout.
      rewrite (Hmatch lineNo' out start vs rest parts Hout).
      apply (Hm lineNo' out (start + k) vs rest).
      by rewrite <- drop_drop, Hout, drop_app_le. }
  assert (Hparse0 :
    CheckLine.parse_loop (S n) variant lineNo line acc
    = (let matchWhitespace :=
         let i := span_len nonspace line in
         if i <? length line
         then Some (i, i + span_len isspace (drop i line)) else None in
       if CheckLine.isMatchAtStart matchWhitespace then
         CheckLine.parse_loop n variant lineNo
           (drop (CheckLine.match_end matchWhitespace) line)
           (acc ++ [CheckElement.parsePattern (txt "{{\s+}}")])
       else
         firstMatch <- CheckLine.firstMatch
           [matchWhitespace; None; None] line ;;
         CheckLine.parse_loop n variant lineNo (drop firstMatch line)
           (acc ++ [CheckElement.parseText (take firstMatch line)]))).
  { subst line. cbn [CheckLine.parse_loop].
    rewrite space_search, (pattern_search _ Hp), (variable_search _ Hv).
    cbn [bind]. reflexivity. }
  destruct (isspace c) eqn:Hc.
  - (* a run of whitespace *)
    assert (Hns : span_len nonspace line = 0).
    { subst line. unfold nonspace. simpl. by rewrite Hc. }
    assert (Hr : 0 < span_len isspace line).
    { subst line. simpl. rewrite Hc. lia. }
    pose proof (ends_in_text_span line Hend ltac:(done)) as Hlt.
    destruct (Hstep (span_len isspace line) (CheckElement.Pattern (txt "\s+")))
      as (parts & H1 & H2 & H3 & _); [lia|lia| | |].
    + rewrite Hparse0, Hns. cbn zeta.
      replace (0 <? length line) with true by (by subst line).
      by rewrite parsePattern_space.
    + intros lineNo' out start vs rest ps Hout.
      cbn [CheckLine.match_parts CheckLine.generatePattern bind].
      rewrite Hout, space_match, span_len_app by exact Hlt.
      destruct (span_len isspace line =? 0) eqn:E;
        [apply Nat.eqb_eq in E; lia|]. reflexivity.
    + exists parts. split; [exact H1|]. split; [exact H2|].
      split; [exact H3|]. intros Hz. lia.
  - (* a word *)
    set (i := span_len nonspace line).
    assert (Hi : 0 < i).
    { subst i line. unfold nonspace. simpl. rewrite Hc. simpl. lia. }
    pose proof (span_len_le nonspace line) as Hile. fold i in Hile.
    destruct (Hstep i (CheckElement.parseText (take i line)))
      as (parts & H1 & H2 & H3 & parts' & H4); [lia|lia| | |].
    + rewrite Hparse0. fold i. cbn zeta.
      destruct (i <? length line) eqn:E.
      * apply Nat.ltb_lt in E.
        replace (CheckLine.isMatchAtStart _) with false
          by (destruct i; [lia|reflexivity]).
        unfold CheckLine.firstMatch. cbn [map pymin foldl bind].
        by replace (Nat.min (Nat.min i (length line)) (length line))
          with i by lia.
      * apply Nat.ltb_ge in E. cbn [CheckLine.isMatchAtStart].
        unfold CheckLine.firstMatch. cbn [map pymin foldl bind].
        by replace (Nat.min (Nat.min (length line) (length line))
                      (length line)) with i by lia.
    + intros lineNo' out start vs rest ps Hout.
      unfold CheckElement.parseText.
      cbn [CheckLine.match_parts CheckLine.generatePattern bind].
      rewrite Hout, escape_match.
      rewrite decide_True by (apply prefix_app_r, prefix_take).
      cbn [bind]. rewrite length_take.
    by replace (i `min` length line) with i by lia.
    + exists parts. split; [exact H1|]. split; [exact H2|].
      split; [exact H3|]. intros _ _. exists parts'. by split.
Qed.

(** C7 (amended).  For a text [t] without markers that has a character
    other than whitespace, [CheckLine(t)] is built, and matching it
    against the line [t] succeeds at the first attempt and returns the
    table it was given. *)
Theorem C7_plain_text_matches (t : str) (variant : CheckLine.Variant)
    (lineNo : Z) (vs : table) (fuel : nat) :
  no_markers t -> strip t <> [] ->
  exists line,
    CheckLine.init t variant lineNo = Ok line
    /\ CheckLine.match_ (S fuel) line t vs = Ok (Some vs).
Proof.
  intros Hno Hne.
  destruct (strip_spec t) as (a & b & Ht & Ha & Hb & Hhead & Hlast).
  set (body := strip t) in *.
  assert (Hmark : forall m, m ∈ [txt "{{"; txt "}}"; txt "[["; txt "]]"] ->
                            ~ occurs_in m body).
  { intros m Hm H. apply (Hno m Hm). rewrite Ht. by apply occurs_in_app. }
  destruct (parse_match_plain (length body) variant lineNo body [])
    as (parts & Hparse & Hparts & Hmatch & Hfirst).
  - done.
  - apply Hmark. by left.
  - apply Hmark. do 2 right. by left.
  - destruct Hlast as [?|?]; [by left|by right].
  - destruct (Hfirst Hhead Hne) as (parts' & -> & Hw).
    exists (CheckLine.mk body variant lineNo
              (CheckElement.Text
                 (re_escape (take (span_len nonspace body) body)) :: parts')).
    split.
    + unfold CheckLine.init, CheckLine.parse. fold body.
      rewrite Hparse. reflexivity.
    + unfold CheckLine.match_.
      cbn [CheckLine.lineParts CheckLine.generatePattern bind
           CheckLine.match_loop CheckLine.lineNo drop].
      set (w := take (span_len nonspace body) body) in *.
      rewrite (escape_search w t (length a)).
      * cbn [bind]. rewrite (Hmatch lineNo t (0 + length a) vs b).
        -- reflexivity.
        -- simpl. rewrite Ht at 1. by rewrite drop_app_length.
      * rewrite Ht at 1. rewrite drop_app_length.
        apply prefix_app_r, prefix_take.
      * intros j Hj Hpre. rewrite Ht in Hpre at 1.
        rewrite drop_app_le in Hpre by lia.
        destruct (drop j a) as [|x a'] eqn:Ea.
        { apply (f_equal length) in Ea. rewrite length_drop in Ea.
          simpl in Ea. lia. }
        assert (Hx : isspace x = true).
        { pose proof (Forall_drop _ j a Ha) as Hd. rewrite Ea in Hd.
          by apply Forall_inv in Hd. }
        destruct body as [|y body'] eqn:Eb; [done|].
        subst w. simpl in Hw, Hhead, Hpre.
        unfold nonspace in Hw, Hpre.
        destruct (isspace y) eqn:Hy; [discriminate|].
        simpl in Hpre. apply prefix_cons_inv_1 in Hpre. congruence.
Qed.
End PlainText.

(** ** [PyRe] satisfies the laws *)

Module PyReLaws.
Import PyRe PyReSpec.

Lemma ends_lits t s :
  ends (lits t) s = if decide (t `prefix_of` s) then [length t] else [].
Proof.
  revert s. induction t as [|c t IH]; intros s.
  - cbn [lits ends length]. by rewrite decide_True by apply prefix_nil.
  - cbn [lits ends length]. destruct s as [|d s].
    + cbn [flat_map]. by rewrite decide_False by apply prefix_nil_not.
    + destruct (Ascii.eqb_spec c d) as [->|Hne].
      * cbn [flat_map drop]. change (drop 0 s) with s.
        rewrite IH, app_nil_r.
        destruct (decide (t `prefix_of` s)) as [Hp|Hp].
        -- by rewrite decide_True by (by apply prefix_cons).
        -- rewrite decide_False; [done|].
           intros H. by apply prefix_cons_inv_2 in H.
      * cbn [flat_map]. rewrite decide_False; [done|].
        intros H. by apply prefix_cons_inv_1 in H.
Qed.

Lemma special_escape c :
  is_special c = true -> p_escape c = Some (RSet (Ascii.eqb c)).
Proof.
  assert (Hall : Forall (fun x => p_escape x = Some (RSet (Ascii.eqb x)))
                   special_chars) by (repeat constructor).
  intros H. apply existsb_exists in H as (x & Hin & Hx).
  apply Ascii.eqb_eq in Hx as ->.
  apply (proj1 (Forall_forall _ _) Hall). by apply list_elem_of_In.
Qed.

Lemma not_special_neq c x :
  is_special c = false -> is_special x = true -> Ascii.eqb c x = false.
Proof.
  intros Hc Hx. destruct (Ascii.eqb_spec c x) as [->|_]; [congruence|done].
Qed.

Lemma not_special_meta c : is_special c = false -> is_meta c = false.
Proof.
  intros H. unfold is_meta. cbn [txt list_ascii_of_string existsb].
  rewrite !(not_special_neq c _ H) by reflexivity. reflexivity.
Qed.

Lemma p_quant_escape a t : p_quant a (escape t) = (a, escape t).
Proof.
  destruct t as [|c t]; [reflexivity|].
  cbn [escape flat_map]. destruct (is_special c) eqn:Hc.
  - reflexivity.
  - cbn [app p_quant].
    by rewrite !(not_special_neq c _ Hc) by reflexivity.
Qed.

Lemma p_atom_special n c rest :
  0 < n -> is_special c = true ->
  p_atom n ("\"%char :: c :: rest) = Some (RSet (Ascii.eqb c), rest).
Proof.
  intros Hn Hc. destruct n; [lia|].
  cbn [p_atom Ascii.eqb Bool.eqb]. by rewrite (special_escape c Hc).
Qed.

Lemma p_atom_plain n c rest :
  0 < n -> is_special c = false ->
  p_atom n (c :: rest) = Some (RSet (Ascii.eqb c), rest).
Proof.
  intros Hn Hc. destruct n; [lia|]. cbn [p_atom].
  rewrite !(not_special_neq c _ Hc) by reflexivity.
  by rewrite (not_special_meta c Hc).
Qed.

Lemma p_seq_escape t n :
  length t < n -> p_seq n (escape t) = Some (lits t, []).
Proof.
  revert n. induction t as [|c t IH]; intros n Hn.
  - destruct n; [lia|reflexivity].
  - destruct n as [|n]; [lia|]. simpl in Hn.
    specialize (IH n ltac:(lia)).
    change (escape (c :: t))
      with ((if is_special c then ["\"%char; c] else [c]) ++ escape t).
    destruct (is_special c) eqn:Hc.
    + cbn [app p_seq Ascii.eqb Bool.eqb orb].
      rewrite p_atom_special, p_quant_escape, IH by (done || lia).
      reflexivity.
    + cbn [app p_seq].
      rewrite !(not_special_neq c _ Hc) by reflexivity. cbn [orb].
      rewrite p_atom_plain, p_quant_escape, IH by (done || lia).
      reflexivity.
Qed.

Lemma length_escape t : length t <= length (escape t).
Proof.
  induction t as [|c t IH]; [done|].
  change (escape (c :: t))
    with ((if is_special c then ["\"%char; c] else [c]) ++ escape t).
  rewrite length_app. destruct (is_special c); simpl; lia.
Qed.

Lemma compile_escape t : compile (escape t) = Some (lits t).
Proof.
  unfold compile. pose proof (length_escape t).
  replace (3 * length (escape t) + 3)
    with (S (3 * length (escape t) + 2)) by lia.
  cbn [p_alt]. by rewrite p_seq_escape by lia.
Qed.

Lemma search_from_first r s base i e :
  match_at r (drop i s) = Some e ->
  (forall j, j < i -> match_at r (drop j s) = None) ->
  search_from r s base = Some (base + i, base + i + e).
Proof.
  revert s base. induction i as [|i IH]; intros s base Hi Hbefore.
  - rewrite drop_0 in Hi.
    destruct s; cbn [search_from]; rewrite Hi; by rewrite Nat.add_0_r.
  - pose proof (Hbefore 0 ltac:(lia)) as H0. rewrite drop_0 in H0.
    destruct s as [|c s]; [rewrite drop_nil in Hi; congruence|].
    change (drop (S i) (c :: s)) with (drop i s) in Hi.
    cbn [search_from]. rewrite H0.
    rewrite (IH s (S base)); [f_equal; f_equal; lia|exact Hi|].
    intros j Hj. apply (Hbefore (S j)). lia.
Qed.

Lemma search_from_none r s base :
  (forall j, match_at r (drop j s) = None) -> search_from r s base = None.
Proof.
  revert base. induction s as [|c s IH]; intros base H;
    pose proof (H 0) as H0; rewrite drop_0 in H0;
    cbn [search_from]; rewrite H0; [done|].
  apply IH. intros j. exact (H (S j)).
Qed.

Lemma star_ends_set f k s :
  span_len f s <= k ->
  star_ends (ends (RSet f)) true k s = countdown (span_len f s).
Proof.
  revert s. induction k as [|k IH]; intros s Hk.
  - replace (span_len f s) with 0 by lia. reflexivity.
  - cbn [star_ends]. destruct s as [|c s]; [reflexivity|].
    change (ends (RSet f) (c :: s)) with (if f c then [1] else []).
    cbn [span_len] in Hk |- *. destruct (f c); [|reflexivity].
    cbn [flat_map Nat.eqb]. change (drop 1 (c :: s)) with s.
    rewrite app_nil_r, IH by lia.
    clear. induction (span_len f s) as [|m IHm]; [reflexivity|].
    cbn [countdown map app] in *. f_equal. exact IHm.
Qed.

Lemma ends_seq a b s :
  ends (RSeq a b) s
  = flat_map (fun n => map (Nat.add n) (ends b (drop n s))) (ends a s).
Proof. reflexivity. Qed.

Lemma ends_star g a s :
  ends (RStar g a) s = star_ends (ends a) g (length s) s.
Proof. reflexivity. Qed.

Lemma match_at_space s :
  match_at space_re s
  = if span_len isspace s =? 0 then None else Some (span_len isspace s).
Proof.
  unfold match_at, space_re, RPlus. rewrite !ends_seq.
  destruct s as [|c s]; [reflexivity|].
  change (ends (RSet isspace) (c :: s))
    with (if isspace c then [1] else []).
  cbn [span_len]. destruct (isspace c); [|reflexivity].
  cbn [flat_map]. change (drop 1 (c :: s)) with s.
  rewrite ends_star, star_ends_set by apply span_len_le.
  destruct (span_len isspace s); simpl; by rewrite ?Nat.add_0_r.
Qed.

Lemma span_len_neg_drop s j :
  j < span_len nonspace s -> span_len isspace (drop j s) = 0.
Proof.
  revert j. induction s as [|c s IH]; intros j; simpl; [lia|].
  unfold nonspace at 1. destruct (isspace c) eqn:Hc; simpl; [lia|].
  destruct j as [|j]; simpl; [by rewrite Hc|]. intros H. apply IH. lia.
Qed.

Lemma span_len_at_space s :
  span_len nonspace s < length s ->
  0 < span_len isspace (drop (span_len nonspace s) s).
Proof.
  induction s as [|c s IH]; simpl; [lia|].
  unfold nonspace at 1 3. destruct (isspace c) eqn:Hc; simpl.
  - rewrite Hc. lia.
  - intros H. apply IH. lia.
Qed.

Lemma search_space s :
  search_from space_re s 0
  = (let i := span_len nonspace s in
     if i <? length s
     then Some (i, i + span_len isspace (drop i s)) else None).
Proof.
  cbn zeta. destruct (span_len nonspace s <? length s) eqn:E.
  - apply Nat.ltb_lt in E.
    rewrite (search_from_first space_re s 0 (span_len nonspace s)
               (span_len isspace (drop (span_len nonspace s) s))).
    + reflexivity.
    + rewrite match_at_space. pose proof (span_len_at_space s E).
      destruct (_ =? 0) eqn:E0; [apply Nat.eqb_eq in E0; lia|done].
    + intros j Hj. by rewrite match_at_space, span_len_neg_drop.
  - apply Nat.ltb_ge in E. apply search_from_none. intros j.
    rewrite match_at_space.
    destruct (decide (j < span_len nonspace s)).
    + by rewrite span_len_neg_drop.
    + pose proof (span_len_le nonspace s). by rewrite drop_ge by lia.
Qed.

(** An expression that begins with two given characters is found only
    where they occur. *)
Lemma search_two a b x s base :
  ~ occurs_in [a; b] s ->
  search_from (RSeq (RSet (Ascii.eqb a)) (RSeq (RSet (Ascii.eqb b)) x)) s base
  = None.
Proof.
  intros Hno. apply search_from_none. intros j.
  unfold match_at. cbn [ends].
  destruct (drop j s) as [|c [|d u]] eqn:E; [reflexivity| |].
  - by destruct (Ascii.eqb a c).
  - destruct (Ascii.eqb_spec a c) as [<-|]; [|reflexivity].
    cbn [flat_map drop]. destruct (Ascii.eqb_spec b d) as [<-|];
      [|reflexivity].
    exfalso. apply Hno. exists j. rewrite E. by exists u.
Qed.

#[global] Instance laws : ReLaws PyRe.re.
Proof.
  split.
  - intros t s. cbn [re_match re_escape re]. unfold match_.
    rewrite compile_escape. unfold match_at. rewrite ends_lits.
    by case_decide.
  - intros t s i Hi Hbefore. cbn [re_search re_escape re]. unfold search.
    rewrite compile_escape.
    rewrite (search_from_first (lits t) s 0 i (length t)); [done| |].
    + unfold match_at. by rewrite ends_lits, decide_True.
    + intros j Hj. unfold match_at.
      by rewrite ends_lits, decide_False by (by apply Hbefore).
  - intros s. cbn [re_match re]. unfold match_.
    change (compile (txt "\s+")) with (Some space_re). cbv iota beta.
    by rewrite match_at_space.
  - intros s. cbn [re_search re]. unfold search.
    change (compile (txt "\s+")) with (Some space_re). cbv iota beta.
    by rewrite search_space.
  - intros s Hno. cbn [re_search re]. unfold search.
    assert (Hc : exists x, compile CheckLine.getPatternRegex
              = Some (RSeq (RSet (Ascii.eqb "{"))
                        (RSeq (RSet (Ascii.eqb "{")) x)))
      by (eexists; reflexivity).
    destruct Hc as [x ->]. by rewrite search_two.
  - intros s Hno. cbn [re_search re]. unfold search.
    assert (Hc : exists x, compile CheckLine.getVariableRegex
              = Some (RSeq (RSet (Ascii.eqb "["))
                        (RSeq (RSet (Ascii.eqb "[")) x)))
      by (eexists; reflexivity).
    destruct Hc as [x ->]. by rewrite search_two.
Qed.
End PyReLaws.

(** ** Plain text with [PyRe] *)

Lemma occursb_complete m s : occurs_in m s -> occursb m s = true.
Proof.
  intros [i Hi]. unfold occursb. apply existsb_exists.
  exists (Nat.min i (length s)). split.
  - apply in_seq. lia.
  - apply bool_decide_eq_true.
    destruct (decide (i <= length s)).
    + by replace (i `min` length s) with i by lia.
    + rewrite drop_ge in Hi by lia.
      replace (i `min` length s) with (length s) by lia.
      by rewrite drop_all.
Qed.

Lemma no_markers_by_test t :
  forallb (fun m => negb (occursb m t))
          [txt "{{"; txt "}}"; txt "[["; txt "]]"] = true ->
  no_markers t.
Proof.
  intros H m Hm Hocc. apply occursb_complete in Hocc.
  rewrite forallb_forall in H. apply list_elem_of_In in Hm.
  specialize (H m Hm). by rewrite Hocc in H.
Qed.

(** The text " a  b.c " is compiled and matches itself. *)
Lemma C7_plain_text_matches_witness :
  exists line,
    CheckLine.init (txt " a  b.c ") CheckLine.InOrder (-1) = Ok line
    /\ CheckLine.match_ 1 line (txt " a  b.c ") ∅ = Ok (Some ∅).
Proof.
  apply (C7_plain_text_matches (re := PyRe.re) (txt " a  b.c ")
           CheckLine.InOrder (-1) ∅ 0).
  - apply no_markers_by_test. reflexivity.
  - vm_compute. discriminate.
Defined.

(** The empty text has no marker, and no check line is built from it:
    the constructor of [CheckLine] raises "Empty check line". *)
Lemma C7_empty_text_counterexample :
  no_markers (txt "")
  /\ CheckLine.init (txt "") CheckLine.InOrder (-1) = Raise EmptyCheckLine
  /\ ~ (exists line,
          CheckLine.init (txt "") CheckLine.InOrder (-1) = Ok line
          /\ CheckLine.match_ 1 line (txt "") ∅ = Ok (Some ∅)).
Proof.
  split; [apply no_markers_by_test; reflexivity|].
  split; [reflexivity|]. intros (line & Hinit & _). discriminate.
Qed.

(** So does a text of whitespace only. *)
Example blank_text_is_rejected :
  CheckLine.init (txt "   ") CheckLine.InOrder (-1) = Raise EmptyCheckLine.
Proof. reflexivity. Qed.

(** ** A search that never ends *)

Section Divergence.
Context {re : ReModule}.

(** When the first pattern is found in every rest of the output line,
    the empty one included, and the parts never match in full, the
    loop of [CheckLine.match] uses up any fuel. *)
Lemma match_loop_diverges (fuel : nat) (self : CheckLine.t) (p out : str)
    (vs : table) (from : nat) :
  (forall i, exists s e, re_search p (drop i out) = Ok (Some (s, e))) ->
  (forall i, CheckLine.match_parts (CheckLine.lineNo self)
               (CheckLine.lineParts self) out i vs = Ok None) ->
  CheckLine.match_loop fuel self p out vs from = Timeout.
Proof.
  intros Hfound Hfail. revert from.
  induction fuel as [|fuel IH]; intros from; [reflexivity|].
  cbn [CheckLine.match_loop].
  destruct (Hfound from) as (s & e & ->). cbn [bind].
  rewrite Hfail. cbn [bind]. apply IH.
Qed.
Lemma match_parts_no_timeout (lineNo : Z) (parts : list CheckElement.t)
    (out : str) (start : nat) (vs : table) :
  (forall q s, re_match q s <> Timeout) ->
  CheckLine.match_parts lineNo parts out start vs <> Timeout.
Proof.
  intros Htot. revert start vs.
  induction parts as [|part parts IH]; intros start vs; [done|].
  cbn [CheckLine.match_parts].
  destruct (CheckLine.generatePattern lineNo part vs) as [q|e|] eqn:E;
    cbn [bind]; [|done|by destruct part as [?|?|x|? ?]; simpl in E;
                          try destruct (vs !! x)].
  pose proof (Htot q (drop start out)).
  destruct (re_match q (drop start out)) as [[e|]|e|]; cbn [bind]; try done.
  destruct part; try apply IH. case_decide; [done|apply IH].
Qed.

(** When the first pattern does not match the empty string, and no call
    of [re] runs for ever, the loop of [CheckLine.match] returns within
    as many iterations as the output line has characters, plus one. *)
Lemma match_loop_terminates (fuel : nat) (self : CheckLine.t) (p out : str)
    (vs : table) (from : nat) :
  (forall q s, re_match q s <> Timeout) ->
  (forall s, re_search p s <> Timeout) ->
  re_search p [] = Ok None ->
  length out - from < fuel ->
  CheckLine.match_loop fuel self p out vs from <> Timeout.
Proof.
  intros Hm Hs Hempty. revert from.
  induction fuel as [|fuel IH]; intros from Hfuel; [lia|].
  cbn [CheckLine.match_loop].
  pose proof (Hs (drop from out)) as Hnt.
  destruct (re_search p (drop from out)) as [[[s e]|]|e|] eqn:E;
    cbn [bind]; try done.
  assert (from < length out).
  { destruct (decide (from < length out)); [done|].
    rewrite drop_ge in E by lia. congruence. }
  pose proof (match_parts_no_timeout (CheckLine.lineNo self)
                (CheckLine.lineParts self) out (from + s) vs Hm) as Hp.
  destruct (CheckLine.match_parts _ _ out (from + s) vs) as [[t|]|e'|];
    cbn [bind]; try done.
  apply IH. lia.
Qed.
End Divergence.

(** C5 (failing input).  The check line [{{a*}}b] against the output line
    "c": [a*] is found, empty, at 0, and the text [b] does not follow;
    from then on the search runs on the empty rest of the line, where
    [a*] is found again each time, and the loop never returns. *)
Theorem C5_match_does_not_terminate :
  CheckLine.init (txt "{{a*}}b") CheckLine.InOrder (-1)
    = Ok Sample.star_line
  /\ forall fuel,
       CheckLine.match_ fuel Sample.star_line (txt "c") ∅ = Timeout.
Proof.
  split; [reflexivity|]. intros fuel. unfold CheckLine.match_.
  cbn [Sample.star_line CheckLine.lineParts CheckLine.generatePattern
       CheckLine.lineNo bind].
  apply match_loop_diverges.
  - intros [|i]; exists 0, 0; [reflexivity|].
    change (drop (S i) (txt "c")) with (drop i (@nil ascii)).
    rewrite drop_nil. reflexivity.
  - intros [|i]; [reflexivity|].
    cbn [Sample.star_line CheckLine.lineParts CheckLine.lineNo
         CheckLine.match_parts CheckLine.generatePattern bind].
    change (drop (S i) (txt "c")) with (drop i (@nil ascii)).
    rewrite drop_nil. cbn [re_match PyRe.re].
    change (PyRe.match_ (txt "a*") []) with (Ok (Some 0) : result (option nat)).
    cbn [bind]. rewrite drop_ge by (simpl; lia). reflexivity.
Qed.

(** ** Negative lines *)

Section NegativeLines.
Context {re : ReModule}.
Import CheckGroup.

(** A span of one negative line fails exactly when the line matches a
    line of the window. *)
Lemma matchNotLines_single (fuel : nat) (l : CheckLine.t)
    (out : list str) (vs : table) :
  CheckLine.variant l = CheckLine.Not ->
  matchNotLines fuel [l] out (Some vs)
  = (r <- findFirstMatch fuel l out [] (Some vs) ;;
     match r with
     | Some _ => Raise (NotLineMatches (CheckLine.content l))
     | None => Ok tt
     end).
Proof.
  intros Hl. cbn [matchNotLines]. rewrite decide_True by exact Hl.
  destruct (findFirstMatch fuel l out [] (Some vs)) as [[?|]|?|];
    reflexivity.
Qed.

(** After a negative line without a match, the lines that follow it in
    the span are matched with [None] for the variable state. *)
Lemma matchNotLines_next fuel l ls out vs :
  CheckLine.variant l = CheckLine.Not ->
  findFirstMatch fuel l out [] vs = Ok None ->
  matchNotLines fuel (l :: ls) out vs = matchNotLines fuel ls out None.
Proof.
  intros Hl Hf. cbn [matchNotLines]. rewrite decide_True by exact Hl.
  by rewrite Hf.
Qed.
End NegativeLines.

Example not_B_C_init :
  CheckLine.init (txt "B C") CheckLine.Not (-1) = Ok Sample.not_B_C.
Proof. reflexivity. Qed.

(** C1 (failing input).  [CHECK: A], [CHECK-NOT: X], [CHECK-NOT: B C],
    [CHECK: D] against the output [A], [B], [D], [B C].  The window of
    the negative lines is the one line [B]; neither negative line matches
    it, and [B C] matches only the fourth line, outside the window.  Yet
    the group fails: after [X] found no match the variable state is
    [None], the first element of [B C] is found in [B], and copying the
    state raises a type error.  Without [CHECK-NOT: X] the group
    succeeds. *)
Theorem C1_negative_window_failing_input :
  CheckLine.match_ 5 (Sample.word_line CheckLine.Not "X") (txt "B") ∅
    = Ok None
  /\ CheckLine.match_ 5 Sample.not_B_C (txt "B") ∅ = Ok None
  /\ CheckLine.match_ 5 Sample.not_B_C (txt "B C") ∅ = Ok (Some ∅)
  /\ CheckGroup.match_ 5 Sample.between
       (Sample.output_G ["A"; "B"; "D"; "B C"])
     = Raise NoneNotIterable
  /\ CheckGroup.match_ 5 Sample.between_one
       (Sample.output_G ["A"; "B"; "D"; "B C"])
     = Ok tt.
Proof. repeat split; vm_compute; reflexivity. Qed.

(** C6 (failing input).  [CHECK: A], [CHECK-NOT: X], [CHECK-NOT: B C]
    against the output [A], [B], [D].  The lines left after [A] are [B]
    and [D]; neither negative line matches either of them, and the group
    fails with the type error of copying [None]. *)
Theorem C6_trailing_negative_failing_input :
  Forall (fun line =>
            CheckLine.match_ 5 (Sample.word_line CheckLine.Not "X") line ∅
              = Ok None
            /\ CheckLine.match_ 5 Sample.not_B_C line ∅ = Ok None)
         [txt "B"; txt "D"]
  /\ CheckGroup.match_ 5 Sample.trailing (Sample.output_G ["A"; "B"; "D"])
     = Raise NoneNotIterable.
Proof.
  split; [repeat constructor; vm_compute; reflexivity|].
  vm_compute. reflexivity.
Qed.

(** * Further properties *)

(** ** Check lines as [CheckLine] builds them *)

Section LineInvariant.
Context {re : ReModule}.

Lemma parse_loop_no_VarDef n lineNo line acc parts :
  Forall (fun e => CheckElement.is_VarDef e = false) acc ->
  CheckLine.parse_loop n CheckLine.Not lineNo line acc = Ok parts ->
  Forall (fun e => CheckElement.is_VarDef e = false) parts.
Proof.
  revert line acc. induction n as [|n IH]; intros line acc Hacc.
  - destruct line; simpl; [by intros [= <-]|discriminate].
  - destruct line as [|c l]; [by intros [= <-]|].
    cbn [CheckLine.parse_loop].
    destruct (re_search (txt "\s+") (c :: l)) as [mW|e|];
      cbn [bind]; try discriminate.
    destruct (re_search CheckLine.getPatternRegex (c :: l)) as [mP|e|];
      cbn [bind]; try discriminate.
    destruct (re_search CheckLine.getVariableRegex (c :: l)) as [mV|e|];
      cbn [bind]; try discriminate.
    destruct (CheckLine.isMatchAtStart mW).
    { apply IH. apply Forall_app. split; [done|]. by repeat constructor. }
    destruct (CheckLine.isMatchAtStart mP).
    { apply IH. apply Forall_app. split; [done|]. by repeat constructor. }
    destruct (CheckLine.isMatchAtStart mV).
    { rewrite bool_decide_eq_true_2 by done. cbn [andb].
      destruct (CheckElement.is_VarDef _) eqn:E; [discriminate|].
      apply IH. apply Forall_app. split; [done|]. by repeat constructor. }
    destruct (CheckLine.firstMatch _ _) as [k|e|]; cbn [bind];
      try discriminate.
    apply IH. apply Forall_app. split; [done|]. by repeat constructor.
Qed.

(** X1.  What the constructor of [CheckLine] returns has the stripped
    content, the variant and the line number it was given, at least one
    element, and - for a [CHECK-NOT] line - no variable definition. *)
Theorem CheckLine_init_well_formed (content : str)
    (variant : CheckLine.Variant) (lineNo : Z) (line : CheckLine.t) :
  CheckLine.init content variant lineNo = Ok line ->
  CheckLine.content line = strip content
  /\ CheckLine.variant line = variant
  /\ CheckLine.lineNo line = lineNo
  /\ CheckLine.lineParts line <> []
  /\ (variant = CheckLine.Not ->
      Forall (fun e => CheckElement.is_VarDef e = false)
             (CheckLine.lineParts line)).
Proof.
  unfold CheckLine.init, CheckLine.parse.
  destruct (CheckLine.parse_loop _ variant lineNo (strip content) [])
    as [parts|e|] eqn:E; cbn [bind]; try discriminate.
  destruct parts as [|p parts]; [discriminate|]. intros [= <-]. simpl.
  repeat split; try done. intros ->.
  by eapply parse_loop_no_VarDef.
Qed.

(** X2.  A check line without variable definitions - every [CHECK-NOT]
    line is one - returns, when it matches, exactly the table it was
    given. *)
Theorem match_without_definitions_keeps_table (fuel : nat)
    (self : CheckLine.t) (out : str) (vs vs' : table) :
  Forall (fun e => CheckElement.is_VarDef e = false)
         (CheckLine.lineParts self) ->
  CheckLine.match_ fuel self out vs = Ok (Some vs') ->
  vs' = vs.
Proof.
  intros Hno H. apply match_extends in H as [Hsub Hdef].
  apply map_eq. intros name.
  destruct (vs !! name) as [v|] eqn:Hv.
  - by eapply lookup_weaken.
  - destruct (vs' !! name) as [v'|] eqn:Hv'; [|done].
    destruct (Hdef name) as [[? ?]|(p & Hin)]; [by eauto|congruence|].
    rewrite Forall_forall in Hno. by specialize (Hno _ Hin).
Qed.
End LineInvariant.

Lemma CheckLine_init_well_formed_witness :
  CheckLine.content Sample.not_B_C = strip (txt " B C ")
  /\ CheckLine.variant Sample.not_B_C = CheckLine.Not
  /\ CheckLine.lineNo Sample.not_B_C = (-1)%Z
  /\ CheckLine.lineParts Sample.not_B_C <> []
  /\ (CheckLine.Not = CheckLine.Not ->
      Forall (fun e => CheckElement.is_VarDef e = false)
             (CheckLine.lineParts Sample.not_B_C)).
Proof.
  apply (CheckLine_init_well_formed (re := PyRe.re) (txt " B C ")
           CheckLine.Not (-1)).
  reflexivity.
Defined.

Lemma match_without_definitions_keeps_table_witness :
  ({[txt "Y" := txt "7"]} : table) = {[txt "Y" := txt "7"]}.
Proof.
  apply (match_without_definitions_keeps_table (re := PyRe.re) 5
           Sample.not_B_C (txt "a B  C") {[txt "Y" := txt "7"]}
           {[txt "Y" := txt "7"]}).
  - repeat constructor.
  - vm_compute. reflexivity.
Defined.

(** ** Elements between brackets *)

Section Brackets.
Context {re : ReModule}.

Lemma pyslice_nat {A} (a b : nat) (s : list A) :
  a <= b <= length s ->
  pyslice (Z.of_nat a) (Z.of_nat b) s = take (b - a) (drop a s).
Proof.
  intros H. unfold pyslice, slice_index.
  destruct (Z.ltb_spec (Z.of_nat a) 0); [lia|].
  destruct (Z.ltb_spec (Z.of_nat b) 0); [lia|].
  rewrite !Z.min_l by lia. by rewrite !Nat2Z.id.
Qed.

(** [s[2:len(s)-2]] of a text between two pairs of characters. *)
Lemma pyslice_inner {A} (o body c : list A) :
  length o = 2 -> length c = 2 ->
  pyslice 2 (Z.of_nat (length (o ++ body ++ c)) - 2) (o ++ body ++ c)
  = body.
Proof.
  intros Ho Hc. rewrite !length_app, Ho, Hc.
  replace (Z.of_nat (2 + (length body + 2)) - 2)%Z
    with (Z.of_nat (2 + length body)) by lia.
  change 2%Z with (Z.of_nat 2). rewrite pyslice_nat.
  - rewrite <- Ho, drop_app_length.
    replace (length o + length body - length o) with (length body) by lia.
    by rewrite take_app_length.
  - rewrite !length_app. lia.
Qed.

Lemma find_char_None c s : c ∉ s -> find_char c s = None.
Proof.
  induction s as [|d s IH]; [done|]. intros Hn. simpl.
  destruct (Ascii.eqb_spec d c) as [->|_]; [exfalso; apply Hn; by left|].
  rewrite IH; [done|]. intros H. apply Hn. by right.
Qed.

Lemma find_char_first c s rest :
  c ∉ s -> find_char c (s ++ c :: rest) = Some (length s).
Proof.
  induction s as [|d s IH]; intros Hn; simpl.
  - by rewrite Ascii.eqb_refl.
  - destruct (Ascii.eqb_spec d c) as [->|_]; [exfalso; apply Hn; by left|].
    rewrite IH; [done|]. intros H. apply Hn. by right.
Qed.

Lemma parseVariable_reference (o name c : str) :
  length o = 2 -> length c = 2 ->
  ":"%char ∉ o -> ":"%char ∉ name -> ":"%char ∉ c ->
  CheckElement.parseVariable (o ++ name ++ c) = CheckElement.VarRef name.
Proof.
  intros Ho Hc Hno Hnn Hnc. unfold CheckElement.parseVariable.
  rewrite find_char_None.
  - by rewrite pyslice_inner.
  - rewrite !elem_of_app. tauto.
Qed.

Lemma parseVariable_definition (o name body c : str) :
  length o = 2 -> length c = 2 ->
  ":"%char ∉ o -> ":"%char ∉ name ->
  CheckElement.parseVariable (o ++ name ++ ":"%char :: body ++ c)
  = CheckElement.VarDef name body.
Proof.
  intros Ho Hc Hno Hnn. unfold CheckElement.parseVariable.
  set (s := o ++ name ++ ":"%char :: body ++ c).
  assert (Hs : s = (o ++ name) ++ ":"%char :: body ++ c)
    by (subst s; by rewrite <- app_assoc).
  assert (Hlen : length s = 2 + length name + 1 + length body + 2).
  { subst s. rewrite !length_app. simpl. rewrite length_app. lia. }
  assert (Hfind : find_char ":" s = Some (2 + length name)).
  { rewrite Hs, find_char_first.
    - by rewrite length_app, Ho.
    - rewrite elem_of_app. tauto. }
  rewrite Hfind. f_equal.
  - change 2%Z with (Z.of_nat 2). rewrite pyslice_nat by lia.
    subst s. rewrite <- Ho, drop_app_length.
    replace (length o + length name - length o) with (length name) by lia.
    by rewrite take_app_length.
  - replace (Z.of_nat (2 + length name) + 1)%Z
      with (Z.of_nat (2 + length name + 1)) by lia.
    replace (Z.of_nat (length s) - 2)%Z
      with (Z.of_nat (2 + length name + 1 + length body)) by lia.
    rewrite pyslice_nat by lia.
    assert (Hs' : s = ((o ++ name) ++ [":"%char]) ++ body ++ c).
    { rewrite Hs. by rewrite <- (app_assoc (o ++ name)). }
    rewrite Hs'.
    replace (2 + length name + 1)
      with (length ((o ++ name) ++ [":"%char]))
      by (rewrite !length_app, Ho; simpl; lia).
    rewrite drop_app_length.
    replace (length ((o ++ name) ++ [":"%char]) + length body
             - length ((o ++ name) ++ [":"%char]))
      with (length body) by lia.
    by rewrite take_app_length.
Qed.

Lemma colon_not_in_brackets :
  (":"%char ∉ txt "[[") /\ (":"%char ∉ txt "]]").
Proof.
  split; intros H; apply list_elem_of_In in H; simpl in H;
    intuition discriminate.
Qed.

(** X3.  [parsePattern] and [parseVariable] take the element apart by
    position: [{{body}}] gives the pattern [body]; [[[name]]] with no
    colon in [name] gives a reference to [name]; and [[[name:body]]]
    gives a definition of [name] with the pattern [body], the name ending
    at the first colon whatever colons [body] has. *)
Theorem bracketed_elements_decode (name body : str) :
  CheckElement.parsePattern (txt "{{" ++ body ++ txt "}}")
    = CheckElement.Pattern body
  /\ (":"%char ∉ name ->
      CheckElement.parseVariable (txt "[[" ++ name ++ txt "]]")
        = CheckElement.VarRef name
      /\ CheckElement.parseVariable
           (txt "[[" ++ name ++ ":"%char :: body ++ txt "]]")
         = CheckElement.VarDef name body).
Proof.
  destruct colon_not_in_brackets as [Ho Hc]. split.
  - unfold CheckElement.parsePattern. by rewrite pyslice_inner.
  - intros Hn. split.
    + by apply parseVariable_reference.
    + by apply parseVariable_definition.
Qed.
End Brackets.

Lemma bracketed_elements_decode_witness :
  CheckElement.parseVariable (txt "[[" ++ txt "X" ++ txt "]]")
    = CheckElement.VarRef (txt "X")
  /\ CheckElement.parseVariable
       (txt "[[" ++ txt "X" ++ ":"%char :: txt "a:b" ++ txt "]]")
     = CheckElement.VarDef (txt "X") (txt "a:b").
Proof.
  apply (proj2 (bracketed_elements_decode (txt "X") (txt "a:b"))).
  intros H. apply list_elem_of_In in H. simpl in H. intuition discriminate.
Defined.

(** ** Splitting a group into spans *)

Section SpanShape.
Import CheckGroup.

Lemma splitByVariant_spec lines v a b :
  splitByVariant lines v = (a, b) ->
  lines = a ++ b /\ all_variant v a /\ stops_at v b.
Proof.
  revert a b. induction lines as [|l lines IH]; intros a b; simpl.
  - intros [= <- <-]. repeat split. constructor.
  - case_decide as Hl.
    + destruct (splitByVariant lines v) as [a' b'].
      intros [= <- <-]. destruct (IH a' b' eq_refl) as (-> & Ha & Hb).
      repeat split; [by constructor|done].
    + intros [= <- <-]. repeat split; [constructor|done].
Qed.

(** X4.  [__splitByVariant] cuts the list after its longest prefix of
    lines of the given variant: the two parts are determined by that. *)
Theorem splitByVariant_longest_prefix lines v a b :
  splitByVariant lines v = (a, b) <->
  lines = a ++ b /\ all_variant v a /\ stops_at v b.
Proof.
  split; [apply splitByVariant_spec|].
  intros (-> & Ha & Hb). by apply splitByVariant_app.
Qed.

Lemma nextIndependentChecks_total lines :
  exists nots span rest,
    nextIndependentChecks lines = Ok (nots, span, rest)
    /\ lines = nots ++ span ++ rest
    /\ all_variant CheckLine.Not nots
    /\ ((span = [] /\ rest = []) \/ independent_span span rest).
Proof.
  unfold nextIndependentChecks.
  destruct (splitByVariant lines CheckLine.Not) as [a b] eqn:Ea.
  apply splitByVariant_spec in Ea as (-> & Ha & Hb).
  destruct b as [|h t].
  - exists a, [], []. repeat split; [done|by left].
  - cbn [headAndTail bind]. simpl in Hb. case_decide as Hi.
    + exists a, [h], t. repeat split; [done|]. right. left. eauto.
    + destruct (CheckLine.variant h) eqn:Hv; try done.
      rewrite decide_True by done.
      destruct (splitByVariant (h :: t) CheckLine.DAG) as [c d] eqn:Ec.
      pose proof (splitByVariant_spec _ _ _ _ Ec) as (Hcd & Hc & Hd).
      exists a, c, d. rewrite Hcd. repeat split; [done|].
      right. right. repeat split; [done| |done].
      intros ->. simpl in Ec. rewrite decide_True in Ec by done.
      destruct (splitByVariant t CheckLine.DAG). discriminate.
Qed.

(** X5.  [__nextIndependentChecks] never fails - its assertion holds for
    every list of check lines - and what it returns is the list cut in
    three: the negative lines at the front, then one in-order line or a
    longest run of DAG lines, then the rest; the middle part is empty
    only when nothing but negative lines was given. *)
Theorem nextIndependentChecks_cuts_in_three lines :
  exists nots span rest,
    nextIndependentChecks lines = Ok (nots, span, rest)
    /\ lines = nots ++ span ++ rest
    /\ all_variant CheckLine.Not nots
    /\ ((span = [] /\ rest = []) \/ independent_span span rest).
Proof. apply nextIndependentChecks_total. Qed.
End SpanShape.

Lemma splitByVariant_longest_prefix_witness :
  CheckGroup.splitByVariant
    [Sample.word_line CheckLine.Not "X"; Sample.not_B_C;
     Sample.word_line CheckLine.InOrder "D"] CheckLine.Not
  = ([Sample.word_line CheckLine.Not "X"; Sample.not_B_C],
     [Sample.word_line CheckLine.InOrder "D"]).
Proof.
  apply (proj2 (splitByVariant_longest_prefix _ _ _ _)).
  split; [reflexivity|]. split; [by repeat constructor|]. simpl. discriminate.
Defined.

(** ** The first matching line, exactly *)

Section FirstMatchExact.
Context {re : ReModule}.
Import CheckGroup.

Lemma findFirstMatch_from_complete fuel base l out filter vs k vs' :
  first_unconsumed fuel l out base filter vs k vs' ->
  findFirstMatch_from fuel base l out filter vs = Ok (Some (k, vs')).
Proof.
  revert base. induction out as [|line out IH]; intros base
    (Hlt & Hnf & (ln & Hln & Hm) & Hbefore).
  - by rewrite lookup_nil in Hln.
  - cbn [findFirstMatch_from].
    destruct (decide (k = S base)) as [->|Hne].
    + rewrite decide_False by done.
      replace (S base - base - 1) with 0 in Hln by lia.
      simpl in Hln. injection Hln as ->. by rewrite Hm.
    + assert (Hrec : first_unconsumed fuel l out (S base) filter vs k vs').
      { split; [lia|]. split; [done|]. split.
        - exists ln. split; [|done].
          replace (k - base - 1) with (S (k - S base - 1)) in Hln by lia.
          done.
        - intros j line' Hj Hlook Hf. apply (Hbefore (S j)); [lia|done|].
          by replace (base + S j + 1) with (S base + j + 1) by lia. }
      case_decide as Hin; [by apply IH|].
      rewrite (Hbefore 0 line); [by apply IH|lia|done|].
      by replace (base + 0 + 1) with (S base) by lia.
Qed.

Lemma findFirstMatch_from_None_inv fuel base l out filter vs :
  findFirstMatch_from fuel base l out filter vs = Ok None ->
  forall j line, out !! j = Some line -> (base + j + 1) ∉ filter ->
                 CheckLine.match_py fuel l line vs = Ok None.
Proof.
  revert base. induction out as [|ln out IH]; intros base H j line Hj Hf.
  - by rewrite lookup_nil in Hj.
  - cbn [findFirstMatch_from] in H. destruct j as [|j].
    + simpl in Hj. injection Hj as ->.
      replace (base + 0 + 1) with (S base) in Hf by lia.
      rewrite decide_False in H by done.
      by destruct (CheckLine.match_py fuel l line vs) as [[?|]|?|].
    + simpl in Hj. refine (IH (S base) _ j line Hj _).
      * case_decide; [done|].
        by destruct (CheckLine.match_py fuel l ln vs) as [[?|]|?|].
      * by replace (S base + j + 1) with (base + S j + 1) by lia.
Qed.

Lemma findFirstMatch_from_None_intro fuel base l out filter vs :
  (forall j line, out !! j = Some line -> (base + j + 1) ∉ filter ->
                  CheckLine.match_py fuel l line vs = Ok None) ->
  findFirstMatch_from fuel base l out filter vs = Ok None.
Proof.
  revert base. induction out as [|ln out IH]; intros base H; [done|].
  cbn [findFirstMatch_from].
  assert (Hrec : findFirstMatch_from fuel (S base) l out filter vs = Ok None).
  { apply IH. intros j line Hj Hf. apply (H (S j)); [done|].
    by replace (base + S j + 1) with (S base + j + 1) by lia. }
  case_decide as Hin; [done|].
  rewrite (H 0 ln); [done|done|].
  by replace (base + 0 + 1) with (S base) by lia.
Qed.

(** X6.  [__findFirstMatch] returns the number, counted from 1, of the
    first output line that is not in the filter and that the check line
    matches, with the table of that match, provided the check line
    returns no match on the unfiltered lines before it; and it returns
    the pair for "not found" exactly when the check line returns no match
    on every unfiltered line.  Filtered lines are not looked at. *)
Theorem findFirstMatch_exact (fuel : nat) (l : CheckLine.t)
    (out : list str) (filter : list nat) (vs : option table) :
  (forall k vs',
      findFirstMatch fuel l out filter vs = Ok (Some (k, vs')) <->
      first_unconsumed fuel l out 0 filter vs k vs')
  /\ (findFirstMatch fuel l out filter vs = Ok None <->
      forall j line, out !! j = Some line -> (j + 1) ∉ filter ->
                     CheckLine.match_py fuel l line vs = Ok None).
Proof.
  split.
  - intros k vs'. split.
    + apply findFirstMatch_from_Some.
    + apply findFirstMatch_from_complete.
  - split.
    + intros H j line. by apply (findFirstMatch_from_None_inv _ 0 _ _ _ _ H).
    + intros H. by apply findFirstMatch_from_None_intro.
Qed.
End FirstMatchExact.

Lemma findFirstMatch_exact_witness :
  first_unconsumed 5 (Sample.word_line CheckLine.DAG "A")
    [txt "B"; txt "A"; txt "A"] 0 [2] (Some ∅) 3 ∅.
Proof.
  apply (proj1 (proj1 (findFirstMatch_exact (re := PyRe.re) 5
                         (Sample.word_line CheckLine.DAG "A")
                         [txt "B"; txt "A"; txt "A"] [2] (Some ∅)) 3 ∅)).
  vm_compute. reflexivity.
Defined.

(** ** What a span leaves before and after it *)

Section Partition.
Context {re : ReModule}.
Import CheckGroup.

Lemma foldl_min_spec l x :
  foldl Nat.min x l ∈ x :: l /\ Forall (fun k => foldl Nat.min x l <= k) (x :: l).
Proof.
  revert x. induction l as [|y l IH]; intros x; simpl.
  - split; [by left|]. by repeat constructor.
  - destruct (IH (Nat.min x y)) as [Hin Hall].
    apply Forall_cons in Hall as [Hm Hall]. split.
    + apply elem_of_cons in Hin as [Hin|Hin]; [|by do 2 right].
      rewrite Hin. destruct (Nat.min_spec x y) as [[_ ->]|[_ ->]];
        [by left|right; by left].
    + repeat constructor; [lia|lia|done].
Qed.

Lemma foldl_max_spec l x :
  foldl Nat.max x l ∈ x :: l /\ Forall (fun k => k <= foldl Nat.max x l) (x :: l).
Proof.
  revert x. induction l as [|y l IH]; intros x; simpl.
  - split; [by left|]. by repeat constructor.
  - destruct (IH (Nat.max x y)) as [Hin Hall].
    apply Forall_cons in Hall as [Hm Hall]. split.
    + apply elem_of_cons in Hin as [Hin|Hin]; [|by do 2 right].
      rewrite Hin. destruct (Nat.max_spec x y) as [[_ ->]|[_ ->]];
        [right; by left|by left].
    + repeat constructor; [lia|lia|done].
Qed.

(** The lowest and the highest matched line of a span, and what
    [__matchIndependentChecks] returns for them. *)
Lemma matchIndependentChecks_Matched fuel lines out vs pre rem vs' :
  matchIndependentChecks fuel lines out vs = Ok (Matched pre rem vs') ->
  exists matched lo hi,
    matchEach fuel lines out [] vs = Ok (matched, vs')
    /\ pymin matched = Ok lo /\ pymax matched = Ok hi
    /\ pre = take (lo - 1) out /\ rem = drop hi out
    /\ 1 <= lo /\ lo <= hi /\ hi <= length out
    /\ Forall (fun k => lo <= k <= hi) matched
    /\ lo ∈ matched /\ hi ∈ matched.
Proof.
  unfold matchIndependentChecks.
  destruct lines as [|l0 lines]; [discriminate|].
  destruct (matchEach fuel (l0 :: lines) out [] vs) as [[m t]|e|] eqn:E;
    cbn [bind]; try discriminate.
  pose proof (matchEach_assignment _ _ _ _ _ _ _ E) as (matched & Hm & Hs).
  simpl in Hm. subst m.
  apply span_assignment_facts in Hs as (_ & Hlen & Hall);
    [|apply NoDup_nil_2].
  destruct matched as [|x matched]; [simpl in Hlen; lia|].
  cbn [pymin pymax bind]. intros [= <- <- <-].
  destruct (foldl_min_spec matched x) as [Hminin Hmin].
  destruct (foldl_max_spec matched x) as [Hmaxin Hmax].
  rewrite Forall_forall in Hall, Hmin, Hmax.
  exists (x :: matched), (foldl Nat.min x matched), (foldl Nat.max x matched).
  pose proof (Hall _ Hminin). pose proof (Hall _ Hmaxin).
  pose proof (Hmin _ Hmaxin).
  repeat split; try done; try lia.
  apply Forall_forall. intros k Hk.
  specialize (Hmin k Hk). specialize (Hmax k Hk). lia.
Qed.

(** X7.  When a span is matched, [__matchIndependentChecks] cuts the
    window in three: the lines before the lowest matched line, a
    non-empty middle that begins and ends with a matched line and holds
    every matched line, and the lines after the highest matched line.
    Only the first part is shown to the negative lines and only the last
    to the spans that follow: an unmatched line between two matched
    lines of a DAG span is in neither. *)
Theorem matched_span_cuts_window (fuel : nat) (lines : list CheckLine.t)
    (out : list str) (vs : table) (pre rem : list str) (vs' : table) :
  matchIndependentChecks fuel lines out vs = Ok (Matched pre rem vs') ->
  exists matched mid,
    matchEach fuel lines out [] vs = Ok (matched, vs')
    /\ out = pre ++ mid ++ rem
    /\ Forall (fun k => length pre < k <= length pre + length mid) matched
    /\ (length pre + 1) ∈ matched
    /\ (length pre + length mid) ∈ matched.
Proof.
  intros H. apply matchIndependentChecks_Matched in H
    as (matched & lo & hi & He & _ & _ & -> & -> & Hlo & Hle & Hhi
        & Hall & Hloin & Hhiin).
  exists matched, (take (hi - (lo - 1)) (drop (lo - 1) out)).
  assert (Hpre : length (take (lo - 1) out) = lo - 1)
    by (rewrite length_take; lia).
  assert (Hmid : length (take (hi - (lo - 1)) (drop (lo - 1) out))
                 = hi - (lo - 1))
    by (rewrite length_take, length_drop; lia).
  rewrite Hpre, Hmid. split; [done|]. split; [|split; [|split]].
  - rewrite <- (take_drop (lo - 1) out) at 1. f_equal.
    rewrite <- (take_drop (hi - (lo - 1)) (drop (lo - 1) out)) at 1.
    f_equal. rewrite drop_drop. f_equal. lia.
  - eapply Forall_impl; [exact Hall|]. simpl. intros k Hk. lia.
  - by replace (lo - 1 + 1) with lo by lia.
  - by replace (lo - 1 + (hi - (lo - 1))) with hi by lia.
Qed.
End Partition.

(** The DAG lines [A], [B] against [x], [B], [y], [A], [z]: [x] is before,
    [z] after, and [y] in the middle. *)
Lemma matched_span_cuts_window_witness :
  exists matched mid,
    CheckGroup.matchEach 5
      [Sample.word_line CheckLine.DAG "A"; Sample.word_line CheckLine.DAG "B"]
      (map txt ["x"; "B"; "y"; "A"; "z"]%string) [] ∅ = Ok (matched, ∅)
    /\ map txt ["x"; "B"; "y"; "A"; "z"]%string = [txt "x"] ++ mid ++ [txt "z"]
    /\ Forall (fun k => length [txt "x"] < k <= length [txt "x"] + length mid)
              matched
    /\ (length [txt "x"] + 1) ∈ matched
    /\ (length [txt "x"] + length mid) ∈ matched.
Proof.
  apply (matched_span_cuts_window (re := PyRe.re) 5
           [Sample.word_line CheckLine.DAG "A";
            Sample.word_line CheckLine.DAG "B"]
           (map txt ["x"; "B"; "y"; "A"; "z"]%string) ∅).
  vm_compute. reflexivity.
Defined.

(** ** A span with one negative line before it *)

Section OneNegative.
Context {re : ReModule}.
Import CheckGroup.

(** X8.  For a span that has exactly one negative line [N] before it:
    with the span matched at the lines [matched], the window of [N] is
    the lines before the lowest of them.  When [N] matches a line of that
    window - and returns no match on the window's lines before it - the
    group fails with "CHECK-NOT line ... matches output"; when [N]
    returns no match on every line of the window, the loop goes on after
    the highest matched line with the table of the span. *)
Theorem one_negative_line_window (n fuel : nat) (N : CheckLine.t)
    (span rest : list CheckLine.t) (out : list str) (vs vs' : table)
    (matched : list nat) (lo hi : nat) :
  CheckLine.variant N = CheckLine.Not -> independent_span span rest ->
  matchEach fuel span out [] vs = Ok (matched, vs') ->
  pymin matched = Ok lo -> pymax matched = Ok hi ->
  (forall before line after vs1,
      take (lo - 1) out = before ++ line :: after ->
      Forall (fun b => CheckLine.match_ fuel N b vs = Ok None) before ->
      CheckLine.match_ fuel N line vs = Ok (Some vs1) ->
      match_loop (S n) fuel ([N] ++ span ++ rest) out vs
      = Raise (NotLineMatches (CheckLine.content N)))
  /\ (Forall (fun b => CheckLine.match_ fuel N b vs = Ok None)
             (take (lo - 1) out) ->
      match_loop (S n) fuel ([N] ++ span ++ rest) out vs
      = match_loop n fuel rest (drop hi out) vs').
Proof.
  intros HN Hs He Hlo Hhi.
  rewrite (match_loop_one_negative n fuel N span rest out vs HN Hs).
  rewrite He. cbn [bind fst snd]. rewrite Hlo, Hhi. cbn [bind]. split.
  - intros before line after vs1 Hw Hb Hm. rewrite Hw.
    unfold findFirstMatch.
    rewrite (findFirstMatch_from_complete fuel 0 N _ [] (Some vs)
               (S (length before)) vs1); [done|].
    split; [lia|]. split; [apply not_elem_of_nil|]. split.
    + exists line. replace (S (length before) - 0 - 1) with (length before)
        by lia.
      split; [|done]. by rewrite lookup_app_r, Nat.sub_diag.
    + intros j ln Hj Hlook _.
      rewrite lookup_app_l in Hlook by lia.
      rewrite Forall_forall in Hb. apply Hb.
      by eapply list_elem_of_lookup_2.
  - intros Hall. unfold findFirstMatch.
    by rewrite findFirstMatch_from_None.
Qed.
End OneNegative.

(** [CHECK: A], [CHECK-NOT: B C], [CHECK: D]: a line [B C] between the
    lines [A] and [D] fails the group. *)
Lemma one_negative_line_window_witness :
  CheckGroup.match_loop 2 5 ([Sample.not_B_C]
      ++ [Sample.word_line CheckLine.InOrder "D"] ++ [])
    (map txt ["x"; "B C"; "D"; "y"]%string) ∅
  = Raise (NotLineMatches (txt "B C")).
Proof.
  apply (proj1 (one_negative_line_window (re := PyRe.re) 1 5 Sample.not_B_C
                  [Sample.word_line CheckLine.InOrder "D"] []
                  (map txt ["x"; "B C"; "D"; "y"]%string) ∅ ∅ [3] 3 3
                  eq_refl
                  (or_introl (ex_intro _ _ (conj eq_refl eq_refl)))
                  eq_refl eq_refl eq_refl)
           [txt "x"] (txt "B C") [] ∅).
  - reflexivity.
  - repeat constructor.
  - vm_compute. reflexivity.
Defined.

(** ** The failures of a group run *)

Section Failures.
Context {re : ReModule}.
Hypothesis Hre : raises_only_ReError re.
Import CheckGroup.

Lemma generatePattern_failure (lineNo : Z) (part : CheckElement.t)
    (vs : table) (e : exn) :
  CheckLine.generatePattern lineNo part vs = Raise e -> match_failure e.
Proof.
  destruct part as [?|?|x|? ?]; simpl; try discriminate.
  destruct (vs !! x); [discriminate|]. by intros [= <-].
Qed.

Lemma match_parts_failure (lineNo : Z) (parts : list CheckElement.t)
    (out : str) (start : nat) (vs : table) (e : exn) :
  CheckLine.match_parts lineNo parts out start vs = Raise e ->
  match_failure e.
Proof.
  revert start vs. induction parts as [|part parts IH]; intros start vs;
    [discriminate|].
  cbn [CheckLine.match_parts].
  destruct (CheckLine.generatePattern lineNo part vs) as [p|e'|] eqn:Eg;
    cbn [bind]; [|intros [= <-]; by eapply generatePattern_failure
                 |discriminate].
  destruct (re_match p (drop start out)) as [[k|]|e'|] eqn:Em; cbn [bind];
    try discriminate.
  - destruct part; try apply IH.
    case_decide; [by intros [= <-]|apply IH].
  - intros [= <-]. by rewrite (proj2 Hre _ _ _ Em).
Qed.

Lemma line_match_loop_failure (fuel : nat) (self : CheckLine.t)
    (p out : str) (vs : table) (from : nat) (e : exn) :
  CheckLine.match_loop fuel self p out vs from = Raise e -> match_failure e.
Proof.
  revert from. induction fuel as [|fuel IH]; intros from; [discriminate|].
  cbn [CheckLine.match_loop].
  destruct (re_search p (drop from out)) as [[[s k]|]|e'|] eqn:Es;
    cbn [bind]; try discriminate.
  - destruct (CheckLine.match_parts _ _ out (from + s) vs)
      as [[t|]|e'|] eqn:Ep; cbn [bind]; try discriminate.
    + apply IH.
    + intros [= <-]. by eapply match_parts_failure.
  - intros [= <-]. by rewrite (proj1 Hre _ _ _ Es).
Qed.

Lemma match_py_failure (fuel : nat) (self : CheckLine.t) (out : str)
    (vs : option table) (e : exn) :
  CheckLine.lineParts self <> [] ->
  CheckLine.match_py fuel self out vs = Raise e -> match_failure e.
Proof.
  intros Hne. destruct vs as [vs|]; simpl.
  - unfold CheckLine.match_.
    destruct (CheckLine.lineParts self) as [|p0 ps]; [done|].
    destruct (CheckLine.generatePattern _ p0 vs) as [p|e'|] eqn:Eg;
      cbn [bind]; [|intros [= <-]; by eapply generatePattern_failure
                   |discriminate].
    apply line_match_loop_failure.
  - unfold CheckLine.match_None.
    destruct (CheckLine.lineParts self) as [|p0 ps]; [done|].
    assert (Hs : forall p,
      (firstMatch <- re_search p (drop 0 out) ;;
       match firstMatch with
       | Some _ => Raise NoneNotIterable
       | None => Ok None
       end) = (Raise e : result (option table)) -> match_failure e).
    { intros p. destruct (re_search p (drop 0 out)) as [[?|]|e'|] eqn:Es;
        cbn [bind]; try discriminate; intros [= <-]; [done|].
      by rewrite (proj1 Hre _ _ _ Es). }
    destruct p0; try apply Hs. by intros [= <-].
Qed.

Lemma findFirstMatch_from_failure fuel base l out filter vs e :
  CheckLine.lineParts l <> [] ->
  findFirstMatch_from fuel base l out filter vs = Raise e -> match_failure e.
Proof.
  intros Hne. revert base. induction out as [|line out IH]; intros base;
    [discriminate|].
  cbn [findFirstMatch_from]. case_decide; [apply IH|].
  destruct (CheckLine.match_py fuel l line vs) as [[?|]|e'|] eqn:Em;
    cbn [bind]; try discriminate; [apply IH|].
  intros [= <-]. by eapply match_py_failure.
Qed.

Lemma matchEach_failure fuel lines out m vs e :
  Forall (fun l => CheckLine.lineParts l <> []) lines ->
  matchEach fuel lines out m vs = Raise e -> match_failure e.
Proof.
  intros Hall. revert m vs. induction Hall as [|l lines Hl _ IH];
    intros m vs; [discriminate|].
  cbn [matchEach]. unfold findFirstMatch.
  destruct (findFirstMatch_from fuel 0 l out m (Some vs))
    as [[[k t]|]|e'|] eqn:Ef; cbn [bind]; try discriminate.
  - apply IH.
  - by intros [= <-].
  - intros [= <-]. by eapply findFirstMatch_from_failure.
Qed.

Lemma matchIndependentChecks_failure fuel lines out vs e :
  Forall (fun l => CheckLine.lineParts l <> []) lines ->
  matchIndependentChecks fuel lines out vs = Raise e -> match_failure e.
Proof.
  intros Hall. unfold matchIndependentChecks.
  destruct lines as [|l0 lines]; [discriminate|].
  destruct (matchEach fuel (l0 :: lines) out [] vs) as [[m t]|e'|] eqn:E;
    cbn [bind]; [|intros [= <-]; by eapply matchEach_failure|discriminate].
  pose proof (matchEach_assignment _ _ _ _ _ _ _ E) as (matched & Hm & Hs).
  simpl in Hm. subst m.
  apply span_assignment_facts in Hs as (_ & Hlen & _); [|apply NoDup_nil_2].
  destruct matched; [simpl in Hlen; lia|]. discriminate.
Qed.

Lemma matchNotLines_failure fuel lines out vs e :
  all_variant CheckLine.Not lines ->
  Forall (fun l => CheckLine.lineParts l <> []) lines ->
  matchNotLines fuel lines out vs = Raise e -> match_failure e.
Proof.
  intros Hnot. revert vs. induction Hnot as [|l lines Hl _ IH];
    intros vs Hall; [discriminate|].
  apply Forall_cons in Hall as [Hne Hall].
  cbn [matchNotLines]. rewrite decide_True by done. unfold findFirstMatch.
  destruct (findFirstMatch_from fuel 0 l out [] vs) as [[?|]|e'|] eqn:Ef;
    cbn [bind].
  - by intros [= <-].
  - by apply IH.
  - intros [= <-]. by eapply findFirstMatch_from_failure.
  - discriminate.
Qed.

Lemma group_match_loop_failure n fuel lines out vs e :
  Forall (fun l => CheckLine.lineParts l <> []) lines ->
  match_loop n fuel lines out vs = Raise e -> match_failure e.
Proof.
  revert lines out vs. induction n as [|n IH]; intros lines out vs Hall.
  - destruct lines; discriminate.
  - destruct lines as [|x xs]; [discriminate|]. cbn [match_loop].
    destruct (nextIndependentChecks_total (x :: xs))
      as (nots & span & rest & -> & Heq & Hnots & _).
    cbn [bind]. rewrite Heq in Hall.
    apply Forall_app in Hall as [Hn Hall].
    apply Forall_app in Hall as [Hs Hr].
    destruct (matchIndependentChecks fuel span out vs)
      as [[o t|pre rem t]|e'|] eqn:Em; cbn [bind];
      [| |intros [= <-];
          eapply matchIndependentChecks_failure; [exact Hs|exact Em]
       |discriminate].
    + destruct (matchNotLines fuel nots o (Some vs)) as [[]|e'|] eqn:En;
        cbn [bind];
        [|intros [= <-];
          eapply matchNotLines_failure; [exact Hnots|exact Hn|exact En]
         |discriminate].
      destruct rest; [discriminate|]. by intros [= <-].
    + destruct (matchNotLines fuel nots pre (Some vs)) as [[]|e'|] eqn:En;
        cbn [bind];
        [|intros [= <-];
          eapply matchNotLines_failure; [exact Hnots|exact Hn|exact En]
         |discriminate].
      by apply IH.
Qed.

(** X9.  With check lines that have at least one element - as all lines
    [CheckLine] builds have - and an [re] that raises nothing but its own
    error, an exception of [CheckGroup.match] is one of: a line that could
    not be matched, a negative line that matches, an undefined or
    redefined variable, an error of [re], or the type error of a
    variable state that is [None].  The assertions of the group code, the
    indexing of [lineParts] and of the head of a list, and [min] and [max]
    of the matched lines never fail. *)
Theorem group_match_failures (fuel : nat) (self : CheckGroup.t)
    (outputGroup : OutputGroup.t) (e : exn) :
  Forall (fun l => CheckLine.lineParts l <> []) (CheckGroup.lines self) ->
  CheckGroup.match_ fuel self outputGroup = Raise e ->
  match_failure e.
Proof. intros Hall. by apply group_match_loop_failure. Qed.
End Failures.

Lemma PyRe_raises_only_ReError : raises_only_ReError PyRe.re.
Proof.
  split; intros p s e; cbn [re_search re_match PyRe.re];
    unfold PyRe.search, PyRe.match_; destruct (PyRe.compile p);
    congruence.
Qed.

Lemma PyRe_terminates : re_terminates PyRe.re.
Proof.
  split; intros p s; cbn [re_search re_match PyRe.re];
    unfold PyRe.search, PyRe.match_; by destruct (PyRe.compile p).
Qed.

Lemma group_match_failures_witness :
  match_failure (CouldNotMatch (txt "B")).
Proof.
  apply (group_match_failures (re := PyRe.re) PyRe_raises_only_ReError 5
           (Sample.group_G [Sample.word_line CheckLine.InOrder "A";
                            Sample.word_line CheckLine.InOrder "B"])
           (Sample.output_G ["B"; "A"; "C"])).
  - by repeat constructor.
  - vm_compute. reflexivity.
Defined.

(** ** Output after the last matched line *)

Section TrailingOutput.
Context {re : ReModule}.
Import CheckGroup.

Lemma findFirstMatch_from_app fuel base l out extra filter vs r :
  findFirstMatch_from fuel base l out filter vs = Ok (Some r) ->
  findFirstMatch_from fuel base l (out ++ extra) filter vs = Ok (Some r).
Proof.
  revert base. induction out as [|line out IH]; intros base; [discriminate|].
  cbn [app findFirstMatch_from]. case_decide; [apply IH|].
  destruct (CheckLine.match_py fuel l line vs) as [[?|]|?|]; cbn [bind];
    try done. apply IH.
Qed.

Lemma matchEach_app fuel lines out extra m vs r :
  matchEach fuel lines out m vs = Ok r ->
  matchEach fuel lines (out ++ extra) m vs = Ok r.
Proof.
  revert m vs. induction lines as [|l lines IH]; intros m vs; [done|].
  cbn [matchEach]. unfold findFirstMatch.
  destruct (findFirstMatch_from fuel 0 l out m (Some vs))
    as [[[k t]|]|e|] eqn:Ef; cbn [bind]; try discriminate.
  rewrite (findFirstMatch_from_app _ _ _ _ extra _ _ _ Ef). cbn [bind].
  apply IH.
Qed.

Lemma matchIndependentChecks_app fuel lines out extra vs pre rem vs' :
  matchIndependentChecks fuel lines out vs = Ok (Matched pre rem vs') ->
  matchIndependentChecks fuel lines (out ++ extra) vs
  = Ok (Matched pre (rem ++ extra) vs').
Proof.
  intros H. pose proof (matchIndependentChecks_Matched _ _ _ _ _ _ _ H)
    as (matched & lo & hi & He & Hlo & Hhi & -> & -> & ? & ? & ? & _).
  unfold matchIndependentChecks in *.
  destruct lines as [|l0 lines]; [discriminate|].
  rewrite (matchEach_app _ _ _ extra _ _ _ He). cbn [bind].
  rewrite Hlo, Hhi. cbn [bind].
  by rewrite take_app_le, drop_app_le by lia.
Qed.

Lemma group_match_loop_nil n fuel out vs :
  match_loop n fuel [] out vs = Ok tt.
Proof. by destruct n. Qed.

Lemma group_match_loop_app n fuel lines out extra vs l :
  last lines = Some l -> CheckLine.variant l <> CheckLine.Not ->
  match_loop n fuel lines out vs = Ok tt ->
  match_loop n fuel lines (out ++ extra) vs = Ok tt.
Proof.
  revert lines out vs. induction n as [|n IH]; intros lines out vs Hlast Hl.
  - by destruct lines.
  - destruct lines as [|x xs]; [done|]. cbn [match_loop].
    destruct (nextIndependentChecks_total (x :: xs))
      as (nots & span & rest & -> & Heq & Hnots & Hshape).
    cbn [bind]. rewrite Heq in Hlast.
    destruct (matchIndependentChecks fuel span out vs)
      as [[o t|pre rem t]|e|] eqn:Em; cbn [bind]; try discriminate.
    + (* only negative lines were left *)
      exfalso. unfold matchIndependentChecks in Em.
      destruct span as [|s0 span].
      * destruct Hshape as [[_ ->]|Hs];
          [|by apply independent_span_nonempty in Hs].
        rewrite !app_nil_r in Hlast.
        apply last_Some_elem_of in Hlast.
        unfold all_variant in Hnots. rewrite Forall_forall in Hnots.
        by apply Hl, Hnots.
      * destruct (matchEach fuel (s0 :: span) out [] vs) as [[? ?]|?|];
          cbn [bind] in Em; try discriminate.
        destruct (pymin _); cbn [bind] in Em; try discriminate.
        destruct (pymax _); cbn [bind] in Em; discriminate.
    + rewrite (matchIndependentChecks_app _ _ _ extra _ _ _ _ Em).
      cbn [bind].
      destruct (matchNotLines fuel nots pre (Some vs)) as [[]|e|];
        cbn [bind]; try discriminate.
      destruct rest as [|r0 rest]; [intros _; apply group_match_loop_nil|].
      apply IH; [|done].
      rewrite !last_app in Hlast.
      destruct (last (r0 :: rest)) eqn:E; [done|].
      by apply last_None in E.
Qed.

(** X10.  For a group whose last check line is not a negative one, output
    lines after those of a successful run change nothing: the group
    matches the longer output as well. *)
Theorem output_after_last_match_is_ignored (fuel : nat) (self : CheckGroup.t)
    (name : str) (body extra : list str) (l : CheckLine.t) :
  last (CheckGroup.lines self) = Some l ->
  CheckLine.variant l <> CheckLine.Not ->
  CheckGroup.match_ fuel self (OutputGroup.mk name body) = Ok tt ->
  CheckGroup.match_ fuel self (OutputGroup.mk name (body ++ extra)) = Ok tt.
Proof. unfold CheckGroup.match_. simpl. apply group_match_loop_app. Qed.
End TrailingOutput.

(** The end-to-end group of the specification, with two more lines of
    output, one of them the line that must not come before [End]. *)
Lemma output_after_last_match_is_ignored_witness :
  CheckGroup.match_ 5
    (Sample.group_G [Sample.word_line CheckLine.InOrder "Begin";
                     Sample.word_line CheckLine.DAG "X";
                     Sample.word_line CheckLine.DAG "Y";
                     Sample.word_line CheckLine.Not "BAD";
                     Sample.word_line CheckLine.InOrder "End"])
    (OutputGroup.mk (txt "G")
       (map txt ["Begin"; "Y"; "X"; "End"]%string
        ++ map txt ["BAD"; "X"]%string))
  = Ok tt.
Proof.
  apply (output_after_last_match_is_ignored (re := PyRe.re) 5 _ _ _ _
           (Sample.word_line CheckLine.InOrder "End")).
  - reflexivity.
  - discriminate.
  - vm_compute. reflexivity.
Defined.

(** ** When the search for a match ends *)

Section Termination.
Context {re : ReModule}.

(** X11.  [CheckLine.match] returns - a table, no match, or an
    exception - within as many iterations of its loop as the output line
    has characters, plus one, when no call of [re] runs for ever and the
    pattern of the first element does not match the empty string. *)
Theorem match_terminates (fuel : nat) (self : CheckLine.t)
    (part0 : CheckElement.t) (parts : list CheckElement.t)
    (p out : str) (vs : table) :
  re_terminates re ->
  CheckLine.lineParts self = part0 :: parts ->
  CheckLine.generatePattern (CheckLine.lineNo self) part0 vs = Ok p ->
  re_search p [] = Ok None ->
  length out < fuel ->
  CheckLine.match_ fuel self out vs <> Timeout.
Proof.
  intros [Hs Hm] Hparts Hp Hempty Hfuel. unfold CheckLine.match_.
  rewrite Hparts, Hp. cbn [bind].
  apply match_loop_terminates; [done|done|done|lia].
Qed.
End Termination.

(** [CHECK-NOT: B C] against "BBB": [B] is found at each of the three
    characters and the fourth search, on the empty rest, ends the loop. *)
Lemma match_terminates_witness :
  CheckLine.match_ 4 Sample.not_B_C (txt "BBB") ∅ <> Timeout.
Proof.
  apply (match_terminates (re := PyRe.re) 4 Sample.not_B_C
           (CheckElement.Text (txt "B"))
           [CheckElement.Pattern (txt "\s+"); CheckElement.Text (txt "C")]
           (txt "B") (txt "BBB") ∅ PyRe_terminates).
  - reflexivity.
  - reflexivity.
  - reflexivity.
  - simpl. lia.
Defined.

(** ** A run over all the groups *)

Section Run.
Context {re : ReModule}.

Lemma match_groups_Ok fuel groups outputFile :
  CheckFile.match_groups fuel groups outputFile = Ok tt <->
  Forall (group_passes fuel outputFile) groups.
Proof.
  induction groups as [|g groups IH]; cbn [CheckFile.match_groups].
  - split; [constructor|done].
  - destruct (OutputFile.findGroup outputFile (CheckGroup.name g))
      as [og|] eqn:Ef.
    + destruct (CheckGroup.match_ fuel g og) as [[]|e|] eqn:Em; cbn [bind].
      * rewrite IH. split.
        -- intros H. constructor; [by exists og|done].
        -- intros H. by apply Forall_inv_tail in H.
      * split; [discriminate|]. intros H. apply Forall_inv in H
          as (og' & Hf & Hm). congruence.
      * split; [discriminate|]. intros H. apply Forall_inv in H
          as (og' & Hf & Hm). congruence.
    + split; [discriminate|]. intros H. apply Forall_inv in H
        as (og' & Hf & Hm). congruence.
Qed.

(** X12.  [CheckFile.match] succeeds exactly when every check group has
    an output group of its name and matches the first such group; and
    when the groups before one all pass and that one is matched to its
    output group with an exception, the run ends with that exception,
    whatever the groups after it are. *)
Theorem run_passes_iff_all_groups_pass (fuel : nat) (self : CheckFile.t)
    (outputFile : OutputFile.t) :
  (CheckFile.match_ fuel self outputFile = Ok tt <->
   Forall (group_passes fuel outputFile) (CheckFile.groups self))
  /\ (forall before checkGroup after outputGroup e,
        CheckFile.groups self = before ++ checkGroup :: after ->
        Forall (group_passes fuel outputFile) before ->
        OutputFile.findGroup outputFile (CheckGroup.name checkGroup)
          = Some outputGroup ->
        CheckGroup.match_ fuel checkGroup outputGroup = Raise e ->
        CheckFile.match_ fuel self outputFile = Raise e).
Proof.
  split; [apply match_groups_Ok|].
  intros before g after og e Hg Hbefore Hf Hm.
  unfold CheckFile.match_. rewrite Hg. clear Hg.
  induction Hbefore as [|b before (ob & Hb & Hbm) _ IH];
    cbn [app CheckFile.match_groups].
  - by rewrite Hf, Hm.
  - by rewrite Hb, Hbm.
Qed.
End Run.

(** Two check groups of the same name are both matched against the first
    output group of that name. *)
Lemma run_passes_iff_all_groups_pass_witness :
  CheckFile.match_ 5
    (CheckFile.mk (txt "CHECK")
       [Sample.group_G [Sample.word_line CheckLine.InOrder "A"];
        Sample.group_G [Sample.word_line CheckLine.InOrder "B"]])
    (OutputFile.mk [Sample.output_G ["A"]; Sample.output_G ["B"]])
  = Raise (CouldNotMatch (txt "B")).
Proof.
  apply (proj2 (run_passes_iff_all_groups_pass (re := PyRe.re) 5
                  (CheckFile.mk (txt "CHECK")
                     [Sample.group_G [Sample.word_line CheckLine.InOrder "A"];
                      Sample.group_G [Sample.word_line CheckLine.InOrder "B"]])
                  (OutputFile.mk [Sample.output_G ["A"];
                                  Sample.output_G ["B"]]))
           [Sample.group_G [Sample.word_line CheckLine.InOrder "A"]]
           (Sample.group_G [Sample.word_line CheckLine.InOrder "B"]) []
           (Sample.output_G ["A"])).
  - reflexivity.
  - constructor; [|constructor]. exists (Sample.output_G ["A"]).
    split; vm_compute; reflexivity.
  - vm_compute. reflexivity.
  - vm_compute. reflexivity.
Defined.

(** ** Splitting a check file into groups *)

Section CheckFileSplit.
Context {re : ReModule}.

Lemma mapM_app_Raise {A B} (f : A -> result B) before x after bs e :
  mapM f before = Ok bs -> f x = Raise e ->
  mapM f (before ++ x :: after) = Raise e.
Proof.
  revert bs. induction before as [|b before IH]; intros bs; simpl.
  - intros _ ->. reflexivity.
  - destruct (f b); cbn [bind]; try discriminate.
    destruct (mapM f before) as [bs'|?|]; cbn [bind]; try discriminate.
    intros _ Hx. by rewrite (IH bs' eq_refl Hx).
Qed.

(** The lines after a header are added, in order, to the group the
    header opened. *)
Lemma parseStream_loop_body prefix body rest n groups name acc :
  Forall (line_classified prefix) body ->
  CheckFile.parseStream_loop prefix (map fst body ++ rest) n
    (groups ++ [(name, acc)])
  = CheckFile.parseStream_loop prefix rest (n + length body)
      (groups ++ [(name, acc ++ omap snd body)]).
Proof.
  intros H. revert n acc. induction H as [|[line o] body Hl _ IH];
    intros n acc.
  - simpl. by rewrite Nat.add_0_r, app_nil_r.
  - cbn [map fst app CheckFile.parseStream_loop length].
    replace (n + S (length body)) with (S n + length body) by lia.
    destruct o as [processed|]; cbn [omap snd] in *.
    + destruct Hl as [Hne Hp]. simpl in Hne, Hp.
      destruct (strip line) as [|c s] eqn:E; [done|].
      rewrite Hp. cbn [bind]. rewrite last_snoc, removelast_last.
      simpl. rewrite IH. by rewrite <- app_assoc.
    + destruct Hl as [Hl|Hl]; simpl in Hl.
      * rewrite Hl. apply IH.
      * destruct (strip line); [apply IH|]. rewrite Hl. cbn [bind].
        apply IH.
Qed.

Lemma parseStream_loop_sections prefix sections rest n groups :
  Forall (section_classified prefix) sections ->
  CheckFile.parseStream_loop prefix
    (concat (map section_lines sections) ++ rest) n groups
  = CheckFile.parseStream_loop prefix rest
      (n + length (concat (map section_lines sections)))
      (groups ++ map section_group sections).
Proof.
  intros H. revert n groups.
  induction H as [|[[header name] body] sections (Hne & Hh & Hb) _ IH];
    intros n groups.
  - simpl. by rewrite Nat.add_0_r, app_nil_r.
  - cbn [map concat section_lines section_group].
    rewrite <- !app_assoc. cbn [app CheckFile.parseStream_loop].
    destruct (strip header) as [|c s] eqn:E; [done|].
    rewrite Hh. cbn [bind].
    rewrite (parseStream_loop_body prefix body _ (S n) groups name [] Hb).
    rewrite IH. cbn [app]. rewrite <- app_assoc. cbn [app].
    f_equal. cbn [length]. rewrite length_app, length_map. lia.
Qed.

Lemma parseStream_sections prefix preamble sections :
  Forall (passed_over prefix) preamble ->
  Forall (section_classified prefix) sections ->
  CheckFile.parseStream prefix
    (preamble ++ concat (map section_lines sections))
  = mapM (fun group => CheckFile.processGroup (fst group) (snd group))
         (map section_group sections).
Proof.
  intros Hpre Hs. unfold CheckFile.parseStream.
  rewrite parseStream_loop_passed_over by done.
  rewrite <- (app_nil_r (concat _)).
  rewrite parseStream_loop_sections by done.
  reflexivity.
Qed.

(** X13.  A check file made of lines that are passed over, then of
    sections - a header line and the lines up to the next header - is
    split into one group for each header, in the order of the headers,
    with the name read in the header and with the check lines of the
    section in their order, the lines passed over left out; the groups
    are then built one after the other. *)
Theorem check_file_is_split_at_headers (prefix : str)
    (preamble : list str)
    (sections : list (str * str
                      * list (str * option (str * CheckLine.Variant)))) :
  Forall (passed_over prefix) preamble ->
  Forall (section_classified prefix) sections ->
  CheckFile.init prefix (preamble ++ concat (map section_lines sections))
  = (groups <-
       mapM (fun group => CheckFile.processGroup (fst group) (snd group))
            (map section_group sections) ;;
     Ok (CheckFile.mk prefix groups)).
Proof.
  intros Hpre Hs. unfold CheckFile.init.
  by rewrite parseStream_sections.
Qed.

(** X14.  A header with no check line before the next header or the end
    of the file makes the check file fail - "Check group does not have a
    name" when the name read in the header is empty, "Check group ...
    does not have a body" otherwise - once the groups before it have been
    built. *)
Theorem check_group_without_lines_is_fatal (prefix : str)
    (preamble : list str)
    (before after : list (str * str
                          * list (str * option (str * CheckLine.Variant))))
    (header name : str)
    (body : list (str * option (str * CheckLine.Variant)))
    (built : list CheckGroup.t) :
  Forall (passed_over prefix) preamble ->
  Forall (section_classified prefix)
         (before ++ (header, name, body) :: after) ->
  omap snd body = [] ->
  mapM (fun group => CheckFile.processGroup (fst group) (snd group))
       (map section_group before) = Ok built ->
  CheckFile.init prefix
    (preamble
     ++ concat (map section_lines (before ++ (header, name, body) :: after)))
  = Raise (match name with [] => NoGroupName | _ => NoGroupBody name end).
Proof.
  intros Hpre Hs Hbody Hbuilt. unfold CheckFile.init.
  rewrite parseStream_sections by done.
  rewrite map_app. cbn [map].
  erewrite mapM_app_Raise; [reflexivity|exact Hbuilt|].
  cbn [section_group fst snd]. rewrite Hbody.
  unfold CheckFile.processGroup. cbn [mapM bind].
  by destruct name.
Qed.
End CheckFileSplit.

Lemma check_file_is_split_at_headers_witness :
  CheckFile.init (txt "CHECK")
    ([txt "int x;"]
     ++ concat (map section_lines
          [(txt "// CHECK-START: G", txt "G",
            [(txt "  // CHECK: A", Some (txt "A", CheckLine.InOrder));
             (txt "", None);
             (txt "  # CHECK-NOT: B C", Some (txt "B C", CheckLine.Not))])]))
  = (groups <-
       mapM (fun group => CheckFile.processGroup (fst group) (snd group))
            (map section_group
               [(txt "// CHECK-START: G", txt "G",
                 [(txt "  // CHECK: A", Some (txt "A", CheckLine.InOrder));
                  (txt "", None);
                  (txt "  # CHECK-NOT: B C",
                   Some (txt "B C", CheckLine.Not))])]) ;;
     Ok (CheckFile.mk (txt "CHECK") groups)).
Proof.
  apply (check_file_is_split_at_headers (re := PyRe.re)).
  - constructor; [right; intros n; reflexivity|constructor].
  - constructor; [|constructor].
    split; [vm_compute; discriminate|].
    split; [intros n; reflexivity|].
    constructor; [split; [vm_compute; discriminate|intros n; reflexivity]|].
    constructor; [left; reflexivity|].
    constructor; [split; [vm_compute; discriminate|intros n; reflexivity]|].
    constructor.
Defined.

(** [CHECK-START: G] directly followed by [CHECK-START: H]. *)
Lemma check_group_without_lines_is_fatal_witness :
  CheckFile.init (txt "CHECK")
    ([]
     ++ concat (map section_lines
          ([] ++ (txt "// CHECK-START: G", txt "G", [])
              :: [(txt "// CHECK-START: H", txt "H",
                   [(txt "// CHECK: A",
                     Some (txt "A", CheckLine.InOrder))])])))
  = Raise (NoGroupBody (txt "G")).
Proof.
  apply (check_group_without_lines_is_fatal (re := PyRe.re) (txt "CHECK")
           [] [] _ (txt "// CHECK-START: G") (txt "G") [] []).
  - constructor.
  - constructor; [|constructor; [|constructor]].
    + split; [vm_compute; discriminate|].
      split; [intros n; reflexivity|constructor].
    + split; [vm_compute; discriminate|].
      split; [intros n; reflexivity|].
      constructor; [|constructor].
      split; [vm_compute; discriminate|intros n; reflexivity].
  - reflexivity.
  - reflexivity.
Defined.

(** ** Reading a C1visualizer dump *)

Lemma strip_ends_nonspace (c d : ascii) (mid : str) :
  isspace c = false -> isspace d = false ->
  strip (c :: mid ++ [d]) = c :: mid ++ [d].
Proof.
  intros Hc Hd. unfold strip, rstrip. cbn [lstrip]. rewrite Hc.
  change (c :: mid ++ [d]) with ((c :: mid) ++ [d]).
  rewrite rev_app_distr. cbn [rev app lstrip]. rewrite Hd.
  change (d :: rev mid ++ [c]) with ([d] ++ rev (c :: mid)).
  rewrite rev_app_distr, rev_involutive. reflexivity.
Qed.

Lemma split_on_notin (sep : ascii) (a rest : str) :
  sep ∉ a -> split_on sep (a ++ sep :: rest) = a :: split_on sep rest.
Proof.
  induction a as [|c a IH]; intros Hno.
  - cbn [app split_on]. by rewrite Ascii.eqb_refl.
  - apply not_elem_of_cons in Hno as [Hne Hno].
    cbn [app split_on]. rewrite IH by done.
    destruct (Ascii.eqb_spec c sep); congruence.
Qed.

Lemma split_on_end (sep : ascii) (a : str) :
  sep ∉ a -> split_on sep a = [a].
Proof.
  induction a as [|c a IH]; intros Hno; [reflexivity|].
  apply not_elem_of_cons in Hno as [Hne Hno].
  cbn [split_on]. rewrite IH by done.
  destruct (Ascii.eqb_spec c sep); congruence.
Qed.

Lemma quoted_header (keyword name : str) :
  quote ∉ keyword ++ txt " " -> quote ∉ name ->
  OutputFile.quoted (header_line keyword name) = OOk name.
Proof.
  intros Hk Hn. unfold OutputFile.quoted, header_line.
  rewrite (app_assoc keyword). cbn [app].
  rewrite split_on_notin by done.
  rewrite split_on_notin by done. reflexivity.
Qed.

Lemma strip_header (c : ascii) (keyword name : str) :
  isspace c = false ->
  strip (header_line (c :: keyword) name) = header_line (c :: keyword) name.
Proof.
  intros Hc. unfold header_line.
  replace ((c :: keyword) ++ txt " " ++ [quote] ++ name ++ [quote])
    with (c :: (keyword ++ txt " " ++ [quote] ++ name) ++ [quote])
    by (cbn [app]; by rewrite <- !app_assoc).
  by apply strip_ends_nonspace.
Qed.

Lemma strip_header_name (name : str) :
  strip (header_line (txt "name") name) = header_line (txt "name") name.
Proof. exact (strip_header "n" (txt "ame") name eq_refl). Qed.

Lemma strip_header_method (name : str) :
  strip (header_line (txt "method") name)
  = header_line (txt "method") name.
Proof. exact (strip_header "m" (txt "ethod") name eq_refl). Qed.

Section DumpParsing.
Context {re : ReModule}.

Lemma output_loop_blank (self : OutputFile.parser) (line : str)
    (rest : list str) (n : nat) (groups : list (str * list str)) :
  strip line = [] ->
  OutputFile.parseStream_loop self (line :: rest) n groups
  = OutputFile.parseStream_loop self rest (S n) groups.
Proof. intros H. cbn [OutputFile.parseStream_loop]. by rewrite H. Qed.

Lemma output_loop_blanks (self : OutputFile.parser) (blanks rest : list str)
    (n : nat) (groups : list (str * list str)) :
  Forall (fun line => strip line = []) blanks ->
  OutputFile.parseStream_loop self (blanks ++ rest) n groups
  = OutputFile.parseStream_loop self rest (n + length blanks) groups.
Proof.
  intros H. revert n. induction H as [|line blanks Hl _ IH]; intros n.
  - simpl. by rewrite Nat.add_0_r.
  - cbn [app length]. rewrite output_loop_blank, IH by done.
    f_equal. lia.
Qed.

Lemma output_loop_silent (self self' : OutputFile.parser) (line : str)
    (rest : list str) (n : nat) (groups : list (str * list str)) :
  strip line <> [] ->
  OutputFile.processLine self (strip line) (S n) = OOk (self', (None, None)) ->
  OutputFile.parseStream_loop self (line :: rest) n groups
  = OutputFile.parseStream_loop self' rest (S n) groups.
Proof.
  intros Hne Hp. cbn [OutputFile.parseStream_loop].
  destruct (strip line); [done|]. by rewrite Hp.
Qed.

Lemma output_loop_new_group (self self' : OutputFile.parser)
    (line name : str) (rest : list str) (n : nat)
    (groups : list (str * list str)) :
  strip line <> [] ->
  OutputFile.processLine self (strip line) (S n)
  = OOk (self', (None, Some name)) ->
  OutputFile.parseStream_loop self (line :: rest) n groups
  = OutputFile.parseStream_loop self' rest (S n) (groups ++ [(name, [])]).
Proof.
  intros Hne Hp. cbn [OutputFile.parseStream_loop].
  destruct (strip line); [done|]. by rewrite Hp.
Qed.

Lemma output_loop_raise (self : OutputFile.parser) (line : str)
    (rest : list str) (n : nat) (groups : list (str * list str))
    (e : output_exn) :
  strip line <> [] ->
  OutputFile.processLine self (strip line) (S n) = ORaise e ->
  OutputFile.parseStream_loop self (line :: rest) n groups = ORaise e.
Proof.
  intros Hne Hp. cbn [OutputFile.parseStream_loop].
  destruct (strip line); [done|]. by rewrite Hp.
Qed.

(** The lines of a [cfg] block go, stripped, to the group of the block;
    the blank ones are dropped. *)
Lemma output_loop_body (method : option str) (body rest : list str)
    (n : nat) (groups : list (str * list str)) (name : str)
    (acc : list str) :
  Forall (fun line => strip line <> txt "end_cfg") body ->
  OutputFile.parseStream_loop
    (OutputFile.mkParser method OutputFile.InsideCfgBlock)
    (body ++ rest) n (groups ++ [(name, acc)])
  = OutputFile.parseStream_loop
      (OutputFile.mkParser method OutputFile.InsideCfgBlock)
      rest (n + length body) (groups ++ [(name, acc ++ stored body)]).
Proof.
  intros H. revert n acc. induction H as [|line body Hl _ IH]; intros n acc.
  - simpl. by rewrite Nat.add_0_r, app_nil_r.
  - cbn [app length OutputFile.parseStream_loop].
    replace (n + S (length body)) with (S n + length body) by lia.
    unfold stored. cbn [map]. rewrite filter_cons.
    destruct (strip line) as [|c s] eqn:E.
    + rewrite decide_False by (by intros H'). apply IH.
    + rewrite decide_True by done.
      unfold OutputFile.processLine. cbn [OutputFile.state].
      rewrite decide_False by done. cbn [obind].
      rewrite last_snoc, removelast_last.
      rewrite IH. unfold stored. by rewrite <- app_assoc.
Qed.

Lemma output_loop_ignored (method : option str) (lines rest : list str)
    (n : nat) (groups : list (str * list str)) :
  Forall ignored_in_compilation lines ->
  OutputFile.parseStream_loop
    (OutputFile.mkParser method OutputFile.InsideCompilationBlock)
    (lines ++ rest) n groups
  = OutputFile.parseStream_loop
      (OutputFile.mkParser method OutputFile.InsideCompilationBlock)
      rest (n + length lines) groups.
Proof.
  intros H. revert n. induction H as [|line lines Hl _ IH]; intros n.
  - simpl. by rewrite Nat.add_0_r.
  - cbn [app length].
    replace (n + S (length lines)) with (S n + length lines) by lia.
    destruct Hl as [Hl|[Hm Hne]].
    + by rewrite output_loop_blank, IH.
    + destruct (decide (strip line = [])) as [Hb|Hb];
        [by rewrite output_loop_blank, IH|].
      erewrite output_loop_silent; [apply IH|done|].
      unfold OutputFile.processLine. cbn [OutputFile.state].
      rewrite Hm. cbn [lift obind]. by rewrite decide_False.
Qed.

Hypothesis Hre : reads_headers.

Lemma output_loop_compilation (method : option str) (m : method_dump)
    (rest : list str) (n : nat) (groups : list (str * list str)) :
  quotable (method_name m) ->
  Forall ignored_in_compilation (lines_before m) ->
  Forall ignored_in_compilation (lines_after m) ->
  OutputFile.parseStream_loop
    (OutputFile.mkParser method OutputFile.OutsideBlock)
    (render_compilation m ++ rest) n groups
  = OutputFile.parseStream_loop
      (OutputFile.mkParser (Some (method_name m)) OutputFile.OutsideBlock)
      rest (n + length (render_compilation m)) groups.
Proof.
  intros Hq Hb Ha. destruct Hre as (_ & Hmethod & Hend).
  destruct (Hmethod _ Hq) as [e He].
  unfold render_compilation. rewrite <- !app_assoc. cbn [app].
  erewrite output_loop_silent; [|by vm_compute|reflexivity].
  rewrite output_loop_ignored by done.
  erewrite output_loop_silent; cycle 1.
  { rewrite strip_header_method. unfold header_line. by destruct (txt "method"). }
  { rewrite strip_header_method. unfold OutputFile.processLine.
    cbn [OutputFile.state]. rewrite He. cbn [lift obind].
    rewrite quoted_header; [reflexivity| |apply Hq].
    clear. vm_compute. intros H.
    repeat (apply elem_of_cons in H as [H|H]; [discriminate|]).
    by apply elem_of_nil in H. }
  rewrite output_loop_ignored by done.
  erewrite output_loop_silent; cycle 1.
  { by vm_compute. }
  { unfold OutputFile.processLine. cbn [OutputFile.state].
    change (strip (txt "end_compilation")) with (txt "end_compilation").
    rewrite Hend. cbn [lift obind]. rewrite decide_True by done.
    reflexivity. }
  cbn [OutputFile.lastMethodName]. f_equal.
  cbn [length]. rewrite !length_app. cbn [length]. rewrite length_app.
  cbn [length]. lia.
Qed.

Lemma output_loop_pass (m : method_dump) (pass : str * list str)
    (rest : list str) (n : nat) (groups : list (str * list str)) :
  pass_well_formed pass ->
  OutputFile.parseStream_loop
    (OutputFile.mkParser (Some (method_name m)) OutputFile.OutsideBlock)
    (render_pass pass ++ rest) n groups
  = OutputFile.parseStream_loop
      (OutputFile.mkParser (Some (method_name m)) OutputFile.OutsideBlock)
      rest (n + length (render_pass pass)) (groups ++ [pass_group m pass]).
Proof.
  intros [Hq Hbody]. destruct Hre as (Hname & _ & _).
  destruct (Hname _ Hq) as [e He].
  unfold render_pass. rewrite <- !app_assoc. cbn [app].
  erewrite output_loop_silent; [|by vm_compute|reflexivity].
  cbn [OutputFile.lastMethodName].
  erewrite output_loop_new_group; cycle 1.
  { rewrite strip_header_name. unfold header_line. by destruct (txt "name"). }
  { rewrite strip_header_name. unfold OutputFile.processLine.
    cbn [OutputFile.state]. rewrite He. cbn [lift obind].
    cbn [OutputFile.lastMethodName].
    rewrite quoted_header; [reflexivity| |apply Hq].
    clear. vm_compute. intros H.
    repeat (apply elem_of_cons in H as [H|H]; [discriminate|]).
    by apply elem_of_nil in H. }
  cbn [OutputFile.lastMethodName].
  rewrite output_loop_body by done.
  erewrite output_loop_silent; cycle 1.
  { by vm_compute. }
  { unfold OutputFile.processLine. cbn [OutputFile.state].
    change (strip (txt "end_cfg")) with (txt "end_cfg").
    rewrite decide_True by done. reflexivity. }
  cbn [OutputFile.lastMethodName app]. unfold pass_group. f_equal.
  cbn [length]. rewrite length_app. cbn [length]. lia.
Qed.

Lemma output_loop_passes (m : method_dump) (ps : list (str * list str))
    (rest : list str) (n : nat) (groups : list (str * list str)) :
  Forall pass_well_formed ps ->
  OutputFile.parseStream_loop
    (OutputFile.mkParser (Some (method_name m)) OutputFile.OutsideBlock)
    (concat (map render_pass ps) ++ rest) n groups
  = OutputFile.parseStream_loop
      (OutputFile.mkParser (Some (method_name m)) OutputFile.OutsideBlock)
      rest (n + length (concat (map render_pass ps)))
      (groups ++ map (pass_group m) ps).
Proof.
  intros H. revert n groups.
  induction H as [|pass ps Hp _ IH]; intros n groups.
  - simpl. by rewrite Nat.add_0_r, app_nil_r.
  - cbn [map concat]. rewrite <- app_assoc.
    rewrite output_loop_pass, IH by done.
    rewrite <- app_assoc. cbn [app]. f_equal.
    rewrite length_app. lia.
Qed.

Lemma output_loop_method (method : option str) (m : method_dump)
    (rest : list str) (n : nat) (groups : list (str * list str)) :
  method_well_formed m ->
  OutputFile.parseStream_loop
    (OutputFile.mkParser method OutputFile.OutsideBlock)
    (render_method m ++ rest) n groups
  = OutputFile.parseStream_loop
      (OutputFile.mkParser (Some (method_name m)) OutputFile.OutsideBlock)
      rest (n + length (render_method m)) (groups ++ method_groups m).
Proof.
  intros (Hq & Hb & Ha & Hp). unfold render_method.
  rewrite <- app_assoc.
  rewrite output_loop_compilation, output_loop_passes by done.
  unfold method_groups. f_equal. rewrite length_app. lia.
Qed.

(** After the methods the parser is outside a block and remembers the
    last method. *)
Lemma output_loop_dump (method : option str) (methods : list method_dump)
    (rest : list str) (n : nat) (groups : list (str * list str)) :
  Forall method_well_formed methods ->
  OutputFile.parseStream_loop
    (OutputFile.mkParser method OutputFile.OutsideBlock)
    (render_dump methods ++ rest) n groups
  = OutputFile.parseStream_loop
      (OutputFile.mkParser
         (foldl (fun _ m => Some (method_name m)) method methods)
         OutputFile.OutsideBlock)
      rest (n + length (render_dump methods))
      (groups ++ dump_groups methods).
Proof.
  intros H. revert method n groups.
  induction H as [|m methods Hm _ IH]; intros method n groups.
  - simpl. by rewrite Nat.add_0_r, app_nil_r.
  - unfold render_dump, dump_groups in *. cbn [map concat foldl].
    rewrite <- app_assoc. rewrite output_loop_method, IH by done.
    rewrite <- app_assoc. f_equal. rewrite length_app. lia.
Qed.

Lemma foldl_last_method (method : option str)
    (methods : list method_dump) (m : method_dump) :
  last methods = Some m ->
  foldl (fun _ m => Some (method_name m)) method methods
  = Some (method_name m).
Proof.
  intros H. destruct (last_Some methods m) as [[l ->] _]; [done|].
  by rewrite foldl_app.
Qed.

Lemma mapM_Ok {A B} (f : A -> result B) (h : A -> B) (l : list A) :
  Forall (fun a => f a = Ok (h a)) l -> mapM f l = Ok (map h l).
Proof.
  induction 1 as [|a l Ha _ IH]; [reflexivity|].
  cbn [mapM map]. by rewrite Ha, IH.
Qed.

Lemma processGroup_pass (m : method_dump) (pass : str * list str) :
  stored (snd pass) <> [] ->
  OutputFile.processGroup (fst (pass_group m pass)) (snd (pass_group m pass))
  = Ok (output_group (pass_group m pass)).
Proof.
  intros H. unfold OutputFile.processGroup, OutputGroup.init, pass_group.
  cbn [fst snd].
  destruct (method_name m ++ txt " " ++ fst pass) eqn:E.
  { by destruct (method_name m). }
  by destruct (stored (snd pass)).
Qed.

Lemma processGroup_dump (methods : list method_dump) :
  Forall passes_have_lines methods ->
  mapM (fun group => OutputFile.processGroup (fst group) (snd group))
       (dump_groups methods)
  = Ok (map output_group (dump_groups methods)).
Proof.
  intros H. apply mapM_Ok. unfold dump_groups.
  apply Forall_concat, Forall_map.
  eapply Forall_impl; [exact H|]. intros m Hm. unfold method_groups.
  apply Forall_map. eapply Forall_impl; [exact Hm|].
  intros pass Hp. by apply processGroup_pass.
Qed.
End DumpParsing.

(** ** [PyRe] reads the header lines *)

Module PyReHeaders.
Import PyRe PyReSpec PyReHeaderSpec PyReLaws.

Lemma compile_namePattern :
  compile OutputFile.namePattern = Some (header_re (txt "name")).
Proof. reflexivity. Qed.

Lemma compile_methodPattern :
  compile OutputFile.methodPattern = Some (header_re (txt "method")).
Proof. reflexivity. Qed.

Lemma ends_lits_then (t : str) (r : regex) (s : str) :
  ends (lits_then t r) (t ++ s) = map (Nat.add (length t)) (ends r s).
Proof.
  induction t as [|c t IH].
  - cbn [lits_then app length]. by rewrite map_id.
  - cbn [lits_then app length]. rewrite ends_seq.
    change (ends (RSet (Ascii.eqb c)) (c :: t ++ s))
      with (if Ascii.eqb c c then [1] else []).
    rewrite Ascii.eqb_refl. cbn [flat_map].
    change (drop 1 (c :: t ++ s)) with (t ++ s).
    rewrite IH, app_nil_r, map_map. reflexivity.
Qed.

Lemma ends_plus_set (f : ascii -> bool) (c : ascii) (s : str) :
  f c = true ->
  ends (RPlus true (RSet f)) (c :: s) = map S (countdown (span_len f s)).
Proof.
  intros Hc. unfold RPlus. rewrite ends_seq.
  change (ends (RSet f) (c :: s)) with (if f c then [1] else []).
  rewrite Hc. cbn [flat_map]. change (drop 1 (c :: s)) with s.
  rewrite ends_star, star_ends_set by apply span_len_le.
  by rewrite app_nil_r.
Qed.

Lemma span_len_until (f : ascii -> bool) (a : str) (c : ascii) (s : str) :
  Forall (fun x => f x = true) a -> f c = false ->
  span_len f (a ++ c :: s) = length a.
Proof.
  intros Ha Hc. induction Ha as [|x a Hx _ IH]; simpl.
  - by rewrite Hc.
  - by rewrite Hx, IH.
Qed.

Lemma countdown_head (n : nat) : exists l, countdown n = n :: l.
Proof. destruct n; simpl; eauto. Qed.

Lemma match_header (keyword name : str) :
  quotable name ->
  exists e, match_at (header_re keyword) (header_line keyword name) = Some e.
Proof.
  intros [Hne Hq]. destruct name as [|c name]; [done|].
  apply not_elem_of_cons in Hq as [Hc Hq].
  assert (Hf : forall x, x <> quote ->
            negb (false || Ascii.eqb x quote) = true).
  { intros x Hx. by destruct (Ascii.eqb_spec x quote). }
  unfold match_at, header_re, header_line.
  rewrite ends_lits_then.
  change (txt " ") with [" "%char]. cbn [app].
  rewrite ends_seq, ends_plus_set by reflexivity.
  change (span_len isspace (quote :: c :: name ++ [quote])) with 0.
  cbn [countdown map flat_map].
  change (drop 1 (" "%char :: ?s)) with s.
  rewrite ends_seq.
  change (ends (RSet (Ascii.eqb quote)) (quote :: c :: name ++ [quote]))
    with [1].
  cbn [flat_map]. change (drop 1 (quote :: ?s)) with s.
  rewrite ends_seq, ends_plus_set by (apply Hf; congruence).
  rewrite span_len_until; cycle 1.
  { apply Forall_forall. intros x Hx. apply Hf. intros ->. done. }
  { reflexivity. }
  destruct (countdown_head (length name)) as [l ->].
  cbn [map flat_map].
  change (drop (S (length name)) (c :: name ++ [quote]))
    with (drop (length name) (name ++ [quote])).
  rewrite drop_app_length.
  change (ends (RSeq (RSet (Ascii.eqb quote)) REps) [quote]) with [1].
  cbn [map app]. rewrite !app_nil_r. cbn [map head]. eauto.
Qed.

Lemma PyRe_reads_headers : reads_headers (re := PyRe.re).
Proof.
  split; [|split].
  - intros name Hq. destruct (match_header (txt "name") name Hq) as [e He].
    exists e. cbn [re_match PyRe.re]. unfold match_.
    by rewrite compile_namePattern, He.
  - intros name Hq. destruct (match_header (txt "method") name Hq) as [e He].
    exists e. cbn [re_match PyRe.re]. unfold match_.
    by rewrite compile_methodPattern, He.
  - reflexivity.
Qed.
End PyReHeaders.

Section DumpProperties.
Context {re : ReModule}.

Lemma output_loop_pass_open (m : method_dump) (name : str)
    (body : list str) (n : nat) (groups : list (str * list str)) :
  reads_headers -> pass_well_formed (name, body) ->
  OutputFile.parseStream_loop
    (OutputFile.mkParser (Some (method_name m)) OutputFile.OutsideBlock)
    ([txt "begin_cfg"; header_line (txt "name") name] ++ body) n groups
  = OOk (OutputFile.mkParser (Some (method_name m)) OutputFile.InsideCfgBlock,
         groups ++ [pass_group m (name, body)]).
Proof.
  intros (Hname & _ & _) [Hq Hbody]. cbn [fst snd] in Hq, Hbody.
  destruct (Hname _ Hq) as [e He]. cbn [app].
  erewrite output_loop_silent; [|by vm_compute|reflexivity].
  cbn [OutputFile.lastMethodName].
  erewrite output_loop_new_group; cycle 1.
  { rewrite strip_header_name. unfold header_line. by destruct (txt "name"). }
  { rewrite strip_header_name. unfold OutputFile.processLine.
    cbn [OutputFile.state]. rewrite He. cbn [lift obind].
    cbn [OutputFile.lastMethodName].
    rewrite quoted_header; [reflexivity| |apply Hq].
    clear. vm_compute. intros H.
    repeat (apply elem_of_cons in H as [H|H]; [discriminate|]).
    by apply elem_of_nil in H. }
  cbn [OutputFile.lastMethodName].
  rewrite <- (app_nil_r body) at 1.
  rewrite output_loop_body by done. reflexivity.
Qed.

Lemma output_loop_empty_compilation (method : option str)
    (blocks : list (list str)) (rest : list str) (n : nat)
    (groups : list (str * list str)) :
  reads_headers ->
  Forall (Forall ignored_in_compilation) blocks ->
  OutputFile.parseStream_loop
    (OutputFile.mkParser method OutputFile.OutsideBlock)
    (concat (map compilation_block blocks)
     ++ rest) n groups
  = OutputFile.parseStream_loop
      (OutputFile.mkParser method OutputFile.OutsideBlock) rest
      (n + length (concat (map compilation_block
                               blocks)))
      groups.
Proof.
  intros (_ & _ & Hend) H. revert n.
  induction H as [|lines blocks Hl _ IH]; intros n.
  - simpl. by rewrite Nat.add_0_r.
  - cbn [map concat]. unfold compilation_block at 1 3.
    rewrite <- !app_assoc. cbn [app].
    erewrite output_loop_silent; [|by vm_compute|reflexivity].
    cbn [OutputFile.lastMethodName].
    rewrite output_loop_ignored by done. cbn [app].
    erewrite output_loop_silent; cycle 1.
    { by vm_compute. }
    { unfold OutputFile.processLine. cbn [OutputFile.state].
      change (strip (txt "end_compilation")) with (txt "end_compilation").
      rewrite Hend. cbn [lift obind]. rewrite decide_True by done.
      reflexivity. }
    cbn [OutputFile.lastMethodName]. rewrite IH. f_equal.
    cbn [length]. rewrite !length_app. cbn [length]. lia.
Qed.

(** X15.  A dump made of methods - a compilation block with its [method]
    line, then the [cfg] blocks of the passes - is read back as one group
    for each [cfg] block, in the order of the dump, named by the method
    and the pass with one space between them, and holding the lines of
    the block stripped of the white space around them, without the blank
    ones. *)
Theorem well_formed_dump_is_read_back (methods : list method_dump) :
  reads_headers ->
  Forall method_well_formed methods ->
  Forall passes_have_lines methods ->
  OutputFile.init (render_dump methods)
  = OOk (OutputFile.mk (map output_group (dump_groups methods))).
Proof.
  intros Hre Hwf Hlines. unfold OutputFile.init.
  rewrite <- (app_nil_r (render_dump methods)).
  rewrite output_loop_dump by done.
  cbn [OutputFile.parseStream_loop obind snd app].
  by rewrite processGroup_dump.
Qed.

(** X16.  A [cfg] block with no line that is not blank makes the whole
    dump fail with "Output group ... does not have a body", even when
    every block before it is fine. *)
Theorem cfg_block_without_lines_is_fatal
    (before after : list method_dump) (m : method_dump)
    (earlier later : list (str * list str)) (pass : str * list str) :
  reads_headers ->
  Forall method_well_formed (before ++ m :: after) ->
  passes m = earlier ++ pass :: later ->
  stored (snd pass) = [] ->
  Forall passes_have_lines before ->
  Forall (fun p => stored (snd p) <> []) earlier ->
  OutputFile.init (render_dump (before ++ m :: after))
  = ORaise (Other (NoGroupBody (method_name m ++ txt " " ++ fst pass))).
Proof.
  intros Hre Hwf Hm Hempty Hbefore Hearlier. unfold OutputFile.init.
  rewrite <- (app_nil_r (render_dump _)).
  rewrite output_loop_dump by done.
  cbn [OutputFile.parseStream_loop obind snd app].
  unfold dump_groups. rewrite map_app, concat_app. cbn [map concat].
  unfold method_groups at 2. rewrite Hm, map_app. cbn [map].
  rewrite <- app_assoc, (app_assoc _ (map (pass_group m) earlier)).
  cbn [app].
  erewrite mapM_app_Raise; [reflexivity| |].
  - apply mapM_Ok with (h := output_group). apply Forall_app. split.
    + apply Forall_concat, Forall_map.
      eapply Forall_impl; [exact Hbefore|]. intros m' Hm'.
      apply Forall_map. eapply Forall_impl; [exact Hm'|].
      intros p Hp. by apply processGroup_pass.
    + apply Forall_map. eapply Forall_impl; [exact Hearlier|].
      intros p Hp. by apply processGroup_pass.
  - unfold pass_group, OutputFile.processGroup, OutputGroup.init.
    cbn [fst snd]. rewrite Hempty.
    destruct (method_name m ++ txt " " ++ fst pass) eqn:E; [|done].
    by destruct (method_name m).
Qed.

(** X17.  Nothing checks that the last block is closed: a dump that ends
    inside a [cfg] block, with no [end_cfg], is read as if the block
    ended with the file, and the block belongs to the last method. *)
Theorem unterminated_cfg_block_is_accepted (methods : list method_dump)
    (m : method_dump) (name : str) (body : list str) :
  reads_headers ->
  Forall method_well_formed methods ->
  Forall passes_have_lines methods ->
  last methods = Some m ->
  pass_well_formed (name, body) ->
  stored body <> [] ->
  OutputFile.init
    (render_dump methods
     ++ [txt "begin_cfg"; header_line (txt "name") name] ++ body)
  = OOk (OutputFile.mk
           (map output_group
              (dump_groups methods ++ [pass_group m (name, body)]))).
Proof.
  intros Hre Hwf Hlines Hlast Hpass Hbody. unfold OutputFile.init.
  rewrite output_loop_dump by done.
  rewrite (foldl_last_method _ _ _ Hlast).
  rewrite output_loop_pass_open by done.
  cbn [obind snd app].
  erewrite mapM_Ok with (h := output_group); [reflexivity|].
  apply Forall_app. split.
  - apply Forall_concat, Forall_map.
    eapply Forall_impl; [exact Hlines|]. intros m' Hm'.
    apply Forall_map. eapply Forall_impl; [exact Hm'|].
    intros p Hp. by apply processGroup_pass.
  - constructor; [|constructor]. by apply processGroup_pass.
Qed.

(** X18.  Between the blocks only blank lines, [begin_compilation] and
    [begin_cfg] may stand: any other line makes the dump fail with
    "Output line lies outside a group", and the line number of the
    message counts every line before, the blank ones too. *)
Theorem line_between_blocks_is_fatal (methods : list method_dump)
    (blanks : list str) (line : str) (rest : list str) :
  reads_headers ->
  Forall method_well_formed methods ->
  Forall (fun l => strip l = []) blanks ->
  strip line <> [] ->
  strip line <> txt "begin_cfg" ->
  strip line <> txt "begin_compilation" ->
  OutputFile.init (render_dump methods ++ blanks ++ line :: rest)
  = ORaise (OutputLineOutsideGroup
              (length (render_dump methods) + length blanks + 1)).
Proof.
  intros Hre Hwf Hblanks Hne Hcfg Hcomp. unfold OutputFile.init.
  rewrite output_loop_dump, output_loop_blanks by done.
  erewrite output_loop_raise; [reflexivity|done|].
  unfold OutputFile.processLine. cbn [OutputFile.state].
  rewrite !decide_False by done. do 2 f_equal. lia.
Qed.

(** X19.  A [begin_cfg] before any [method] line makes the dump fail with
    "Output contains a pass without a method header" and the number of
    its line; compilation blocks that have no [method] line do not
    count as a header. *)
Theorem pass_before_any_method_is_fatal (blocks : list (list str))
    (blanks : list str) (line : str) (rest : list str) :
  reads_headers ->
  Forall (Forall ignored_in_compilation) blocks ->
  Forall (fun l => strip l = []) blanks ->
  strip line = txt "begin_cfg" ->
  OutputFile.init
    (concat (map compilation_block blocks)
     ++ blanks ++ line :: rest)
  = ORaise (PassWithoutMethod
              (length (concat (map compilation_block
                                   blocks))
               + length blanks + 1)).
Proof.
  intros Hre Hblocks Hblanks Hline. unfold OutputFile.init.
  rewrite output_loop_empty_compilation, output_loop_blanks by done.
  erewrite output_loop_raise; [reflexivity|by rewrite Hline|].
  unfold OutputFile.processLine. cbn [OutputFile.state].
  rewrite decide_True by done. cbn [OutputFile.lastMethodName].
  do 2 f_equal. lia.
Qed.

(** X20.  The first line after [begin_cfg] that is not blank has to be
    the [name] line: if the pattern does not match it the dump fails
    with "Expected group name in output file" and the number of that
    line. *)
Theorem cfg_block_needs_a_name_line (methods : list method_dump)
    (blanks : list str) (line : str) (rest : list str) :
  reads_headers ->
  Forall method_well_formed methods ->
  methods <> [] ->
  Forall (fun l => strip l = []) blanks ->
  strip line <> [] ->
  re_match OutputFile.namePattern (strip line) = Ok None ->
  OutputFile.init
    (render_dump methods ++ [txt "begin_cfg"] ++ blanks ++ line :: rest)
  = ORaise (ExpectedGroupName
              (length (render_dump methods) + 1 + length blanks + 1)).
Proof.
  intros Hre Hwf Hmethods Hblanks Hne Hline. unfold OutputFile.init.
  rewrite output_loop_dump by done.
  destruct (last methods) as [m|] eqn:Hlast;
    [|by apply last_None in Hlast].
  rewrite (foldl_last_method _ _ _ Hlast). cbn [app].
  erewrite output_loop_silent; [|by vm_compute|reflexivity].
  cbn [OutputFile.lastMethodName].
  rewrite output_loop_blanks by done.
  erewrite output_loop_raise; [reflexivity|done|].
  unfold OutputFile.processLine. cbn [OutputFile.state].
  rewrite Hline. cbn [lift obind]. do 2 f_equal. lia.
Qed.

(** X21.  [DumpGroup] prints a group exactly for the names [ListGroups]
    prints for the same dump, and fails with "Check group ... not found
    in the output" for every other name. *)
Theorem DumpGroup_agrees_with_ListGroups (outputStream : list str)
    (names : list str) (groupName : str) :
  Commands.ListGroups outputStream = OOk names ->
  (groupName ∈ names <->
   exists text, Commands.DumpGroup outputStream groupName = OOk text)
  /\ ((groupName ∉ names) ->
      Commands.DumpGroup outputStream groupName
      = ORaise (MissingGroup groupName)).
Proof.
  unfold Commands.ListGroups, Commands.DumpGroup.
  destruct (OutputFile.init outputStream) as [outputFile| |];
    cbn [obind]; [|discriminate..].
  intros [= <-]. unfold OutputFile.findGroup.
  destruct (OutputFile.findGroup_in (OutputFile.groups outputFile)
              groupName) as [g|] eqn:E.
  - apply findGroup_in_Some in E as (b & a & Heq & Hn & _).
    assert (Hin : groupName ∈ map OutputGroup.name
                                 (OutputFile.groups outputFile)).
    { rewrite Heq, map_app. apply elem_of_app. right. cbn [map].
      rewrite Hn. apply elem_of_cons. by left. }
    split; [split; eauto|done].
  - apply findGroup_in_None in E.
    assert (Hout : groupName ∉ map OutputGroup.name
                                  (OutputFile.groups outputFile)).
    { intros Hin. apply list_elem_of_In, in_map_iff in Hin as (g & Hg & Hin).
      apply list_elem_of_In in Hin.
      rewrite Forall_forall in E. by apply (E g Hin). }
    split; [split; [done|intros [? ?]; discriminate]|done].
Qed.
End DumpProperties.

(** ** The dump properties on [PyRe] *)

Lemma not_elem_of_by_test (c : ascii) (s : str) :
  forallb (fun x => negb (Ascii.eqb c x)) s = true -> c ∉ s.
Proof.
  intros H Hin. apply list_elem_of_In in Hin.
  rewrite forallb_forall in H. specialize (H c Hin).
  by rewrite Ascii.eqb_refl in H.
Qed.

Lemma sample_dump_well_formed :
  Forall (method_well_formed (re := PyRe.re)) sample_dump.
Proof.
  constructor; [|constructor].
  split; [split; [discriminate|by apply not_elem_of_by_test]|].
  split; [constructor; [right; split; [reflexivity|vm_compute; discriminate]
                       |constructor]|].
  split; [constructor; [right; split; [reflexivity|vm_compute; discriminate]
                       |constructor]|].
  constructor; [|constructor; [|constructor]].
  - split; [split; [discriminate|by apply not_elem_of_by_test]|].
    repeat (constructor; [vm_compute; discriminate|]). constructor.
  - split; [split; [discriminate|by apply not_elem_of_by_test]|].
    repeat (constructor; [vm_compute; discriminate|]). constructor.
Qed.

Lemma sample_dump_has_lines : Forall passes_have_lines sample_dump.
Proof.
  constructor; [|constructor].
  repeat (constructor; [vm_compute; discriminate|]). constructor.
Qed.

Lemma well_formed_dump_is_read_back_witness :
  OutputFile.init (render_dump sample_dump)
  = OOk (OutputFile.mk (map output_group (dump_groups sample_dump))).
Proof.
  apply (well_formed_dump_is_read_back (re := PyRe.re) sample_dump).
  - exact PyReHeaders.PyRe_reads_headers.
  - exact sample_dump_well_formed.
  - exact sample_dump_has_lines.
Defined.

(** A method whose second block holds one blank line. *)
Lemma cfg_block_without_lines_is_fatal_witness :
  OutputFile.init
    (render_dump
       ([] ++ mkMethod (txt "M") [] []
                [(txt "p", [txt "x"]); (txt "q", [txt " "])]
           :: sample_dump))
  = ORaise (Other (NoGroupBody (txt "M" ++ txt " " ++ txt "q"))).
Proof.
  apply (cfg_block_without_lines_is_fatal (re := PyRe.re) [] sample_dump
           (mkMethod (txt "M") [] []
              [(txt "p", [txt "x"]); (txt "q", [txt " "])])
           [(txt "p", [txt "x"])] [] (txt "q", [txt " "])).
  - exact PyReHeaders.PyRe_reads_headers.
  - constructor; [|exact sample_dump_well_formed].
    split; [split; [discriminate|by apply not_elem_of_by_test]|].
    split; [constructor|]. split; [constructor|].
    constructor; [|constructor; [|constructor]].
    + split; [split; [discriminate|by apply not_elem_of_by_test]|].
      repeat (constructor; [vm_compute; discriminate|]). constructor.
    + split; [split; [discriminate|by apply not_elem_of_by_test]|].
      repeat (constructor; [vm_compute; discriminate|]). constructor.
  - reflexivity.
  - reflexivity.
  - constructor.
  - constructor; [vm_compute; discriminate|constructor].
Defined.

Lemma unterminated_cfg_block_is_accepted_witness :
  OutputFile.init
    (render_dump sample_dump
     ++ [txt "begin_cfg"; header_line (txt "name") (txt "last")]
     ++ [txt "B9"])
  = OOk (OutputFile.mk
           (map output_group
              (dump_groups sample_dump
               ++ [(txt "int Main.f(int) last", [txt "B9"])]))).
Proof.
  apply (unterminated_cfg_block_is_accepted (re := PyRe.re) sample_dump
           (mkMethod (txt "int Main.f(int)")
              [txt "  name " ++ [quote] ++ txt "Main.f" ++ [quote]]
              [txt "  date 1"]
              [(txt "builder", [txt "  B0"; txt ""; txt "  B1 "]);
               (txt "inliner (after)", [txt "begin_cfg"])])
           (txt "last") [txt "B9"]).
  - exact PyReHeaders.PyRe_reads_headers.
  - exact sample_dump_well_formed.
  - exact sample_dump_has_lines.
  - reflexivity.
  - split; [split; [discriminate|by apply not_elem_of_by_test]|].
    constructor; [vm_compute; discriminate|constructor].
  - vm_compute. discriminate.
Defined.

(** An [end_cfg] with no block to end, after a blank line. *)
Lemma line_between_blocks_is_fatal_witness :
  OutputFile.init
    (render_dump sample_dump ++ [txt ""] ++ txt "end_cfg" :: [])
  = ORaise (OutputLineOutsideGroup
              (length (render_dump sample_dump) + length [txt ""] + 1)).
Proof.
  apply (line_between_blocks_is_fatal (re := PyRe.re) sample_dump
           [txt ""] (txt "end_cfg") []).
  - exact PyReHeaders.PyRe_reads_headers.
  - exact sample_dump_well_formed.
  - constructor; [reflexivity|constructor].
  - vm_compute. discriminate.
  - vm_compute. discriminate.
  - vm_compute. discriminate.
Defined.

(** A compilation block with a [name] line and no [method] line. *)
Lemma pass_before_any_method_is_fatal_witness :
  OutputFile.init
    (concat (map compilation_block
               [[txt "  name " ++ [quote] ++ txt "Main.f" ++ [quote]]])
     ++ [] ++ txt "  begin_cfg" :: [])
  = ORaise (PassWithoutMethod
              (length (concat (map compilation_block
                         [[txt "  name " ++ [quote] ++ txt "Main.f"
                           ++ [quote]]]))
               + length (@nil str) + 1)).
Proof.
  apply (pass_before_any_method_is_fatal (re := PyRe.re)
           [[txt "  name " ++ [quote] ++ txt "Main.f" ++ [quote]]]
           [] (txt "  begin_cfg") []).
  - exact PyReHeaders.PyRe_reads_headers.
  - constructor; [|constructor].
    constructor; [right; split; [reflexivity|vm_compute; discriminate]
                 |constructor].
  - constructor.
  - reflexivity.
Defined.

(** A block whose first line is a line of the body. *)
Lemma cfg_block_needs_a_name_line_witness :
  OutputFile.init
    (render_dump sample_dump ++ [txt "begin_cfg"] ++ [txt ""]
     ++ txt "  B0" :: [txt "end_cfg"])
  = ORaise (ExpectedGroupName
              (length (render_dump sample_dump) + 1 + length [txt ""] + 1)).
Proof.
  apply (cfg_block_needs_a_name_line (re := PyRe.re) sample_dump
           [txt ""] (txt "  B0") [txt "end_cfg"]).
  - exact PyReHeaders.PyRe_reads_headers.
  - exact sample_dump_well_formed.
  - discriminate.
  - constructor; [reflexivity|constructor].
  - vm_compute. discriminate.
  - reflexivity.
Defined.

Lemma DumpGroup_agrees_with_ListGroups_witness :
  (txt "int Main.f(int) builder"
     ∈ [txt "int Main.f(int) builder"; txt "int Main.f(int) inliner (after)"]
   <-> exists text,
       Commands.DumpGroup (render_dump sample_dump)
         (txt "int Main.f(int) builder") = OOk text)
  /\ ((txt "int Main.f(int) builder"
         ∉ [txt "int Main.f(int) builder";
            txt "int Main.f(int) inliner (after)"]) ->
      Commands.DumpGroup (render_dump sample_dump)
        (txt "int Main.f(int) builder")
      = ORaise (MissingGroup (txt "int Main.f(int) builder"))).
Proof.
  apply (DumpGroup_agrees_with_ListGroups (re := PyRe.re)
           (render_dump sample_dump)
           [txt "int Main.f(int) builder";
            txt "int Main.f(int) inliner (after)"]
           (txt "int Main.f(int) builder")).
  reflexivity.
Defined.
